(** * doc_comments_ai: response normalisation and the patch set

    A shallow embedding of the post-processing code of
    [doc_comments_ai/llm.py] (the SSE reassembly and [_extract_code_block]
    of [DeepseekLLM], [extract_doc_comment], [insert_doc_comment]), of
    the method loop of [doc_comments_ai/app.py], which builds the patch
    set, and of [fix_comment.py].  The loop of app.py:161-164 hands each
    entry of the patch set to [utils.write_code_snippet_to_file]; the
    module [utils] is not among the sources, and what that function does
    to the file is not modelled here.

    Python [str] values are lists of characters.  A character is a code
    point in the range 0..255 ([ascii]); the character classes below are
    the ones Python uses on that range. *)

From Stdlib Require Import String Ascii List ZArith Lia Bool Arith.
Import ListNotations.

Local Open Scope list_scope.

(* ================================================================== *)
(** * Part I: definitions                                              *)
(* ================================================================== *)

Definition str := list ascii.

(** A literal of the source, written as a Rocq string. *)
Definition lit (s : string) : str := list_ascii_of_string s.

Definition LF : ascii := "010"%char.
Definition CR : ascii := "013"%char.
Definition SLASH : ascii := "/"%char.
Definition BACKTICK : ascii := "`"%char.

(** ** Python built-ins on [str] *)
Module Py.

Definition code (c : ascii) : N := N_of_ascii c.

Definition between (lo hi n : N) : bool := (N.leb lo n && N.leb n hi)%bool.

(** [str.isspace] on one character; also the class [\s] of [re]. *)
Definition isspace (c : ascii) : bool :=
  let n := code c in
  (between 9 13 n || between 28 32 n || N.eqb n 133 || N.eqb n 160)%bool.

(** The line boundaries of [str.splitlines]. *)
Definition is_linebreak (c : ascii) : bool :=
  let n := code c in
  (between 10 13 n || between 28 30 n || N.eqb n 133)%bool.

(** [str.isalnum] on one character. *)
Definition isalnum (c : ascii) : bool :=
  let n := code c in
  (between 48 57 n || between 65 90 n || between 97 122 n
   || N.eqb n 170 || between 178 179 n || N.eqb n 181
   || between 185 186 n || between 188 190 n
   || between 192 214 n || between 216 246 n || between 248 255 n)%bool.

(** [str.lower] on one character. *)
Definition lower_char (c : ascii) : ascii :=
  let n := code c in
  if (between 65 90 n || between 192 214 n || between 216 222 n)%bool
  then ascii_of_N (n + 32) else c.

Definition lower (s : str) : str := map lower_char s.

Fixpoint str_eqb (a b : str) : bool :=
  match a, b with
  | [], [] => true
  | x :: a', y :: b' => (Ascii.eqb x y && str_eqb a' b')%bool
  | _, _ => false
  end.

(** [s.startswith(p)] *)
Fixpoint startswith (s p : str) {struct p} : bool :=
  match p, s with
  | [], _ => true
  | x :: p', y :: s' => (Ascii.eqb x y && startswith s' p')%bool
  | _ :: _, [] => false
  end.

Definition len (s : str) : Z := Z.of_nat (length s).

(** Lowest offset at which [sub] occurs in [s]. *)
Fixpoint find_nat (s sub : str) : option nat :=
  if startswith s sub then Some 0
  else match s with
       | [] => None
       | _ :: s' => option_map S (find_nat s' sub)
       end.

(** Highest offset at which [sub] occurs in [s]. *)
Fixpoint rfind_nat (s sub : str) : option nat :=
  match s with
  | [] => if startswith [] sub then Some 0 else None
  | _ :: s' =>
      match rfind_nat s' sub with
      | Some j => Some (S j)
      | None => if startswith s sub then Some 0 else None
      end
  end.

(** How Python reads a [start] argument: a negative one counts from
    the end and is clipped at 0. *)
Definition adjust_start (n start : Z) : Z :=
  if (start <? 0)%Z then Z.max 0 (n + start) else start.

(** [s.find(sub, start)] *)
Definition find (s sub : str) (start : Z) : Z :=
  let i := adjust_start (len s) start in
  if (len s <? i)%Z then (-1)%Z
  else match find_nat (skipn (Z.to_nat i) s) sub with
       | Some j => (i + Z.of_nat j)%Z
       | None => (-1)%Z
       end.

(** [s.rfind(sub)] *)
Definition rfind (s sub : str) : Z :=
  match rfind_nat s sub with
  | Some j => Z.of_nat j
  | None => (-1)%Z
  end.

(** How Python reads a slice bound. *)
Definition adjust_bound (n i : Z) : Z :=
  if (i <? 0)%Z then Z.max 0 (n + i) else Z.min n i.

(** [s[a:b]] *)
Definition slice (s : str) (a b : Z) : str :=
  let a' := adjust_bound (len s) a in
  let b' := adjust_bound (len s) b in
  firstn (Z.to_nat (b' - a')) (skipn (Z.to_nat a') s).

(** [s[a:]] *)
Definition slice_from (s : str) (a : Z) : str :=
  skipn (Z.to_nat (adjust_bound (len s) a)) s.

Fixpoint lstrip (s : str) : str :=
  match s with
  | c :: s' => if isspace c then lstrip s' else s
  | [] => []
  end.

Definition rstrip (s : str) : str := rev (lstrip (rev s)).

Definition strip (s : str) : str := rstrip (lstrip s).

(** Truth value of a [str]: non-empty. *)
Definition truthy (s : str) : bool :=
  match s with [] => false | _ :: _ => true end.

(** [s.splitlines()]: a line ends at a line boundary, [\r\n] counts as
    one boundary, and a final line without boundary is kept unless it
    is empty. *)
Fixpoint splitlines (s : str) : list str :=
  match s with
  | [] => []
  | c :: s' =>
      if is_linebreak c then
        [] :: match s' with
              | d :: s'' =>
                  if (Ascii.eqb c CR && Ascii.eqb d LF)%bool
                  then splitlines s'' else splitlines s'
              | [] => []
              end
      else match splitlines s' with
           | [] => [[c]]
           | l :: ls => (c :: l) :: ls
           end
  end.

(** [sep.join(parts)] *)
Fixpoint join (sep : str) (parts : list str) : str :=
  match parts with
  | [] => []
  | [p] => p
  | p :: ps => p ++ sep ++ join sep ps
  end.

(** [s.replace(old, new)] for a non-empty [old]: the occurrences are
    taken from the left and do not overlap.  [fuel] bounds the number
    of characters still to be read. *)
Fixpoint replace_fuel (fuel : nat) (old new s : str) : str :=
  match fuel with
  | O => s
  | S fuel' =>
      if startswith s old
      then new ++ replace_fuel fuel' old new (skipn (length old) s)
      else match s with
           | [] => []
           | c :: s' => c :: replace_fuel fuel' old new s'
           end
  end.

(** [s.replace(old, new)]; with an empty [old], [new] is put before
    every character and at the end. *)
Definition replace (s old new : str) : str :=
  match old with
  | [] => new ++ flat_map (fun c => c :: new) s
  | _ :: _ => replace_fuel (length s) old new s
  end.

End Py.

(** ** The fragment of Python's [re] that the source uses

    A backtracking matcher in continuation-passing style: alternatives
    are tried in Python's priority order and the first complete match
    wins.  Quantifiers range over character classes, which is all the
    patterns of the source need. *)
Module Re.

Inductive regex : Type :=
| Lit (s : str)                      (* literal characters *)
| Bol                                (* [^] under re.MULTILINE *)
| Cat (r1 r2 : regex)                (* r1 r2 *)
| Opt (r : regex)                    (* r?, greedy *)
| Star (cls : ascii -> bool)         (* [cls]* *)
| Plus (cls : ascii -> bool)         (* [cls]+ *)
| StarLazy (cls : ascii -> bool)     (* [cls]*? *)
| PlusLazy (cls : ascii -> bool)     (* [cls]+? *)
| Group (n : nat) (r : regex).       (* capturing group number n *)

(** Captured groups, most recent first. *)
Definition groups := list (nat * str).

Fixpoint group (g : groups) (n : nat) : option str :=
  match g with
  | [] => None
  | (m, s) :: g' => if Nat.eqb m n then Some s else group g' n
  end.

(** [\w] *)
Definition is_word (c : ascii) : bool :=
  (Py.isalnum c || Ascii.eqb c "_"%char)%bool.

(** [[\s\S]] *)
Definition any (c : ascii) : bool := true.

(** Reads the literal [l] at the head of [s]; gives the character
    before the new position and the text after it. *)
Fixpoint eat (l : str) (prev : option ascii) (s : str) {struct l}
  : option (option ascii * str) :=
  match l with
  | [] => Some (prev, s)
  | x :: l' =>
      match s with
      | y :: s' => if Ascii.eqb x y then eat l' (Some y) s' else None
      | [] => None
      end
  end.

Section Matcher.
Context {A : Type}.

(** A continuation takes the character before the position reached
    and the text that remains. *)
Definition kont := option ascii -> str -> option A.

Fixpoint star_greedy (cls : ascii -> bool) (prev : option ascii)
         (s : str) (k : kont) : option A :=
  match s with
  | c :: s' =>
      if cls c then
        match star_greedy cls (Some c) s' k with
        | Some r => Some r
        | None => k prev s
        end
      else k prev s
  | [] => k prev s
  end.

Fixpoint star_lazy (cls : ascii -> bool) (prev : option ascii)
         (s : str) (k : kont) : option A :=
  match k prev s with
  | Some r => Some r
  | None =>
      match s with
      | c :: s' => if cls c then star_lazy cls (Some c) s' k else None
      | [] => None
      end
  end.

Definition one (cls : ascii -> bool) (s : str) (k : kont) : option A :=
  match s with
  | c :: s' => if cls c then k (Some c) s' else None
  | [] => None
  end.

(** [^] with re.MULTILINE: at the start of the text and right after
    a newline character. *)
Definition at_bol (prev : option ascii) : bool :=
  match prev with
  | None => true
  | Some c => Ascii.eqb c LF
  end.

Fixpoint run (r : regex) (prev : option ascii) (s : str) (g : groups)
         (k : option ascii -> str -> groups -> option A) : option A :=
  match r with
  | Lit l =>
      match eat l prev s with
      | Some (p', s') => k p' s' g
      | None => None
      end
  | Bol => if at_bol prev then k prev s g else None
  | Cat r1 r2 => run r1 prev s g (fun p' s' g' => run r2 p' s' g' k)
  | Opt r1 =>
      match run r1 prev s g k with
      | Some x => Some x
      | None => k prev s g
      end
  | Star cls => star_greedy cls prev s (fun p' s' => k p' s' g)
  | Plus cls =>
      one cls s (fun p' s' => star_greedy cls p' s' (fun p2 s2 => k p2 s2 g))
  | StarLazy cls => star_lazy cls prev s (fun p' s' => k p' s' g)
  | PlusLazy cls =>
      one cls s (fun p' s' => star_lazy cls p' s' (fun p2 s2 => k p2 s2 g))
  | Group n r1 =>
      run r1 prev s g
          (fun p' s' g' =>
             k p' s' ((n, firstn (length s - length s') s) :: g'))
  end.
End Matcher.

(** A match object: [group(0)], the captured groups, the character
    before the end of the match and the text after it. *)
Record mtch := Mtch
  { m_text : str; m_groups : groups; m_prev : option ascii; m_rest : str }.

(** A match that starts at the current position. *)
Definition match_at (r : regex) (prev : option ascii) (s : str)
  : option mtch :=
  run r prev s []
      (fun p' s' g' =>
         Some (Mtch (firstn (length s - length s') s) g' p' s')).

(** The leftmost match at or after the current position, with the
    text that is skipped before it. *)
Fixpoint search_at (r : regex) (prev : option ascii) (s : str)
  : option (str * mtch) :=
  match match_at r prev s with
  | Some m => Some ([], m)
  | None =>
      match s with
      | [] => None
      | c :: s' =>
          match search_at r (Some c) s' with
          | Some (gap, m) => Some (c :: gap, m)
          | None => None
          end
      end
  end.

(** [re.match(r, text)] *)
Definition match_ (r : regex) (text : str) : option mtch :=
  match_at r None text.

(** [re.search(r, text)] *)
Definition search (r : regex) (text : str) : option mtch :=
  option_map snd (search_at r None text).

Definition push_char (c : ascii) (x : list (str * mtch) * str)
  : list (str * mtch) * str :=
  match x with
  | ([], t) => ([], c :: t)
  | ((gap, m) :: segs, t) => ((c :: gap, m) :: segs, t)
  end.

(** The successive non-overlapping matches from the left, each with the
    text skipped before it, and the text after the last one.  After an
    empty match the scan moves on by one character. *)
Fixpoint scan_fuel (fuel : nat) (r : regex) (prev : option ascii) (s : str)
  : list (str * mtch) * str :=
  match fuel with
  | O => ([], s)
  | S fuel' =>
      match search_at r prev s with
      | None => ([], s)
      | Some (gap, m) =>
          let '(segs, t) :=
            match m_text m with
            | _ :: _ => scan_fuel fuel' r (m_prev m) (m_rest m)
            | [] =>
                match m_rest m with
                | [] => ([], [])
                | c :: s' => push_char c (scan_fuel fuel' r (Some c) s')
                end
            end in
          ((gap, m) :: segs, t)
      end
  end.

Definition scan (r : regex) (text : str) : list (str * mtch) * str :=
  scan_fuel (S (length text)) r None text.

(** [list(re.finditer(r, text))] *)
Definition finditer (r : regex) (text : str) : list mtch :=
  map snd (fst (scan r text)).

(** [re.sub(r, repl, text)] for a replacement without group
    references. *)
Definition sub (r : regex) (repl text : str) : str :=
  flat_map (fun seg => fst seg ++ repl) (fst (scan r text))
  ++ snd (scan r text).

End Re.

(** What the program prints, as far as the post-processing is concerned. *)
Inductive event : Type :=
| DeepseekSending                      (* llm.py:246 *)
| DeepseekRawResponse (body : str)     (* llm.py:250 *)
| DeepseekFailed                       (* llm.py:254 *)
| ExtractWarning                       (* llm.py:306 *)
| SkipHasDocComment (name : str)       (* app.py:114 *)
| AskGenerate (name : str)             (* app.py:120 *)
| SkipTooManyTokens (name : str)       (* app.py:128 *)
| RawOutput (text : str)               (* app.py:143-145 *)
| NotStandardWarning (name : str)      (* app.py:150 *)
| Generated (name : str).              (* app.py:157 *)

(** What the model backend answers to one request: a response body, a
    response whose status makes [raise_for_status] raise, or an
    exception of the call itself. *)
Inductive backend_reply : Type :=
| Reply (body : str)
| StatusError (body : str)
| CallRaised.

(** ** llm.py *)
Module Llm.

Import Re.

(** [r"/\*\*[\s\S]*?\*/"] *)
Definition DOC_COMMENT_RE : regex :=
  Cat (Lit (lit "/**")) (Cat (StarLazy any) (Lit (lit "*/"))).

(** [r"```(\w+)?\n?([\s\S]+?)```"] *)
Definition FENCE_RE : regex :=
  Cat (Lit (lit "```"))
      (Cat (Opt (Group 1 (Plus is_word)))
           (Cat (Opt (Lit [LF]))
                (Cat (Group 2 (PlusLazy any)) (Lit (lit "```"))))).

(** [r"(\w+)\s*(/[*]{2}[\s\S]+)"] *)
Definition LANG_COMMENT_RE : regex :=
  Cat (Group 1 (Plus is_word))
      (Cat (Star Py.isspace)
           (Group 2 (Cat (Lit (lit "/")) (Cat (Lit (lit "**")) (Plus any))))).

(** [r"^data:\s*"] with re.MULTILINE *)
Definition DATA_PREFIX_RE : regex :=
  Cat Bol (Cat (Lit (lit "data:")) (Star Py.isspace)).

(** [r"\s*"] *)
Definition SPACES_RE : regex := Star Py.isspace.

Definition JAVA : str := lit "java".
Definition H_NEWLINE : str := lit "[h_newline]".
Definition FENCE : str := lit "```".

(** [match.group(n) or "java"] *)
Definition group_or_java (g : groups) (n : nat) : str :=
  match group g n with
  | Some s => if Py.truthy s then s else JAVA
  | None => JAVA
  end.

Definition group_or_empty (g : groups) (n : nat) : str :=
  match group g n with Some s => s | None => [] end.

(** The language tag and the code picked by lines 276-289. *)
Definition select_code (text : str) : str * str :=
  match search FENCE_RE text with
  | Some m => (group_or_java (m_groups m) 1, group_or_empty (m_groups m) 2)
  | None =>
      match match_ LANG_COMMENT_RE text with
      | Some m2 =>
          (group_or_empty (m_groups m2) 1, group_or_empty (m_groups m2) 2)
      | None => (JAVA, text)
      end
  end.

(** Lines 292-296. *)
Definition clean_code (code : str) : str :=
  let code1 := Py.replace code H_NEWLINE [LF] in
  let code2 := sub DATA_PREFIX_RE [] code1 in
  Py.lstrip code2.

(** [DeepseekLLM._extract_code_block] *)
Definition _extract_code_block (text : str) : str :=
  let '(lang, code) := select_code text in
  FENCE ++ lang ++ [LF] ++ clean_code code ++ [LF] ++ FENCE.

(** One turn of the loop of lines 260-266. *)
Definition sse_line (content_lines : list str) (line : str) : list str :=
  if Py.startswith line (lit "data: ") then
    let content := Py.slice_from line (Py.len (lit "data: ")) in
    if Py.str_eqb (Py.strip content) H_NEWLINE then
      content_lines ++ [[LF]]
    else if (Py.truthy (Py.strip content)
             && negb (existsb (Py.str_eqb (Py.strip content))
                              [lit "[DONE]"; lit "[newline]"]))%bool
    then content_lines ++ [content]
    else content_lines
  else content_lines.

Definition content_lines (response_text : str) : list str :=
  fold_left sse_line (Py.splitlines response_text) [].

(** Line 267: the reassembled payload. *)
Definition merged (response_text : str) : str :=
  match content_lines response_text with
  | [] => response_text
  | _ :: _ => Py.join [] (content_lines response_text)
  end.

(** Lines 257-271: what [DeepseekLLM.run] returns for a response
    text. *)
Definition normalize (response_text : str) : str :=
  let code_block := _extract_code_block (merged response_text) in
  if Py.truthy code_block then code_block else merged response_text.

(** [DeepseekLLM.run]: the value returned and what is printed. *)
Definition DeepseekLLM_run (r : backend_reply) : str * list event :=
  match r with
  | CallRaised => ([], [DeepseekSending; DeepseekFailed])
  | StatusError body =>
      ([], [DeepseekSending; DeepseekRawResponse body; DeepseekFailed])
  | Reply body =>
      (normalize body, [DeepseekSending; DeepseekRawResponse body])
  end.

(** [LLM.generate_doc_comment]: with the Deepseek wrapper the call
    always returns; with a chain an exception of the backend leaves the
    function ([None]). *)
Definition generate_doc_comment (is_deepseek : bool) (r : backend_reply)
  : option str * list event :=
  if is_deepseek then
    let '(out, ev) := DeepseekLLM_run r in (Some out, ev)
  else
    match r with
    | Reply text => (Some text, [])
    | _ => (None, [])
    end.

(** [extract_doc_comment]: the value returned and what is printed. *)
Definition extract_doc_comment (text : str) : str * list event :=
  let matches := finditer DOC_COMMENT_RE text in
  match rev matches with
  | m :: _ => (m_text m, [])
  | [] =>
      let start := Py.rfind text (lit "/**") in
      let end_ := Py.find text (lit "*/") start in
      if (negb (start =? -1) && negb (end_ =? -1))%bool%Z
      then (Py.slice text start (end_ + 2), [ExtractWarning])
      else (text, [ExtractWarning])
  end.

(** The [for ... else] of lines 318-323. *)
Fixpoint method_indent (lines : list str) : str :=
  match lines with
  | [] => []
  | line :: rest =>
      if Py.truthy (Py.strip line) then
        match match_ SPACES_RE line with
        | Some m => m_text m
        | None => []
        end
      else method_indent rest
  end.

Definition indent_line (indent line : str) : str :=
  if Py.truthy (Py.strip line) then indent ++ line else line.

(** [insert_doc_comment] *)
Definition insert_doc_comment (method_code doc_comment : str) : str :=
  let indent := method_indent (Py.splitlines method_code) in
  let doc_comment_indented :=
    Py.join [LF] (map (indent_line indent) (Py.splitlines doc_comment)) in
  doc_comment_indented ++ [LF] ++ method_code.

End Llm.

(** ** app.py *)
Module App.

(** The fields of [TreesitterMethodNode] that [run] reads. *)
Record TreesitterMethodNode := MkNode
  { name : str; doc_comment : option str; method_source_code : str }.

(** The command-line options that [run] reads. *)
Record Args := MkArgs
  { inline : bool; gpt4 : bool; gpt3_5_16k : bool; guided : bool;
    azure_deployment : bool; ollama_model : bool; sustech_deepseek : bool }.

(** What lies outside the program: the token counter of [utils], what
    the user types at the prompt for the i-th method and what the model
    backend answers for it. *)
Record World := MkWorld
  { count_tokens : str -> nat;
    user_input : nat -> str;
    backend : nat -> backend_reply }.

(** Lines 80-94: the Deepseek wrapper is chosen only when no earlier
    branch applies. *)
Definition is_deepseek (a : Args) : bool :=
  (negb (azure_deployment a) && negb (gpt4 a) && negb (gpt3_5_16k a)
   && negb (ollama_model a) && sustech_deepseek a)%bool.

(** [generated_doc_comments]: a Python dict with [str] keys, in
    insertion order. *)
Definition dict := list (str * str).

(** [d[k] = v]: a key already present keeps its place. *)
Fixpoint dict_set (d : dict) (k v : str) : dict :=
  match d with
  | [] => [(k, v)]
  | (k', v') :: d' =>
      if Py.str_eqb k' k then (k', v) :: d'
      else (k', v') :: dict_set d' k v
  end.

Fixpoint dict_get (d : dict) (k : str) : option str :=
  match d with
  | [] => None
  | (k', v') :: d' => if Py.str_eqb k' k then Some v' else dict_get d' k
  end.

Definition opt_truthy (o : option str) : bool :=
  match o with Some s => Py.truthy s | None => false end.

(** The result of one turn of the loop of lines 110-157. *)
Inductive turn : Type :=
| Skipped                          (* [continue] *)
| Recorded (key value : str)       (* line 154 reached *)
| Aborted.                         (* an exception leaves [run] *)

(** Lines 111-157 for the i-th node. *)
Definition process_node (a : Args) (w : World) (i : nat)
           (node : TreesitterMethodNode) : turn * list event :=
  if opt_truthy (doc_comment node) then
    (Skipped, [SkipHasDocComment (name node)])
  else if (guided a
           && negb (Py.str_eqb (Py.lower (user_input w i)) (lit "y")))%bool
  then (Skipped, [AskGenerate (name node)])
  else
    let ask := if guided a then [AskGenerate (name node)] else [] in
    let method_source_code := method_source_code node in
    let tokens := count_tokens w method_source_code in
    if ((2048 <? tokens) && negb (gpt4 a || gpt3_5_16k a))%bool then
      (Skipped, ask ++ [SkipTooManyTokens (name node)])
    else
      match Llm.generate_doc_comment (is_deepseek a) (backend w i) with
      | (None, ev) => (Aborted, ask ++ ev)
      | (Some documented_method_source_code, ev) =>
          let '(doc_comment, ev2) :=
            Llm.extract_doc_comment documented_method_source_code in
          let warn :=
            if Py.startswith (Py.strip doc_comment) (lit "/**") then []
            else [NotStandardWarning (name node)] in
          let merged_code :=
            Llm.insert_doc_comment method_source_code doc_comment in
          (Recorded method_source_code merged_code,
           ask ++ ev ++ [RawOutput documented_method_source_code]
               ++ ev2 ++ warn ++ [Generated (name node)])
      end.

(** The loop of lines 110-157 from the i-th node on: the final
    [generated_doc_comments], or [None] when an exception left [run],
    and what was printed. *)
Fixpoint method_loop (a : Args) (w : World) (i : nat)
         (nodes : list TreesitterMethodNode) (d : dict)
  : option dict * list event :=
  match nodes with
  | [] => (Some d, [])
  | node :: rest =>
      match process_node a w i node with
      | (Skipped, ev) =>
          let '(r, ev') := method_loop a w (S i) rest d in (r, ev ++ ev')
      | (Recorded k v, ev) =>
          let '(r, ev') := method_loop a w (S i) rest (dict_set d k v) in
          (r, ev ++ ev')
      | (Aborted, ev) => (None, ev)
      end
  end.

End App.

(** ** Notions used to state the properties *)

(** The character before the position reached by reading [l]. *)
Definition after (l : str) (prev : option ascii) : option ascii :=
  fold_left (fun _ c => Some c) l prev.

Module Spec.

(** *** Occurrences and character classes *)

(** [sub] occurs somewhere in [s]. *)
Definition contains (s sub : str) : Prop :=
  exists pre post, s = pre ++ sub ++ post.

(** The first occurrence of [sub] in [text] comes right after [pre]. *)
Definition first_at (text sub pre : str) : Prop :=
  (exists tail, text = pre ++ sub ++ tail)
  /\ forall pre' post', text = pre' ++ sub ++ post' ->
                        length pre <= length pre'.

(** The last occurrence of [sub] in [text] comes right after [pre]. *)
Definition last_at (text sub pre : str) : Prop :=
  (exists tail, text = pre ++ sub ++ tail)
  /\ forall pre' post', text = pre' ++ sub ++ post' ->
                        length pre' <= length pre.

(** Every character of [w] is in the class [cls]. *)
Definition all_in (cls : ascii -> bool) (w : str) : Prop :=
  Forall (fun c => cls c = true) w.

(** The first character of [s], if any, is not in the class [cls]. *)
Definition head_not (cls : ascii -> bool) (s : str) : Prop :=
  match s with [] => True | c :: _ => cls c = false end.

(** A blank line: nothing but whitespace. *)
Definition blank (line : str) : Prop := all_in Py.isspace line.

(** [Replaced old new s r]: [r] is [s] with the occurrences of [old],
    read from the left without overlap, replaced by [new].  The text
    [gap] before each replaced occurrence is kept and holds no occurrence
    of [old], nor does the text after the last one. *)
Inductive Replaced (old new : str) : str -> str -> Prop :=
| Replaced_done s :
    ~ contains s old -> Replaced old new s s
| Replaced_next gap rest rest' :
    first_at (gap ++ old ++ rest) old gap ->
    Replaced old new rest rest' ->
    Replaced old new (gap ++ old ++ rest) (gap ++ new ++ rest').

(** The texts that a pattern can match, whatever the order in which the
    matcher tries them. *)
Fixpoint Lang (r : Re.regex) (w : str) : Prop :=
  match r with
  | Re.Lit l => w = l
  | Re.Bol => w = []
  | Re.Cat r1 r2 => exists w1 w2, w = w1 ++ w2 /\ Lang r1 w1 /\ Lang r2 w2
  | Re.Opt r1 => w = [] \/ Lang r1 w
  | Re.Star cls | Re.StarLazy cls => all_in cls w
  | Re.Plus cls | Re.PlusLazy cls => w <> [] /\ all_in cls w
  | Re.Group _ r1 => Lang r1 w
  end.

(** *** Doc comment blocks *)

Definition START : str := lit "/**".
Definition END_ : str := lit "*/".

(** A complete delimited block lies somewhere in the text: a start
    marker and, after it, an end marker. *)
Definition HasBlock (text : str) : Prop :=
  exists pre body post, text = pre ++ START ++ body ++ END_ ++ post.

(** [Blocks text bs]: [bs] are the non-overlapping delimited blocks of
    [text], read from the left.  Each block starts at the first start
    marker of the text that is left (the text [gap] skipped before it
    holds none) and runs to the nearest end marker after that start
    marker (the text [body] between them holds none). *)
Inductive Blocks : str -> list str -> Prop :=
| Blocks_none text :
    ~ HasBlock text -> Blocks text []
| Blocks_next gap body rest bs :
    ~ contains gap START ->
    ~ contains body END_ ->
    Blocks rest bs ->
    Blocks (gap ++ START ++ body ++ END_ ++ rest)
           ((START ++ body ++ END_) :: bs).

(** *** Indentation *)

(** [indent] is the leading run of whitespace of [line]. *)
Definition leading_whitespace (line indent : str) : Prop :=
  exists rest,
    line = indent ++ rest /\ blank indent /\ head_not Py.isspace rest.

(** [IndentOf lines indent]: [indent] is the leading whitespace of the
    first line that is not blank, and empty when every line is blank. *)
Inductive IndentOf : list str -> str -> Prop :=
| IndentOf_nil : IndentOf [] []
| IndentOf_blank line rest indent :
    blank line -> IndentOf rest indent -> IndentOf (line :: rest) indent
| IndentOf_first line rest indent :
    ~ blank line -> leading_whitespace line indent ->
    IndentOf (line :: rest) indent.

(** A line of the doc comment and the same line in the merged text. *)
Inductive Reindented (indent : str) : str -> str -> Prop :=
| Reindented_blank line : blank line -> Reindented indent line line
| Reindented_text line :
    ~ blank line -> Reindented indent line (indent ++ line).

(** *** Reassembly of a streamed response *)

Definition DATA : str := lit "data: ".
Definition DONE : str := lit "[DONE]".
Definition NEWLINE : str := lit "[newline]".

(** What the payload of one fragment adds to [content_lines]. *)
Inductive Contribution : str -> list str -> Prop :=
| Contribution_newline payload :
    Py.strip payload = Llm.H_NEWLINE -> Contribution payload [[LF]]
| Contribution_blank payload :
    blank payload -> Contribution payload []
| Contribution_control payload :
    Py.strip payload = DONE \/ Py.strip payload = NEWLINE ->
    Contribution payload []
| Contribution_content payload :
    ~ blank payload ->
    Py.strip payload <> Llm.H_NEWLINE ->
    Py.strip payload <> DONE -> Py.strip payload <> NEWLINE ->
    Contribution payload [payload].

(** What one line of the response adds: a line without the prefix adds
    nothing, a fragment line adds what its payload adds. *)
Inductive LineContribution : str -> list str -> Prop :=
| LineContribution_other line :
    Py.startswith line DATA = false -> LineContribution line []
| LineContribution_data payload c :
    Contribution payload c -> LineContribution (DATA ++ payload) c.

(** A response made of the fragments with the given payloads, one per
    line. *)
Definition framed (payloads : list str) : str :=
  Py.join [LF] (map (fun p => DATA ++ p) payloads).

Definition no_linebreak (s : str) : Prop :=
  all_in (fun c => negb (Py.is_linebreak c)) s.

(** The reassembly as claim C6 words it: the payloads in order, the
    newline marker turned into a newline, the two control payloads
    dropped, every other payload kept. *)
Definition claimed_payload (payload : str) : str :=
  if Py.str_eqb payload Llm.H_NEWLINE then [LF]
  else if (Py.str_eqb payload DONE || Py.str_eqb payload NEWLINE)%bool
       then []
       else payload.

Definition claimed_merged (payloads : list str) : str :=
  concat (map claimed_payload payloads).

(** *** The code block *)

(** The text returned by [_extract_code_block]: a fence with its tag on
    the first line, the code, and a closing fence on a line of its own. *)
Definition fenced (lang code : str) : str :=
  Llm.FENCE ++ lang ++ [LF] ++ code ++ [LF] ++ Llm.FENCE.

(** The text holds two fence markers with something between them. *)
Definition HasFence (text : str) : Prop :=
  exists pre mid post,
    mid <> [] /\ text = pre ++ Llm.FENCE ++ mid ++ Llm.FENCE ++ post.

(** [Fenced text tag inner]: the first fence marker of [text] opens a
    block with language tag [tag] (maybe empty) and inner text [inner]:
    after the marker come the word characters of the tag, all of them,
    then a newline if there is one, then the inner text, which is not
    empty and runs to the first fence marker that follows its first
    character. *)
Definition Fenced (text tag inner : str) : Prop :=
  exists pre nl c inner' post,
    text = pre ++ Llm.FENCE ++ tag ++ nl ++ inner ++ Llm.FENCE ++ post
    /\ inner = c :: inner'
    /\ first_at text Llm.FENCE pre
    /\ all_in Re.is_word tag
    /\ head_not Re.is_word (nl ++ inner)
    /\ (nl = [LF] \/ (nl = [] /\ c <> LF))
    /\ first_at (inner' ++ Llm.FENCE ++ post) Llm.FENCE inner'.

(** [LangComment text name rest]: [text] starts with the language name
    [name], then whitespace (maybe none), then a start marker followed by
    the non-empty text [rest]. *)
Definition LangComment (text name rest : str) : Prop :=
  exists ws,
    text = name ++ ws ++ START ++ rest
    /\ name <> [] /\ all_in Re.is_word name /\ blank ws /\ rest <> [].

Definition DATA_COLON : str := lit "data:".

(** [Unframed prev s r]: [r] is [s] without its framing prefixes, [prev]
    being the character before [s].  At the start of a line (the start of
    the text or right after a newline character) the prefix [data:] goes
    away together with all the whitespace that follows it; every other
    character stays. *)
Inductive Unframed : option ascii -> str -> str -> Prop :=
| Unframed_nil prev : Unframed prev [] []
| Unframed_prefix prev ws rest r :
    Re.at_bol prev = true ->
    blank ws -> head_not Py.isspace rest ->
    Unframed (after (DATA_COLON ++ ws) prev) rest r ->
    Unframed prev (DATA_COLON ++ ws ++ rest) r
| Unframed_char prev c s r :
    Re.at_bol prev = false \/ Py.startswith (c :: s) DATA_COLON = false ->
    Unframed (Some c) s r ->
    Unframed prev (c :: s) (c :: r).

(** [Cleaned code r]: [r] is [code] after the three steps of lines
    292-296: the newline markers become newlines, then the framing
    prefixes go away, then the leading whitespace goes away. *)
Definition Cleaned (code r : str) : Prop :=
  exists c1 c2 ws,
    Replaced Llm.H_NEWLINE [LF] code c1
    /\ Unframed None c1 c2
    /\ c2 = ws ++ r /\ blank ws /\ head_not Py.isspace r.

(** *** The method loop *)

(** The i-th node gets as far as the model call: it has no doc comment,
    the user did not decline it and it is not too long. *)
Definition sent_to_model (a : App.Args) (w : App.World) (i : nat)
           (node : App.TreesitterMethodNode) : bool :=
  (negb (App.opt_truthy (App.doc_comment node))
   && negb (App.guided a
            && negb (Py.str_eqb (Py.lower (App.user_input w i)) (lit "y")))
   && negb ((2048 <? App.count_tokens w (App.method_source_code node))
            && negb (App.gpt4 a || App.gpt3_5_16k a)))%bool.

(** The backend call fails. *)
Definition failure (r : backend_reply) : Prop :=
  r = CallRaised \/ exists body, r = StatusError body.

(** The turns of the loop for the nodes from the i-th on, one by one. *)
Fixpoint turns (a : App.Args) (w : App.World) (i : nat)
         (nodes : list App.TreesitterMethodNode)
  : list (App.turn * list event) :=
  match nodes with
  | [] => []
  | node :: rest => App.process_node a w i node :: turns a w (S i) rest
  end.

(** What a turn does to [generated_doc_comments]. *)
Definition apply_turn (d : App.dict) (t : App.turn * list event) : App.dict :=
  match fst t with
  | App.Recorded k v => App.dict_set d k v
  | _ => d
  end.

(** The value recorded for key [k] by the last turn that recorded it. *)
Fixpoint last_recorded (k : str) (ts : list (App.turn * list event))
  : option str :=
  match ts with
  | [] => None
  | t :: ts' =>
      match last_recorded k ts' with
      | Some v => Some v
      | None =>
          match fst t with
          | App.Recorded k' v => if Py.str_eqb k' k then Some v else None
          | _ => None
          end
      end
  end.

(** [d] holds exactly one entry with key [k], and its value is [v]. *)
Definition one_entry (d : App.dict) (k v : str) : Prop :=
  exists d1 d2, d = d1 ++ (k, v) :: d2
                /\ ~ In k (map fst d1) /\ ~ In k (map fst d2).

End Spec.

(** ** Concrete inputs used to exercise the statements *)
Module Examples.

Definition plain_args : App.Args :=
  App.MkArgs false false false false false false false.

Definition deepseek_args : App.Args :=
  App.MkArgs false false false false false false true.

Definition world (r : nat -> backend_reply) : App.World :=
  App.MkWorld (fun s => length s) (fun _ => []) r.

Definition method_f : App.TreesitterMethodNode :=
  App.MkNode (lit "f") None (lit "void f() {}").

Definition method_g : App.TreesitterMethodNode :=
  App.MkNode (lit "g") None (lit "void g() {}").

End Examples.

Definition SPACE : ascii := " "%char.

(** ** fix_comment.py *)
Module FixComment.

(** [re.sub(r, repl, text)] for a replacement function [repl]. *)
Definition sub_with (r : Re.regex) (repl : Re.mtch -> str) (text : str)
  : str :=
  flat_map (fun seg => fst seg ++ repl (snd seg)) (fst (Re.scan r text))
  ++ snd (Re.scan r text).

(** The inner function [replacer] of lines 6-13. *)
Definition replacer (m : Re.mtch) : str :=
  let comment := Re.m_text m in
  let idx := Py.rfind comment (lit "/**") in
  if (0 <? idx)%Z then
    let new_content := Py.strip (Py.slice comment (idx + 3) (-2)) in
    lit "/** " ++ new_content ++ lit " */"
  else comment.

(** [fix_broken_doc_comments] *)
Definition fix_broken_doc_comments (java_code : str) : str :=
  sub_with Llm.DOC_COMMENT_RE replacer java_code.

(** What [replacer] returns for a match whose text is [comment]. *)
Definition fix_block (comment : str) : str :=
  replacer (Re.Mtch comment [] None []).

(** The comment has one start marker only, the one it begins with. *)
Definition single_start (comment : str) : Prop :=
  Spec.last_at comment Spec.START [].

End FixComment.

(** ** Further notions *)
Module Props.

(** [captures r n w]: the pattern [r] has a group number [n] whose own
    pattern can match [w]. *)
Fixpoint captures (r : Re.regex) (n : nat) (w : str) : Prop :=
  match r with
  | Re.Cat r1 r2 => captures r1 n w \/ captures r2 n w
  | Re.Opt r1 => captures r1 n w
  | Re.Group m r1 => (m = n /\ Spec.Lang r1 w) \/ captures r1 n w
  | _ => False
  end.

(** A language tag as the fence header shows it: word characters, at
    least one. *)
Definition is_tag (lang : str) : Prop :=
  lang <> [] /\ Spec.all_in Re.is_word lang.

(** The only line boundaries of the text are newline characters. *)
Definition only_lf (d : str) : Prop :=
  forall c, In c d -> Py.is_linebreak c = true -> c = LF.

(** A text whose only line boundaries are newline characters and that
    does not end with one. *)
Definition lf_text (d : str) : Prop :=
  only_lf d /\ forall pre, d <> pre ++ [LF].

End Props.

(** ** llm.py: the installer of the local model interface *)
Module LlamaInstall.

Definition FORCE_CMAKE : str := lit "FORCE_CMAKE".
Definition CMAKE_ARGS : str := lit "CMAKE_ARGS".

(** Lines 141-152 of [install_llama]: the variables set for the
    backend. *)
Definition env_vars (backend : str) : App.dict :=
  let env_vars := [(FORCE_CMAKE, lit "1")] in
  if Py.str_eqb backend (lit "cuBLAS") then
    App.dict_set env_vars CMAKE_ARGS (lit "-DLLAMA_CUBLAS=on")
  else if Py.str_eqb backend (lit "hipBLAS") then
    App.dict_set env_vars CMAKE_ARGS (lit "-DLLAMA_HIPBLAS=on")
  else if Py.str_eqb backend (lit "Metal") then
    App.dict_set env_vars CMAKE_ARGS (lit "-DLLAMA_METAL=on")
  else
    App.dict_set env_vars CMAKE_ARGS
                 (lit "-DLLAMA_BLAS=ON -DLLAMA_BLAS_VENDOR=OpenBLAS").

(** [{**a, **b}] *)
Definition dict_merge (a b : App.dict) : App.dict :=
  fold_left (fun d e => App.dict_set d (fst e) (snd e)) b a.

(** Line 163: the environment given to [pip]. *)
Definition pip_env (environ : App.dict) (backend : str) : App.dict :=
  dict_merge environ (env_vars backend).

(** The value of [CMAKE_ARGS] for each backend name. *)
Definition cmake_args (backend : str) : str :=
  if Py.str_eqb backend (lit "cuBLAS") then lit "-DLLAMA_CUBLAS=on"
  else if Py.str_eqb backend (lit "hipBLAS") then lit "-DLLAMA_HIPBLAS=on"
  else if Py.str_eqb backend (lit "Metal") then lit "-DLLAMA_METAL=on"
  else lit "-DLLAMA_BLAS=ON -DLLAMA_BLAS_VENDOR=OpenBLAS".

End LlamaInstall.
(* ================================================================== *)
(** * Part II: properties                                              *)
(* ================================================================== *)

(** ** Characters and prefixes *)

Lemma ascii_eqb_true_iff (a b : ascii) : Ascii.eqb a b = true <-> a = b.
Proof. apply Ascii.eqb_eq. Qed.

Lemma ascii_eqb_false_iff (a b : ascii) : Ascii.eqb a b = false <-> a <> b.
Proof. apply Ascii.eqb_neq. Qed.

Lemma str_eqb_eq (a b : str) : Py.str_eqb a b = true <-> a = b.
Proof.
  revert b; induction a as [|x a IH]; intros [|y b]; simpl;
    try (split; [discriminate | discriminate]); try tauto.
  rewrite andb_true_iff, ascii_eqb_true_iff, IH.
  split; [intros [-> ->]; reflexivity | intros E; inversion E; auto].
Qed.

Lemma str_eqb_refl (a : str) : Py.str_eqb a a = true.
Proof. apply str_eqb_eq; reflexivity. Qed.

Lemma str_eqb_neq (a b : str) : Py.str_eqb a b = false <-> a <> b.
Proof.
  destruct (Py.str_eqb a b) eqn:E.
  - apply str_eqb_eq in E. split; [discriminate | tauto].
  - split; [intros _ H | reflexivity].
    apply str_eqb_eq in H. congruence.
Qed.

Lemma startswith_iff (s p : str) :
  Py.startswith s p = true <-> exists t, s = p ++ t.
Proof.
  revert s; induction p as [|x p IH]; intros s; simpl.
  - split; [eauto | reflexivity].
  - destruct s as [|y s].
    + split; [discriminate | intros [t H]; discriminate].
    + rewrite andb_true_iff, ascii_eqb_true_iff, IH. split.
      * intros [-> [t ->]]. eauto.
      * intros [t H]. inversion H; subst. eauto.
Qed.

Lemma startswith_app (p t : str) : Py.startswith (p ++ t) p = true.
Proof. apply startswith_iff; eauto. Qed.

Lemma startswith_false (s p : str) :
  Py.startswith s p = false <-> ~ exists t, s = p ++ t.
Proof.
  rewrite <- startswith_iff. destruct (Py.startswith s p); split;
    congruence || tauto.
Qed.

(** ** Occurrences *)

Lemma contains_cons (c : ascii) (s sub : str) :
  Spec.contains (c :: s) sub <->
  (exists t, c :: s = sub ++ t) \/ Spec.contains s sub.
Proof.
  split.
  - intros [[|d pre] [post H]].
    + left; eauto.
    + right. inversion H; subst. exists pre, post; reflexivity.
  - intros [[t H] | [pre [post H]]].
    + exists [], t; exact H.
    + exists (c :: pre), post. simpl. now f_equal.
Qed.

Lemma find_nat_some (s sub : str) (i : nat) :
  Py.find_nat s sub = Some i ->
  exists post, s = firstn i s ++ sub ++ post /\ i <= length s
               /\ skipn i s = sub ++ post.
Proof.
  revert i; induction s as [|c s IH]; intros i; simpl.
  - destruct (Py.startswith [] sub) eqn:E; [|discriminate].
    intros [= <-]. apply startswith_iff in E. destruct E as [t E].
    exists t. simpl. auto.
  - destruct (Py.startswith (c :: s) sub) eqn:E.
    + intros [= <-]. apply startswith_iff in E. destruct E as [t E].
      exists t. simpl. repeat split; auto. lia.
    + destruct (Py.find_nat s sub) as [j|]; [|discriminate].
      simpl. intros [= <-]. destruct (IH j eq_refl) as [post [H1 [H2 H3]]].
      exists post. simpl. repeat split; [now f_equal | lia | exact H3].
Qed.

Lemma find_nat_none (s sub : str) :
  Py.find_nat s sub = None <-> ~ Spec.contains s sub.
Proof.
  induction s as [|c s IH]; simpl.
  - destruct (Py.startswith [] sub) eqn:E.
    + split; [discriminate | intros H; exfalso; apply H].
      apply startswith_iff in E. destruct E as [t E]. exists [], t; exact E.
    + split; [intros _ [pre [post H]] | reflexivity].
      apply startswith_false in E. apply E.
      destruct pre; [eauto | discriminate].
  - destruct (Py.startswith (c :: s) sub) eqn:E.
    + split; [discriminate | intros H; exfalso; apply H].
      apply contains_cons. left. now apply startswith_iff.
    + rewrite contains_cons. apply startswith_false in E.
      destruct (Py.find_nat s sub) as [j|] eqn:F; simpl.
      * split; [discriminate | intros H; exfalso; apply H].
        right. destruct (find_nat_some _ _ _ F) as [post [H1 _]].
        exists (firstn j s), post; exact H1.
      * split; [intros _ [H | H]; [tauto | now apply IH] | reflexivity].
Qed.

(** Before the first occurrence there is none. *)
Lemma find_nat_first (s sub : str) (i : nat) :
  Py.find_nat s sub = Some i ->
  forall pre post, s = pre ++ sub ++ post -> i <= length pre.
Proof.
  revert i; induction s as [|c s IH]; intros i; simpl.
  - destruct (Py.startswith [] sub); [|discriminate].
    intros [= <-]; intros; lia.
  - destruct (Py.startswith (c :: s) sub) eqn:E.
    + intros [= <-]; intros; lia.
    + destruct (Py.find_nat s sub) as [j|] eqn:F; [|discriminate].
      simpl. intros [= <-] pre post H.
      destruct pre as [|d pre].
      * apply startswith_false in E. exfalso; apply E; eauto.
      * inversion H; subst. simpl. specialize (IH j eq_refl pre post eq_refl).
        lia.
Qed.

(** ** The matcher *)

Lemma eat_some (l : str) (prev : option ascii) (s : str) p' s' :
  Re.eat l prev s = Some (p', s') <-> s = l ++ s' /\ p' = after l prev.
Proof.
  revert prev s; induction l as [|x l IH]; intros prev s; simpl.
  - unfold after; simpl. split.
    + intros [= -> ->]; auto.
    + intros [-> ->]; reflexivity.
  - destruct s as [|y s].
    + split; [discriminate | intros [H _]; discriminate].
    + destruct (Ascii.eqb x y) eqn:E.
      * apply ascii_eqb_true_iff in E; subst y. rewrite IH.
        unfold after; simpl. split.
        -- intros [-> ->]; auto.
        -- intros [H ->]. inversion H; subst. auto.
      * apply ascii_eqb_false_iff in E. split; [discriminate|].
        intros [H _]. inversion H; congruence.
Qed.

Lemma eat_app (l : str) (prev : option ascii) (t : str) :
  Re.eat l prev (l ++ t) = Some (after l prev, t).
Proof. apply eat_some; auto. Qed.

Lemma eat_none (l : str) (prev : option ascii) (s : str) :
  Re.eat l prev s = None <-> Py.startswith s l = false.
Proof.
  rewrite startswith_false. split.
  - intros H [t ->]. rewrite eat_app in H. discriminate.
  - intros H. destruct (Re.eat l prev s) as [[p' s']|] eqn:E; [|reflexivity].
    apply eat_some in E. destruct E as [-> _]. exfalso; eauto.
Qed.

Lemma after_cons (x : ascii) (l : str) (p q : option ascii) :
  after (x :: l) p = after (x :: l) q.
Proof. reflexivity. Qed.

(** A lazy run over any characters that is followed by a literal stops
    at the first occurrence of the literal. *)
Lemma star_lazy_any_lit {A : Type} (x : ascii) (l : str)
      (f : option ascii -> str -> A) (s : str) (p : option ascii) :
  Re.star_lazy Re.any p s
    (fun p2 s2 => match Re.eat (x :: l) p2 s2 with
                  | Some (p3, s3) => Some (f p3 s3)
                  | None => None
                  end)
  = match Py.find_nat s (x :: l) with
    | Some j => Some (f (after (x :: l) None) (skipn (j + length (x :: l)) s))
    | None => None
    end.
Proof.
  revert p; induction s as [|c s IH]; intros p.
  - reflexivity.
  - cbn [Re.star_lazy Py.find_nat].
    destruct (Py.startswith (c :: s) (x :: l)) eqn:E.
    + apply startswith_iff in E. destruct E as [t E]. rewrite E.
      rewrite eat_app. cbn [Nat.add]. f_equal. f_equal.
      rewrite skipn_app, skipn_all, Nat.sub_diag. reflexivity.
    + apply (eat_none _ p) in E. rewrite E.
      unfold Re.any at 1. rewrite IH.
      destruct (Py.find_nat s (x :: l)); reflexivity.
Qed.

(** *** The pattern of doc comments *)

Lemma match_at_doc (prev : option ascii) (s : str) :
  Re.match_at Llm.DOC_COMMENT_RE prev s =
  match Re.eat Spec.START prev s with
  | Some (_, s1) =>
      match Py.find_nat s1 Spec.END_ with
      | Some j =>
          Some (Re.Mtch
                  (firstn (length s - length (skipn (j + 2) s1)) s)
                  [] (Some SLASH) (skipn (j + 2) s1))
      | None => None
      end
  | None => None
  end.
Proof.
  unfold Re.match_at, Llm.DOC_COMMENT_RE. cbn [Re.run].
  fold Spec.START.
  destruct (Re.eat Spec.START prev s) as [[p1 s1]|]; [|reflexivity].
  exact (star_lazy_any_lit "*"%char [SLASH]
           (fun p3 s3 => Re.Mtch (firstn (length s - length s3) s) [] p3 s3)
           s1 p1).
Qed.

(** The markers do not overlap themselves: an occurrence that begins
    inside [gap] lies inside [gap]. *)
Lemma start_first (gap t : str) :
  ~ Spec.contains gap Spec.START ->
  forall pre post, gap ++ Spec.START ++ t = pre ++ Spec.START ++ post ->
                   length gap <= length pre.
Proof.
  intros H pre. revert gap H; induction pre as [|c pre IH]; intros gap H post E.
  - destruct gap as [|a [|b [|d gap]]]; simpl; try lia;
      try (inversion E; discriminate).
    exfalso. apply H. inversion E; subst. exists [], gap. reflexivity.
  - destruct gap as [|a gap]; simpl; [lia|].
    inversion E; subst. apply le_n_S. apply (IH gap) with (post := post); auto.
    intros C. apply H. apply contains_cons. now right.
Qed.

Lemma end_first (body t : str) :
  ~ Spec.contains body Spec.END_ ->
  forall pre post, body ++ Spec.END_ ++ t = pre ++ Spec.END_ ++ post ->
                   length body <= length pre.
Proof.
  intros H pre. revert body H; induction pre as [|c pre IH]; intros body H post E.
  - destruct body as [|a [|b body]]; simpl; try lia;
      try (inversion E; discriminate).
    exfalso. apply H. inversion E; subst. exists [], body. reflexivity.
  - destruct body as [|a body]; simpl; [lia|].
    inversion E; subst. apply le_n_S. apply (IH body) with (post := post); auto.
    intros C. apply H. apply contains_cons. now right.
Qed.

Lemma find_nat_here (body sub t : str) :
  (forall pre post, body ++ sub ++ t = pre ++ sub ++ post ->
                    length body <= length pre) ->
  Py.find_nat (body ++ sub ++ t) sub = Some (length body).
Proof.
  intros H. destruct (Py.find_nat (body ++ sub ++ t) sub) as [i|] eqn:F.
  - f_equal. apply Nat.le_antisymm.
    + apply (find_nat_first _ _ _ F body t eq_refl).
    + destruct (find_nat_some _ _ _ F) as [post [E [Hi _]]].
      specialize (H _ _ E). rewrite length_firstn in H. lia.
  - apply find_nat_none in F. exfalso; apply F. exists body, t; reflexivity.
Qed.

Lemma match_at_doc_block (prev : option ascii) (body rest : str) :
  ~ Spec.contains body Spec.END_ ->
  Re.match_at Llm.DOC_COMMENT_RE prev
              (Spec.START ++ body ++ Spec.END_ ++ rest)
  = Some (Re.Mtch (Spec.START ++ body ++ Spec.END_) [] (Some SLASH) rest).
Proof.
  intros H. rewrite match_at_doc, eat_app.
  rewrite (find_nat_here body Spec.END_ rest (end_first body rest H)).
  assert (E : skipn (length body + 2) (body ++ Spec.END_ ++ rest) = rest).
  { rewrite skipn_app, skipn_all2 by lia.
    replace (length body + 2 - length body) with 2 by lia. reflexivity. }
  rewrite E. f_equal. f_equal.
  replace (length (Spec.START ++ body ++ Spec.END_ ++ rest) - length rest)
    with (length (Spec.START ++ body ++ Spec.END_))
    by (rewrite !length_app; lia).
  replace (Spec.START ++ body ++ Spec.END_ ++ rest)
    with ((Spec.START ++ body ++ Spec.END_) ++ rest)
    by (rewrite <- !app_assoc; reflexivity).
  rewrite firstn_app, firstn_all, Nat.sub_diag, firstn_0. apply app_nil_r.
Qed.

Lemma match_at_doc_none (prev : option ascii) (s : str) :
  ~ Spec.HasBlock s -> Re.match_at Llm.DOC_COMMENT_RE prev s = None.
Proof.
  intros H. rewrite match_at_doc.
  destruct (Re.eat Spec.START prev s) as [[p1 s1]|] eqn:E; [|reflexivity].
  apply eat_some in E. destruct E as [-> _].
  destruct (Py.find_nat s1 Spec.END_) as [j|] eqn:F; [|reflexivity].
  exfalso. apply H. destruct (find_nat_some _ _ _ F) as [post [E _]].
  exists [], (firstn j s1), post. simpl. rewrite E at 1. reflexivity.
Qed.

Lemma has_block_tail (c : ascii) (s : str) :
  ~ Spec.HasBlock (c :: s) -> ~ Spec.HasBlock s.
Proof.
  intros H [pre [body [post E]]]. apply H.
  exists (c :: pre), body, post. simpl. now f_equal.
Qed.

Lemma search_at_doc_none (prev : option ascii) (s : str) :
  ~ Spec.HasBlock s -> Re.search_at Llm.DOC_COMMENT_RE prev s = None.
Proof.
  revert prev; induction s as [|c s IH]; intros prev H; cbn [Re.search_at];
    rewrite (match_at_doc_none _ _ H); [reflexivity|].
  rewrite IH; [reflexivity | eapply has_block_tail; eauto].
Qed.

Lemma search_at_doc_block (prev : option ascii) (gap body rest : str) :
  ~ Spec.contains gap Spec.START ->
  ~ Spec.contains body Spec.END_ ->
  Re.search_at Llm.DOC_COMMENT_RE prev
               (gap ++ Spec.START ++ body ++ Spec.END_ ++ rest)
  = Some (gap, Re.Mtch (Spec.START ++ body ++ Spec.END_) [] (Some SLASH) rest).
Proof.
  intros Hg Hb. revert prev; induction gap as [|c gap IH]; intros prev.
  - cbn [app]. destruct (Spec.START ++ body ++ Spec.END_ ++ rest) eqn:E;
      [discriminate|]. cbn [Re.search_at]. rewrite <- E.
    rewrite match_at_doc_block by assumption. reflexivity.
  - cbn [app Re.search_at].
    assert (N : Re.match_at Llm.DOC_COMMENT_RE prev
                  (c :: gap ++ Spec.START ++ body ++ Spec.END_ ++ rest) = None).
    { rewrite match_at_doc.
      destruct (Re.eat Spec.START prev _) as [[p1 s1]|] eqn:E; [|reflexivity].
      apply eat_some in E. destruct E as [E _].
      pose proof (start_first (c :: gap) _ Hg [] s1 E) as L. simpl in L. lia. }
    rewrite N, IH; [reflexivity|].
    intros C. apply Hg. apply contains_cons. now right.
Qed.

(** *** The blocks of a text *)

Lemma not_contains_firstn (s sub : str) (i : nat) :
  Py.find_nat s sub = Some i -> sub <> [] -> ~ Spec.contains (firstn i s) sub.
Proof.
  intros F N [a [b E]].
  destruct (find_nat_some _ _ _ F) as [post [E1 [Hi _]]].
  rewrite E in E1. rewrite <- !app_assoc in E1.
  pose proof (find_nat_first _ _ _ F _ _ E1) as L.
  assert (L2 : length (firstn i s) = i) by (rewrite length_firstn; lia).
  rewrite E, !length_app in L2.
  destruct sub; [congruence | simpl in L2; lia].
Qed.

(** Either the text holds no complete block, or it splits at its first
    block. *)
Lemma first_block_dec (s : str) :
  ~ Spec.HasBlock s \/
  exists gap body rest,
    s = gap ++ Spec.START ++ body ++ Spec.END_ ++ rest
    /\ ~ Spec.contains gap Spec.START /\ ~ Spec.contains body Spec.END_.
Proof.
  destruct (Py.find_nat s Spec.START) as [i|] eqn:F.
  - destruct (find_nat_some _ _ _ F) as [s1 [E [Hi _]]].
    destruct (Py.find_nat s1 Spec.END_) as [j|] eqn:G.
    + right. destruct (find_nat_some _ _ _ G) as [rest [E2 _]].
      exists (firstn i s), (firstn j s1), rest. repeat split.
      * rewrite <- E2. exact E.
      * apply not_contains_firstn; [assumption | discriminate].
      * apply not_contains_firstn; [assumption | discriminate].
    + left. intros [pre [body [post B]]].
      apply find_nat_none in G. apply G.
      pose proof (find_nat_first _ _ _ F _ _ B) as L.
      assert (S1 : s1 = skipn (i + 3) s).
      { rewrite E at 1. rewrite skipn_app, skipn_all2
          by (rewrite length_firstn; lia).
        rewrite length_firstn.
        replace (i + 3 - Nat.min i (length s)) with 3 by lia. reflexivity. }
      rewrite S1, B.
      replace (pre ++ Spec.START ++ body ++ Spec.END_ ++ post)
        with ((pre ++ Spec.START ++ body) ++ Spec.END_ ++ post)
        by (rewrite <- !app_assoc; reflexivity).
      rewrite skipn_app.
      replace (i + 3 - length (pre ++ Spec.START ++ body)) with 0
        by (rewrite !length_app; simpl; lia).
      exists (skipn (i + 3) (pre ++ Spec.START ++ body)), post.
      reflexivity.
  - left. intros [pre [body [post B]]]. apply find_nat_none in F. apply F.
    exists pre, (body ++ Spec.END_ ++ post). exact B.
Qed.

(** Every text has its list of blocks. *)
Lemma Blocks_total (s : str) : exists bs, Spec.Blocks s bs.
Proof.
  remember (length s) as n eqn:Hn. revert s Hn.
  induction n as [n IH] using lt_wf_ind. intros s Hn.
  destruct (first_block_dec s) as [H | [gap [body [rest [E [Hg Hb]]]]]].
  - exists []. now constructor.
  - destruct (IH (length rest)) with (s := rest) as [bs B]; [|reflexivity|].
    + subst n. rewrite E, !length_app. simpl. lia.
    + exists ((Spec.START ++ body ++ Spec.END_) :: bs). rewrite E.
      now constructor.
Qed.

Lemma scan_doc_blocks (text : str) (bs : list str) :
  Spec.Blocks text bs ->
  forall fuel prev,
    length text < fuel ->
    map (fun seg => Re.m_text (snd seg))
        (fst (Re.scan_fuel fuel Llm.DOC_COMMENT_RE prev text)) = bs.
Proof.
  induction 1 as [text H | gap body rest bs Hg Hb B IH]; intros fuel prev L.
  - destruct fuel as [|fuel]; [lia|]. cbn [Re.scan_fuel].
    rewrite search_at_doc_none by assumption. reflexivity.
  - destruct fuel as [|fuel]; [lia|]. cbn [Re.scan_fuel].
    rewrite search_at_doc_block by assumption.
    cbn [Re.m_text Re.m_prev Re.m_rest Spec.START lit list_ascii_of_string app].
    specialize (IH fuel (Some SLASH)).
    destruct (Re.scan_fuel fuel Llm.DOC_COMMENT_RE (Some SLASH) rest)
      as [segs t] eqn:S.
    cbn [fst snd map Re.m_text]. f_equal. apply IH.
    rewrite !length_app in L. simpl in L. lia.
Qed.

Lemma finditer_doc_blocks (text : str) (bs : list str) :
  Spec.Blocks text bs ->
  map Re.m_text (Re.finditer Llm.DOC_COMMENT_RE text) = bs.
Proof.
  intros B. unfold Re.finditer, Re.scan. rewrite map_map.
  apply scan_doc_blocks; [assumption | lia].
Qed.

(** The list of blocks of a text is unique. *)
Lemma Blocks_unique (text : str) (bs bs' : list str) :
  Spec.Blocks text bs -> Spec.Blocks text bs' -> bs = bs'.
Proof.
  intros B B'. rewrite <- (finditer_doc_blocks _ _ B).
  apply finditer_doc_blocks. exact B'.
Qed.

Lemma rev_map_last {A B : Type} (f : A -> B) (l : list A) bs b :
  map f l = bs ++ [b] -> exists m l', rev l = m :: l' /\ f m = b.
Proof.
  intros E. assert (R : map f (rev l) = b :: rev bs).
  { rewrite map_rev, E, rev_app_distr. reflexivity. }
  destruct (rev l) as [|m l']; [discriminate|].
  inversion R. eauto.
Qed.

Lemma extract_doc_comment_blocks (text : str) bs b :
  Spec.Blocks text (bs ++ [b]) ->
  Llm.extract_doc_comment text = (b, []).
Proof.
  intros B. unfold Llm.extract_doc_comment.
  destruct (rev_map_last _ _ _ _ (finditer_doc_blocks _ _ B))
    as [m [l' [R M]]].
  rewrite R, M. reflexivity.
Qed.

Lemma extract_doc_comment_no_block (text : str) :
  ~ Spec.HasBlock text ->
  Llm.extract_doc_comment text =
  (let start := Py.rfind text (lit "/**") in
   let end_ := Py.find text (lit "*/") start in
   if (negb (start =? -1) && negb (end_ =? -1))%bool%Z
   then (Py.slice text start (end_ + 2), [ExtractWarning])
   else (text, [ExtractWarning])).
Proof.
  intros H. unfold Llm.extract_doc_comment.
  assert (E : Re.finditer Llm.DOC_COMMENT_RE text = []).
  { apply map_eq_nil with (f := Re.m_text).
    apply finditer_doc_blocks. now constructor. }
  rewrite E. reflexivity.
Qed.

Lemma has_block_blocks (text : str) (bs : list str) :
  Spec.HasBlock text -> Spec.Blocks text bs ->
  exists bs' b, bs = bs' ++ [b].
Proof.
  intros H B. destruct bs as [|b0 bs].
  - inversion B; subst; contradiction.
  - destruct (exists_last (l := b0 :: bs)) as [bs' [b E]]; [discriminate|].
    eauto.
Qed.

(** ** [rfind], [find] and slices *)

Lemma rfind_nat_some (s sub : str) (j : nat) :
  Py.rfind_nat s sub = Some j ->
  exists pre post, s = pre ++ sub ++ post /\ length pre = j.
Proof.
  revert j; induction s as [|c s IH]; intros j; cbn [Py.rfind_nat].
  - destruct (Py.startswith [] sub) eqn:E; [|discriminate].
    intros [= <-]. apply startswith_iff in E. destruct E as [t E].
    exists [], t. auto.
  - destruct (Py.rfind_nat s sub) as [i|] eqn:R.
    + intros [= <-]. destruct (IH i eq_refl) as [pre [post [E L]]].
      exists (c :: pre), post. simpl. split; [now f_equal | now f_equal].
    + destruct (Py.startswith (c :: s) sub) eqn:E; [|discriminate].
      intros [= <-]. apply startswith_iff in E. destruct E as [t E].
      exists [], t. auto.
Qed.

Lemma rfind_nat_none (s sub : str) :
  Py.rfind_nat s sub = None <-> ~ Spec.contains s sub.
Proof.
  induction s as [|c s IH]; cbn [Py.rfind_nat].
  - destruct (Py.startswith [] sub) eqn:E.
    + split; [discriminate | intros H; exfalso; apply H].
      apply startswith_iff in E. destruct E as [t E]. exists [], t; exact E.
    + split; [intros _ [pre [post H]] | reflexivity].
      apply startswith_false in E. apply E.
      destruct pre; [eauto | discriminate].
  - rewrite contains_cons. destruct (Py.rfind_nat s sub) as [i|] eqn:R.
    + split; [discriminate | intros H; exfalso; apply H]. right.
      destruct (rfind_nat_some _ _ _ R) as [pre [post [E _]]].
      exists pre, post; exact E.
    + destruct (Py.startswith (c :: s) sub) eqn:E.
      * split; [discriminate | intros H; exfalso; apply H]. left.
        now apply startswith_iff.
      * apply startswith_false in E.
        split; [intros _ [H | H]; [tauto | now apply IH] | reflexivity].
Qed.

Lemma rfind_nat_last (s sub : str) (j : nat) :
  Py.rfind_nat s sub = Some j ->
  forall pre post, s = pre ++ sub ++ post -> length pre <= j.
Proof.
  revert j; induction s as [|c s IH]; intros j; cbn [Py.rfind_nat].
  - intros _ pre post E. destruct pre; [simpl; lia | discriminate].
  - destruct (Py.rfind_nat s sub) as [i|] eqn:R.
    + intros [= <-] pre post E. destruct pre as [|d pre]; [simpl; lia|].
      inversion E; subst. simpl. apply le_n_S. eapply IH; eauto.
    + destruct (Py.startswith (c :: s) sub); [|discriminate].
      intros [= <-] pre post E. destruct pre as [|d pre]; [simpl; lia|].
      inversion E; subst. apply rfind_nat_none in R. exfalso; apply R.
      exists pre, post; reflexivity.
Qed.

Lemma rfind_nat_last_at (text sub pre : str) :
  Spec.last_at text sub pre -> Py.rfind_nat text sub = Some (length pre).
Proof.
  intros [[tail E] L].
  destruct (Py.rfind_nat text sub) as [j|] eqn:R.
  - f_equal. apply Nat.le_antisymm.
    + destruct (rfind_nat_some _ _ _ R) as [pre' [post' [E' L']]].
      specialize (L _ _ E'). lia.
    + eapply rfind_nat_last; eauto.
  - apply rfind_nat_none in R. exfalso; apply R. exists pre, tail; exact E.
Qed.

Lemma last_at_rfind_nat (text sub : str) (j : nat) :
  Py.rfind_nat text sub = Some j -> Spec.last_at text sub (firstn j text).
Proof.
  intros R. destruct (rfind_nat_some _ _ _ R) as [pre [post [E L]]].
  assert (F : firstn j text = pre).
  { rewrite E, <- L, firstn_app, firstn_all, Nat.sub_diag, firstn_0.
    apply app_nil_r. }
  rewrite F. split; [eauto|]. intros pre' post' E'.
  rewrite L. eapply rfind_nat_last; eauto.
Qed.

Lemma find_from (s sub : str) (i : nat) :
  i <= length s ->
  Py.find s sub (Z.of_nat i) =
  match Py.find_nat (skipn i s) sub with
  | Some j => Z.of_nat (i + j)
  | None => (-1)%Z
  end.
Proof.
  intros L. unfold Py.find, Py.adjust_start, Py.len.
  destruct (Z.ltb_spec (Z.of_nat i) 0); [lia|].
  destruct (Z.ltb_spec (Z.of_nat (length s)) (Z.of_nat i)); [lia|].
  rewrite Nat2Z.id. destruct (Py.find_nat (skipn i s) sub); [|reflexivity].
  lia.
Qed.

Lemma slice_nat (s : str) (i j : nat) :
  i <= j -> j <= length s ->
  Py.slice s (Z.of_nat i) (Z.of_nat j) = firstn (j - i) (skipn i s).
Proof.
  intros L1 L2. unfold Py.slice, Py.adjust_bound, Py.len.
  destruct (Z.ltb_spec (Z.of_nat i) 0); [lia|].
  destruct (Z.ltb_spec (Z.of_nat j) 0); [lia|].
  rewrite !Z.min_r by lia. rewrite <- Nat2Z.inj_sub by lia.
  rewrite !Nat2Z.id. reflexivity.
Qed.

(** What [extract_doc_comment] does when the pattern finds nothing. *)
Lemma extract_doc_comment_fallback (text : str) :
  ~ Spec.HasBlock text ->
  (exists pre mid post,
      text = pre ++ mid ++ Spec.END_ ++ post
      /\ Spec.last_at text Spec.START pre
      /\ ~ Spec.contains mid Spec.END_
      /\ Llm.extract_doc_comment text = (mid ++ Spec.END_, [ExtractWarning]))
  \/ Llm.extract_doc_comment text = (text, [ExtractWarning]).
Proof.
  intros H. rewrite extract_doc_comment_no_block by assumption.
  cbv zeta. unfold Py.rfind. fold Spec.START. fold Spec.END_.
  destruct (Py.rfind_nat text Spec.START) as [i|] eqn:R;
    [|right; reflexivity].
  pose proof (last_at_rfind_nat _ _ _ R) as LA.
  destruct (rfind_nat_some _ _ _ R) as [pre [tail [E L]]].
  assert (Li : i <= length text) by (rewrite E, length_app; lia).
  rewrite find_from by assumption.
  destruct (Py.find_nat (skipn i text) Spec.END_) as [j|] eqn:F;
    [|right; change (negb (-1 =? -1)%Z) with false;
      rewrite andb_false_r; reflexivity].
  left. destruct (find_nat_some _ _ _ F) as [post [E2 [Lj E3]]].
  exists (firstn i text), (firstn j (skipn i text)), post.
  assert (T : text = firstn i text ++ firstn j (skipn i text)
                            ++ Spec.END_ ++ post).
  { rewrite <- E2. symmetry. apply firstn_skipn. }
  repeat split; try apply LA; try exact T.
  - apply not_contains_firstn; [assumption | discriminate].
  - destruct (Z.eqb_spec (Z.of_nat i) (-1)); [lia|].
    destruct (Z.eqb_spec (Z.of_nat (i + j)) (-1)); [lia|].
    cbn [negb andb]. f_equal.
    replace (Z.of_nat (i + j) + 2)%Z with (Z.of_nat (i + j + 2)) by lia.
    assert (L3 : i + j + 2 <= length text).
    { pose proof (f_equal (@length ascii) E2) as EL.
      rewrite !length_app, length_firstn, !length_skipn in EL.
      simpl in EL. lia. }
    rewrite slice_nat by lia.
    replace (i + j + 2 - i) with (j + 2) by lia.
    rewrite E2 at 1.
    replace (firstn j (skipn i text) ++ Spec.END_ ++ post)
      with ((firstn j (skipn i text) ++ Spec.END_) ++ post)
      by (rewrite <- app_assoc; reflexivity).
    rewrite firstn_app.
    assert (L4 : length (firstn j (skipn i text) ++ Spec.END_) = j + 2).
    { rewrite length_app, length_firstn. simpl. lia. }
    rewrite firstn_all2 by lia. rewrite L4, Nat.sub_diag, firstn_0.
    apply app_nil_r.
Qed.

Lemma no_block_by_find (s : str) :
  match Py.find_nat s Spec.START with
  | Some i => Py.find_nat (skipn (i + 3) s) Spec.END_
  | None => None
  end = None ->
  ~ Spec.HasBlock s.
Proof.
  intros F [pre [body [post B]]].
  destruct (Py.find_nat s Spec.START) as [i|] eqn:G.
  - apply find_nat_none in F. apply F.
    pose proof (find_nat_first _ _ _ G _ _ B) as L.
    rewrite B.
    replace (pre ++ Spec.START ++ body ++ Spec.END_ ++ post)
      with ((pre ++ Spec.START ++ body) ++ Spec.END_ ++ post)
      by (rewrite <- !app_assoc; reflexivity).
    rewrite skipn_app.
    replace (i + 3 - length (pre ++ Spec.START ++ body)) with 0
      by (rewrite !length_app; simpl; lia).
    exists (skipn (i + 3) (pre ++ Spec.START ++ body)), post. reflexivity.
  - apply find_nat_none in G. apply G.
    exists pre, (body ++ Spec.END_ ++ post). exact B.
Qed.

Lemma no_start_no_block (s : str) :
  ~ Spec.contains s Spec.START -> ~ Spec.HasBlock s.
Proof.
  intros H [pre [body [post B]]]. apply H.
  exists pre, (body ++ Spec.END_ ++ post). exact B.
Qed.

Lemma Blocks_contains (t : str) (bs : list str) :
  Spec.Blocks t bs -> forall b, In b bs -> Spec.contains t b.
Proof.
  induction 1 as [text H | gap body rest bs Hg Hb B IH]; intros b I.
  - destruct I.
  - destruct I as [<- | I].
    + exists gap, rest. rewrite <- !app_assoc. reflexivity.
    + destruct (IH b I) as [pre [post E]].
      exists (gap ++ Spec.START ++ body ++ Spec.END_ ++ pre), post.
      rewrite E, <- !app_assoc. reflexivity.
Qed.

Lemma extract_doc_comment_span (text pre mid post : str) :
  ~ Spec.HasBlock text ->
  text = pre ++ mid ++ Spec.END_ ++ post ->
  Spec.last_at text Spec.START pre ->
  ~ Spec.contains mid Spec.END_ ->
  Llm.extract_doc_comment text = (mid ++ Spec.END_, [ExtractWarning]).
Proof.
  intros H E LA Hm.
  rewrite extract_doc_comment_no_block by assumption. cbv zeta.
  unfold Py.rfind. fold Spec.START Spec.END_.
  rewrite (rfind_nat_last_at _ _ _ LA).
  assert (Lp : length pre <= length text) by (rewrite E, length_app; lia).
  rewrite find_from by assumption.
  assert (S1 : skipn (length pre) text = mid ++ Spec.END_ ++ post).
  { rewrite E at 1. rewrite skipn_app, skipn_all, Nat.sub_diag. reflexivity. }
  rewrite S1, (find_nat_here mid Spec.END_ post (end_first mid post Hm)).
  destruct (Z.eqb_spec (Z.of_nat (length pre)) (-1)); [lia|].
  destruct (Z.eqb_spec (Z.of_nat (length pre + length mid)) (-1)); [lia|].
  cbn [negb andb]. f_equal.
  replace (Z.of_nat (length pre + length mid) + 2)%Z
    with (Z.of_nat (length pre + length mid + 2)) by lia.
  assert (L3 : length pre + length mid + 2 <= length text).
  { rewrite E, !length_app. simpl. lia. }
  rewrite slice_nat, S1 by lia.
  replace (length pre + length mid + 2 - length pre)
    with (length (mid ++ Spec.END_)) by (rewrite length_app; simpl; lia).
  replace (mid ++ Spec.END_ ++ post) with ((mid ++ Spec.END_) ++ post)
    by (rewrite <- app_assoc; reflexivity).
  rewrite firstn_app, firstn_all, Nat.sub_diag, firstn_0. apply app_nil_r.
Qed.

Lemma extract_doc_comment_passthrough (text : str) :
  ~ Spec.contains text Spec.START ->
  Llm.extract_doc_comment text = (text, [ExtractWarning]).
Proof.
  intros H.
  rewrite extract_doc_comment_no_block by (now apply no_start_no_block).
  cbv zeta. unfold Py.rfind. fold Spec.START.
  apply rfind_nat_none in H. rewrite H. reflexivity.
Qed.

(** ** The doc comment extractor *)

(** C1: when the text holds at least one complete delimited block
    [/** ... */], [extract_doc_comment] returns the last of its
    non-overlapping blocks, each block being read from the first start
    marker left in the text to the nearest end marker after it; the list
    of these blocks is unique. *)
Theorem extract_doc_comment_last_block (text : str) :
  Spec.HasBlock text ->
  exists bs b,
    Spec.Blocks text (bs ++ [b])
    /\ (forall bs', Spec.Blocks text bs' -> bs' = bs ++ [b])
    /\ fst (Llm.extract_doc_comment text) = b.
Proof.
  intros H. destruct (Blocks_total text) as [bs0 B].
  destruct (has_block_blocks _ _ H B) as [bs [b ->]].
  exists bs, b. repeat split.
  - exact B.
  - intros bs' B'. eapply Blocks_unique; eauto.
  - rewrite (extract_doc_comment_blocks _ _ _ B). reflexivity.
Qed.

Lemma extract_doc_comment_last_block_witness :
  Spec.HasBlock (lit "x /** a */ y /** b */ z")
  /\ exists bs b,
      Spec.Blocks (lit "x /** a */ y /** b */ z") (bs ++ [b])
      /\ (forall bs', Spec.Blocks (lit "x /** a */ y /** b */ z") bs'
                      -> bs' = bs ++ [b])
      /\ fst (Llm.extract_doc_comment (lit "x /** a */ y /** b */ z")) = b.
Proof.
  assert (H : Spec.HasBlock (lit "x /** a */ y /** b */ z")).
  { exists (lit "x "), (lit " a "), (lit " y /** b */ z"). reflexivity. }
  split; [exact H|].
  exact (extract_doc_comment_last_block (lit "x /** a */ y /** b */ z") H).
Defined.

(** Section 8, property 2 of the specification: of two blocks in
    sequence, with no complete block after them, the second is returned. *)
Lemma extract_doc_comment_second_of_two (gap0 a gap1 b tail : str) :
  ~ Spec.contains gap0 Spec.START -> ~ Spec.contains a Spec.END_ ->
  ~ Spec.contains gap1 Spec.START -> ~ Spec.contains b Spec.END_ ->
  ~ Spec.HasBlock tail ->
  fst (Llm.extract_doc_comment
         (gap0 ++ Spec.START ++ a ++ Spec.END_
               ++ gap1 ++ Spec.START ++ b ++ Spec.END_ ++ tail))
  = Spec.START ++ b ++ Spec.END_.
Proof.
  intros G0 A G1 B T.
  rewrite (extract_doc_comment_blocks _ [Spec.START ++ a ++ Spec.END_]
                                      (Spec.START ++ b ++ Spec.END_));
    [reflexivity|].
  cbn [app]. repeat (apply Spec.Blocks_next; try assumption).
  now apply Spec.Blocks_none.
Qed.

(** Section 8, property 2 of the specification on a concrete text: of
    two blocks in sequence the second is returned, and nothing is
    printed. *)
Example extract_doc_comment_two_blocks :
  Llm.extract_doc_comment (lit "x /** a */ y /** b */ z")
  = (lit "/** b */", []).
Proof. reflexivity. Qed.

(** Section 8, property 1 of the specification: a text that is one
    delimited comment is returned as it is. *)
Lemma extract_doc_comment_canonical (body : str) :
  ~ Spec.contains body Spec.END_ ->
  Llm.extract_doc_comment (Spec.START ++ body ++ Spec.END_)
  = (Spec.START ++ body ++ Spec.END_, []).
Proof.
  intros H. apply (extract_doc_comment_blocks _ []).
  assert (B : Spec.Blocks ([] ++ Spec.START ++ body ++ Spec.END_ ++ [])
                          [Spec.START ++ body ++ Spec.END_]).
  { apply Spec.Blocks_next; [| exact H |].
    - intros [pre [post E]]. destruct pre; discriminate.
    - apply Spec.Blocks_none. intros [pre [b [post E]]].
      destruct pre; discriminate. }
  cbn [app] in B. rewrite app_nil_r in B. exact B.
Qed.

(** C7: when the text holds no complete delimited block, but an end
    marker is found from the position of the last start marker on,
    [extract_doc_comment] returns the span from that start marker
    through the first such end marker, both included. *)
Theorem extract_doc_comment_partial_span (text pre mid post : str) :
  ~ Spec.HasBlock text ->
  text = pre ++ mid ++ Spec.END_ ++ post ->
  Spec.last_at text Spec.START pre ->
  ~ Spec.contains mid Spec.END_ ->
  fst (Llm.extract_doc_comment text) = mid ++ Spec.END_.
Proof.
  intros H E LA Hm.
  rewrite (extract_doc_comment_span text pre mid post H E LA Hm).
  reflexivity.
Qed.

Lemma extract_doc_comment_partial_span_witness :
  fst (Llm.extract_doc_comment (lit "x /**/ y")) = lit "/*" ++ Spec.END_.
Proof.
  apply (extract_doc_comment_partial_span
           (lit "x /**/ y") (lit "x ") (lit "/*") (lit " y")).
  - apply no_block_by_find. reflexivity.
  - reflexivity.
  - exact (last_at_rfind_nat (lit "x /**/ y") Spec.START 2 eq_refl).
  - apply find_nat_none. reflexivity.
Defined.

(** With no complete block in the text, the end marker found from the
    last start marker on can only be the one that shares the second star
    of that start marker: the span returned by the fallback is [/**/]. *)
Remark partial_span_shape (text pre mid post : str) :
  ~ Spec.HasBlock text ->
  text = pre ++ mid ++ Spec.END_ ++ post ->
  Spec.last_at text Spec.START pre ->
  mid = lit "/*".
Proof.
  intros H E [[tail T] _]. rewrite T in E. apply app_inv_head in E.
  destruct mid as [|a [|b [|c mid]]]; try (inversion E; discriminate).
  - inversion E; subst. reflexivity.
  - exfalso. apply H. inversion E; subst.
    exists pre, mid, post. reflexivity.
Qed.

(** C10: [extract_doc_comment] is a total function and its result is a
    contiguous part of its argument: the last complete block, or the
    span from the last start marker through the first end marker found
    from there, or the whole argument. *)
Theorem extract_doc_comment_substring (t : str) :
  Spec.contains t (fst (Llm.extract_doc_comment t))
  /\ ((exists bs, Spec.Blocks t (bs ++ [fst (Llm.extract_doc_comment t)]))
      \/ (~ Spec.HasBlock t
          /\ exists pre mid post,
              t = pre ++ mid ++ Spec.END_ ++ post
              /\ Spec.last_at t Spec.START pre
              /\ ~ Spec.contains mid Spec.END_
              /\ fst (Llm.extract_doc_comment t) = mid ++ Spec.END_)
      \/ fst (Llm.extract_doc_comment t) = t).
Proof.
  destruct (Blocks_total t) as [bs B].
  destruct bs as [|b0 bs].
  - assert (H : ~ Spec.HasBlock t) by (inversion B; assumption).
    destruct (extract_doc_comment_fallback t H)
      as [[pre [mid [post [E [LA [Hm R]]]]]] | R]; rewrite R; cbn [fst].
    + split.
      * exists pre, post. rewrite <- app_assoc. exact E.
      * right; left. split; [exact H|]. exists pre, mid, post. auto.
    + split; [exists [], []; rewrite app_nil_r; reflexivity | auto].
  - destruct (exists_last (l := b0 :: bs)) as [bs' [b E]]; [discriminate|].
    rewrite E in B. rewrite (extract_doc_comment_blocks _ _ _ B). cbn [fst].
    split.
    + apply (Blocks_contains _ _ B). apply in_or_app. right. now left.
    + left. exists bs'. exact B.
Qed.

(** ** Whitespace *)

Lemma lstrip_split (s : str) :
  exists ws, s = ws ++ Py.lstrip s /\ Spec.blank ws.
Proof.
  induction s as [|c s [ws [E B]]]; simpl.
  - exists []. split; [reflexivity | constructor].
  - destruct (Py.isspace c) eqn:C.
    + exists (c :: ws). split; [simpl; now f_equal | now constructor].
    + exists []. split; [reflexivity | constructor].
Qed.

Lemma lstrip_head (s : str) : Spec.head_not Py.isspace (Py.lstrip s).
Proof.
  induction s as [|c s IH]; simpl; [exact I|].
  destruct (Py.isspace c) eqn:C; [exact IH | exact C].
Qed.

Lemma lstrip_nil_iff (s : str) : Py.lstrip s = [] <-> Spec.blank s.
Proof.
  induction s as [|c s IH]; simpl.
  - split; [constructor | reflexivity].
  - destruct (Py.isspace c) eqn:C.
    + rewrite IH. split; [now constructor | intros B; now inversion B].
    + split; [discriminate | intros B; inversion B; congruence].
Qed.

Lemma blank_rev (s : str) : Spec.blank (rev s) <-> Spec.blank s.
Proof.
  unfold Spec.blank, Spec.all_in. rewrite !Forall_forall.
  split; intros H c I; apply H; [now apply -> in_rev | now apply in_rev].
Qed.

Lemma blank_app (a b : str) :
  Spec.blank (a ++ b) <-> Spec.blank a /\ Spec.blank b.
Proof. apply Forall_app. Qed.

Lemma rstrip_split (s : str) :
  exists ws, s = Py.rstrip s ++ ws /\ Spec.blank ws.
Proof.
  unfold Py.rstrip. destruct (lstrip_split (rev s)) as [ws [E B]].
  exists (rev ws). split; [|now apply blank_rev].
  rewrite <- rev_app_distr, <- E. symmetry. apply rev_involutive.
Qed.

Lemma strip_split (s : str) :
  exists l r, s = l ++ Py.strip s ++ r /\ Spec.blank l /\ Spec.blank r.
Proof.
  unfold Py.strip. destruct (lstrip_split s) as [l [E1 B1]].
  destruct (rstrip_split (Py.lstrip s)) as [r [E2 B2]].
  exists l, r. repeat split; try assumption. rewrite <- E2. exact E1.
Qed.

Lemma strip_truthy (s : str) :
  Py.truthy (Py.strip s) = false <-> Spec.blank s.
Proof.
  destruct (strip_split s) as [l [r [E [Bl Br]]]].
  destruct (Py.strip s) as [|c t] eqn:S; simpl.
  - split; [intros _ | reflexivity]. rewrite E. simpl.
    apply blank_app; auto.
  - split; [discriminate|]. intros B. exfalso.
    assert (N : Py.isspace c = false).
    { unfold Py.strip, Py.rstrip in S.
      pose proof (lstrip_head s) as H1.
      pose proof (lstrip_head (rev (Py.lstrip s))) as H2.
      destruct (Py.lstrip (rev (Py.lstrip s))) as [|d u] eqn:L.
      - discriminate.
      - destruct (Py.lstrip s) as [|e v] eqn:L1.
        + discriminate.
        + (* the first character left is not whitespace *)
          destruct (rstrip_split (e :: v)) as [ws [E2 _]].
          unfold Py.rstrip in E2. rewrite L in E2. rewrite S in E2.
          simpl in E2. inversion E2; subst. exact H1. }
    rewrite E in B. apply blank_app in B. destruct B as [_ B].
    simpl in B. inversion B; congruence.
Qed.

Lemma strip_truthy_true (s : str) :
  Py.truthy (Py.strip s) = true <-> ~ Spec.blank s.
Proof.
  rewrite <- strip_truthy. destruct (Py.truthy (Py.strip s)); split;
    congruence || tauto.
Qed.

(** A greedy run of whitespace before a continuation that cannot fail
    takes the whole leading whitespace. *)
Lemma star_greedy_space {A : Type} (k : option ascii -> str -> option A)
      (p : option ascii) (s : str) :
  (forall p' s', k p' s' <> None) ->
  exists p', Re.star_greedy Py.isspace p s k = k p' (Py.lstrip s).
Proof.
  intros K. revert p; induction s as [|c s IH]; intros p; simpl.
  - eauto.
  - destruct (Py.isspace c) eqn:C; [|eauto].
    destruct (IH (Some c)) as [p' E]. rewrite E.
    exists p'. destruct (k p' (Py.lstrip s)) eqn:R; [reflexivity|].
    exfalso. eapply K; eauto.
Qed.

Lemma match_spaces (line : str) :
  exists m, Re.match_ Llm.SPACES_RE line = Some m
            /\ Spec.leading_whitespace line (Re.m_text m).
Proof.
  unfold Re.match_, Re.match_at, Llm.SPACES_RE. cbn [Re.run].
  destruct (star_greedy_space
              (fun p' s' =>
                 Some (Re.Mtch (firstn (length line - length s') line)
                               [] p' s'))
              None line) as [p' E]; [discriminate|].
  rewrite E. eexists. split; [reflexivity|]. cbn [Re.m_text].
  destruct (lstrip_split line) as [ws [E2 B]].
  assert (F : firstn (length line - length (Py.lstrip line)) line = ws).
  { remember (Py.lstrip line) as t eqn:Ht. clear Ht E. subst line.
    rewrite length_app.
    replace (length ws + length t - length t) with (length ws) by lia.
    rewrite firstn_app, firstn_all, Nat.sub_diag, firstn_0.
    apply app_nil_r. }
  exists (Py.lstrip line). rewrite F. split; [|split].
  - exact E2.
  - exact B.
  - apply lstrip_head.
Qed.

Lemma method_indent_spec (lines : list str) :
  Spec.IndentOf lines (Llm.method_indent lines).
Proof.
  induction lines as [|line rest IH]; cbn [Llm.method_indent].
  - constructor.
  - destruct (Py.truthy (Py.strip line)) eqn:T.
    + apply strip_truthy_true in T.
      destruct (match_spaces line) as [m [E L]]. rewrite E.
      now apply Spec.IndentOf_first.
    + apply strip_truthy in T. now apply Spec.IndentOf_blank.
Qed.

Lemma indent_line_spec (indent line : str) :
  Spec.Reindented indent line (Llm.indent_line indent line).
Proof.
  unfold Llm.indent_line. destruct (Py.truthy (Py.strip line)) eqn:T.
  - apply strip_truthy_true in T. now constructor.
  - apply strip_truthy in T. now constructor.
Qed.

(** No line of [splitlines] holds a line boundary. *)
Lemma splitlines_no_linebreak (s : str) :
  Forall Spec.no_linebreak (Py.splitlines s).
Proof.
  remember (length s) as n eqn:Hn. revert s Hn.
  induction n as [n IH] using lt_wf_ind. intros s Hn.
  destruct s as [|c s]; [constructor|]. cbn [Py.splitlines].
  destruct (Py.is_linebreak c) eqn:C.
  - constructor; [constructor|]. destruct s as [|d s]; [constructor|].
    destruct (Ascii.eqb c CR && Ascii.eqb d LF)%bool.
    + apply (IH (length s)); [simpl in Hn; lia | reflexivity].
    + apply (IH (length (d :: s))); [simpl in Hn; simpl; lia | reflexivity].
  - assert (R : Forall Spec.no_linebreak (Py.splitlines s))
      by (apply (IH (length s)); [simpl in Hn; lia | reflexivity]).
    assert (N : negb (Py.is_linebreak c) = true) by now rewrite C.
    destruct (Py.splitlines s) as [|l ls].
    + repeat constructor. exact N.
    + apply Forall_cons_iff in R. destruct R as [R1 R2].
      constructor; [now constructor | exact R2].
Qed.

(** ** The merger *)

(** C2: [insert_doc_comment] takes as indent the leading whitespace of
    the first non-blank line of the method text (the empty string when
    every line is blank), puts it before every non-blank line of the doc
    comment and leaves the blank lines as they are, and returns these
    lines joined by newlines, then one newline, then the method text
    unchanged. *)
Theorem insert_doc_comment_spec (method_code doc_comment : str) :
  exists indent lines',
    Spec.IndentOf (Py.splitlines method_code) indent
    /\ Forall2 (Spec.Reindented indent) (Py.splitlines doc_comment) lines'
    /\ Llm.insert_doc_comment method_code doc_comment
       = Py.join [LF] lines' ++ [LF] ++ method_code.
Proof.
  exists (Llm.method_indent (Py.splitlines method_code)).
  exists (map (Llm.indent_line (Llm.method_indent (Py.splitlines method_code)))
              (Py.splitlines doc_comment)).
  repeat split.
  - apply method_indent_spec.
  - induction (Py.splitlines doc_comment) as [|l ls IH]; simpl;
      constructor; [apply indent_line_spec | exact IH].
Qed.

(** Section 8, property 3 of the specification on a concrete method. *)
Example insert_doc_comment_indent :
  Llm.insert_doc_comment
    (lit "    void f() {" ++ [LF] ++ lit "    }")
    (lit "/**" ++ [LF] ++ lit " * doc" ++ [LF] ++ [LF] ++ lit " */")
  = lit "    /**" ++ [LF] ++ lit "     * doc" ++ [LF] ++ [LF]
        ++ lit "     */" ++ [LF]
        ++ lit "    void f() {" ++ [LF] ++ lit "    }".
Proof. reflexivity. Qed.

(** ** Reassembly of a streamed response *)

Lemma join_nil_concat (l : list str) : Py.join [] l = concat l.
Proof.
  induction l as [|a [|b l] IH]; cbn [Py.join concat].
  - reflexivity.
  - now rewrite app_nil_r.
  - cbn [Py.join concat] in IH. rewrite IH. reflexivity.
Qed.

Lemma slice_from_data (payload : str) :
  Py.slice_from (Spec.DATA ++ payload) (Py.len (lit "data: ")) = payload.
Proof.
  unfold Py.slice_from, Py.adjust_bound, Py.len.
  rewrite length_app. cbn [lit list_ascii_of_string length Spec.DATA].
  destruct (Z.ltb_spec (Z.of_nat 6) 0); [lia|].
  rewrite Z.min_r by lia. reflexivity.
Qed.

Lemma sse_line_contribution (acc : list str) (line : str) (c : list str) :
  Spec.LineContribution line c -> Llm.sse_line acc line = acc ++ c.
Proof.
  intros [line' N | payload c' C]; unfold Llm.sse_line.
  - fold Spec.DATA. rewrite N. now rewrite app_nil_r.
  - fold Spec.DATA. rewrite startswith_app, slice_from_data.
    destruct C as [p E | p B | p [E | E] | p NB N1 N2 N3].
    + rewrite E, str_eqb_refl. reflexivity.
    + assert (S : Py.strip p = []).
      { apply strip_truthy in B. destruct (Py.strip p); [reflexivity|].
        discriminate. }
      rewrite S. cbn. now rewrite app_nil_r.
    + rewrite E. cbn. now rewrite app_nil_r.
    + rewrite E. cbn. now rewrite app_nil_r.
    + apply str_eqb_neq in N1. rewrite N1.
      apply strip_truthy_true in NB. rewrite NB.
      cbn [existsb]. fold Spec.DONE Spec.NEWLINE.
      apply str_eqb_neq in N2. apply str_eqb_neq in N3.
      rewrite N2, N3. reflexivity.
Qed.

Lemma content_lines_contributions (lines : list str) (kept : list (list str)) :
  Forall2 Spec.LineContribution lines kept ->
  forall acc, fold_left Llm.sse_line lines acc = acc ++ concat kept.
Proof.
  induction 1 as [|line c lines kept L _ IH]; intros acc; cbn [fold_left concat].
  - now rewrite app_nil_r.
  - rewrite (sse_line_contribution _ _ _ L), IH, app_assoc. reflexivity.
Qed.

Lemma merged_of_contributions (response_text : str)
      (kept : list (list str)) :
  Forall2 Spec.LineContribution (Py.splitlines response_text) kept ->
  Llm.merged response_text
  = match concat kept with
    | [] => response_text
    | _ :: _ => concat (concat kept)
    end.
Proof.
  intros H. unfold Llm.merged, Llm.content_lines.
  rewrite (content_lines_contributions _ _ H []). cbn [app].
  destruct (concat kept); [reflexivity | apply join_nil_concat].
Qed.

(** *** The lines of a framed response *)

Lemma splitlines_line (l rest : str) :
  Spec.no_linebreak l ->
  Py.splitlines (l ++ LF :: rest) = l :: Py.splitlines rest.
Proof.
  induction l as [|c l IH]; intros N.
  - cbn [app Py.splitlines]. change (Py.is_linebreak LF) with true.
    cbn iota. destruct rest as [|d rest]; reflexivity.
  - apply Forall_cons_iff in N. destruct N as [C N].
    apply negb_true_iff in C. cbn [app Py.splitlines]. rewrite C.
    rewrite (IH N). reflexivity.
Qed.

Lemma splitlines_last (l : str) :
  Spec.no_linebreak l -> l <> [] -> Py.splitlines l = [l].
Proof.
  induction l as [|c l IH]; intros N E; [congruence|].
  apply Forall_cons_iff in N. destruct N as [C N].
  apply negb_true_iff in C. cbn [Py.splitlines]. rewrite C.
  destruct l as [|d l]; [reflexivity|].
  rewrite (IH N) by discriminate. reflexivity.
Qed.

Lemma splitlines_join (lines : list str) :
  Forall (fun l => Spec.no_linebreak l /\ l <> []) lines ->
  Py.splitlines (Py.join [LF] lines) = lines.
Proof.
  induction lines as [|l [|l2 lines] IH]; intros F.
  - reflexivity.
  - apply Forall_cons_iff in F. destruct F as [[N E] _].
    cbn [Py.join]. now apply splitlines_last.
  - apply Forall_cons_iff in F. destruct F as [[N E] F].
    change (Py.join [LF] (l :: l2 :: lines))
      with (l ++ LF :: Py.join [LF] (l2 :: lines)).
    rewrite (splitlines_line _ _ N), (IH F). reflexivity.
Qed.

Lemma splitlines_framed (payloads : list str) :
  Forall Spec.no_linebreak payloads ->
  Py.splitlines (Spec.framed payloads)
  = map (fun p => Spec.DATA ++ p) payloads.
Proof.
  intros F. unfold Spec.framed. apply splitlines_join.
  apply Forall_map. apply Forall_impl with (2 := F). intros p N. split.
  - apply Forall_app. split; [repeat constructor | exact N].
  - discriminate.
Qed.

(** C6, as the code has it: the lines of the response are read in
    order; a line without the prefix [data: ] adds nothing; the payload of
    a fragment line adds a newline when it is [[h_newline]] up to
    surrounding whitespace, nothing when it is blank or is [[DONE]] or
    [[newline]] up to surrounding whitespace, and itself otherwise.  The
    result is the concatenation of what was added, or the whole response
    text when nothing was added.  So it is for a response made of
    fragment lines only, whatever their payloads. *)
Theorem merged_contributions :
  (forall (response_text : str) (kept : list (list str)),
      Forall2 Spec.LineContribution (Py.splitlines response_text) kept ->
      Llm.merged response_text
      = match concat kept with
        | [] => response_text
        | _ :: _ => concat (concat kept)
        end)
  /\ (forall (payloads : list str) (kept : list (list str)),
         Forall Spec.no_linebreak payloads ->
         Forall2 Spec.Contribution payloads kept ->
         Llm.merged (Spec.framed payloads)
         = match concat kept with
           | [] => Spec.framed payloads
           | _ :: _ => concat (concat kept)
           end).
Proof.
  split; [exact merged_of_contributions|].
  intros payloads kept N C. apply merged_of_contributions.
  rewrite (splitlines_framed _ N).
  clear N. induction C as [|p c payloads kept P _ IH]; cbn [map].
  - constructor.
  - constructor; [now apply Spec.LineContribution_data | exact IH].
Qed.

(** The fragment sequence of section 8, property 6. *)
Lemma merged_contributions_witness :
  Llm.merged (Spec.framed [lit "public "; lit "void"; lit "[h_newline]";
                           lit "foo(){}"])
  = lit "public void" ++ [LF] ++ lit "foo(){}".
Proof.
  apply (proj2 merged_contributions
           [lit "public "; lit "void"; lit "[h_newline]"; lit "foo(){}"]
           [[lit "public "]; [lit "void"]; [[LF]]; [lit "foo(){}"]]).
  - repeat constructor.
  - assert (content : forall p : str,
               Py.truthy (Py.strip p) = true ->
               Py.str_eqb (Py.strip p) Llm.H_NEWLINE = false ->
               Py.str_eqb (Py.strip p) Spec.DONE = false ->
               Py.str_eqb (Py.strip p) Spec.NEWLINE = false ->
               Spec.Contribution p [p]).
    { intros p T N1 N2 N3.
      apply Spec.Contribution_content;
        [now apply strip_truthy_true | now apply str_eqb_neq ..]. }
    apply Forall2_cons; [apply content; reflexivity|].
    apply Forall2_cons; [apply content; reflexivity|].
    apply Forall2_cons; [apply Spec.Contribution_newline; reflexivity|].
    apply Forall2_cons; [apply content; reflexivity|].
    apply Forall2_nil.
Defined.

(** For the same fragments [DeepseekLLM.run] returns the reassembled
    payload inside a fenced block (see [_extract_code_block]). *)
Example normalize_streamed :
  Llm.normalize (Spec.framed [lit "public "; lit "void"; lit "[h_newline]";
                              lit "foo(){}"])
  = lit "```java" ++ [LF] ++ lit "public void" ++ [LF] ++ lit "foo(){}"
        ++ [LF] ++ lit "```".
Proof. reflexivity. Qed.

(** A payload of whitespace is dropped, which the wording of C6 does
    not allow: the fragments [data: a], [data:  ], [data: b] give [ab]. *)
Lemma merged_drops_blank_payload :
  ~ (forall payloads : list str,
        Forall Spec.no_linebreak payloads ->
        Llm.merged (Spec.framed payloads) = Spec.claimed_merged payloads).
Proof.
  intros H.
  specialize (H [lit "a"; lit " "; lit "b"]).
  assert (F : Forall Spec.no_linebreak [lit "a"; lit " "; lit "b"]).
  { repeat constructor. }
  specialize (H F). vm_compute in H. discriminate.
Qed.

(** Every line has its contribution, so [merged_contributions] speaks
    of every response. *)
Lemma LineContribution_total (line : str) :
  exists c, Spec.LineContribution line c.
Proof.
  destruct (Py.startswith line Spec.DATA) eqn:P.
  - apply startswith_iff in P. destruct P as [payload ->].
    destruct (Py.str_eqb (Py.strip payload) Llm.H_NEWLINE) eqn:N1.
    { apply str_eqb_eq in N1. eexists. apply Spec.LineContribution_data.
      now apply Spec.Contribution_newline. }
    destruct (Py.truthy (Py.strip payload)) eqn:T.
    2:{ apply strip_truthy in T. eexists. apply Spec.LineContribution_data.
        now apply Spec.Contribution_blank. }
    destruct (Py.str_eqb (Py.strip payload) Spec.DONE) eqn:N2.
    { apply str_eqb_eq in N2. eexists. apply Spec.LineContribution_data.
      apply Spec.Contribution_control. now left. }
    destruct (Py.str_eqb (Py.strip payload) Spec.NEWLINE) eqn:N3.
    { apply str_eqb_eq in N3. eexists. apply Spec.LineContribution_data.
      apply Spec.Contribution_control. now right. }
    eexists. apply Spec.LineContribution_data.
    apply Spec.Contribution_content;
      [now apply strip_truthy_true | now apply str_eqb_neq ..].
  - eexists. now apply Spec.LineContribution_other.
Qed.

Lemma contributions_total (lines : list str) :
  exists kept, Forall2 Spec.LineContribution lines kept.
Proof.
  induction lines as [|line lines [kept IH]].
  - exists []. constructor.
  - destruct (LineContribution_total line) as [c C].
    exists (c :: kept). now constructor.
Qed.

(** ** The method loop *)

Lemma strip_contains (s : str) : Spec.contains s (Py.strip s).
Proof.
  destruct (strip_split s) as [l [r [E _]]]. exists l, r. exact E.
Qed.

Lemma contains_trans (a b c : str) :
  Spec.contains a b -> Spec.contains b c -> Spec.contains a c.
Proof.
  intros [p1 [q1 E1]] [p2 [q2 E2]]. exists (p1 ++ p2), (q2 ++ q1).
  rewrite E1, E2, <- !app_assoc. reflexivity.
Qed.

Lemma sent_to_model_process (a : App.Args) (w : App.World) (i : nat)
      (node : App.TreesitterMethodNode) :
  Spec.sent_to_model a w i node = true ->
  App.process_node a w i node =
  let ask := if App.guided a then [AskGenerate (App.name node)] else [] in
  match Llm.generate_doc_comment (App.is_deepseek a) (App.backend w i) with
  | (None, ev) => (App.Aborted, ask ++ ev)
  | (Some documented, ev) =>
      (App.Recorded
         (App.method_source_code node)
         (Llm.insert_doc_comment (App.method_source_code node)
                                 (fst (Llm.extract_doc_comment documented))),
       ask ++ ev ++ [RawOutput documented]
           ++ snd (Llm.extract_doc_comment documented)
           ++ (if Py.startswith
                    (Py.strip (fst (Llm.extract_doc_comment documented)))
                    (lit "/**")
               then [] else [NotStandardWarning (App.name node)])
           ++ [Generated (App.name node)])
  end.
Proof.
  unfold Spec.sent_to_model, App.process_node. intros H.
  apply andb_true_iff in H. destruct H as [H H3].
  apply andb_true_iff in H. destruct H as [H1 H2].
  apply negb_true_iff in H1, H2, H3. rewrite H1, H2, H3.
  destruct (Llm.generate_doc_comment _ _) as [[documented|] ev];
    [|reflexivity].
  destruct (Llm.extract_doc_comment documented) as [doc ev2]. reflexivity.
Qed.

Lemma method_loop_recorded (a : App.Args) (w : App.World) (i : nat)
      (node : App.TreesitterMethodNode) rest d k v :
  fst (App.process_node a w i node) = App.Recorded k v ->
  App.method_loop a w i (node :: rest) d =
  (fst (App.method_loop a w (S i) rest (App.dict_set d k v)),
   snd (App.process_node a w i node)
   ++ snd (App.method_loop a w (S i) rest (App.dict_set d k v))).
Proof.
  intros H. cbn [App.method_loop].
  destruct (App.process_node a w i node) as [t ev]. cbn [fst snd] in *.
  subst t. destruct (App.method_loop a w (S i) rest (App.dict_set d k v)).
  reflexivity.
Qed.

(** C8: a text without a start marker (so, a text without any marker)
    is returned unchanged by [extract_doc_comment], which prints its
    warning; the merge and the recording of the patch entry for that
    method still take place, after the second warning of the driver. *)
Theorem passthrough_without_markers (text : str) :
  ~ Spec.contains text Spec.START ->
  Llm.extract_doc_comment text = (text, [ExtractWarning])
  /\ forall a w i node rest d ev,
      Spec.sent_to_model a w i node = true ->
      Llm.generate_doc_comment (App.is_deepseek a) (App.backend w i)
      = (Some text, ev) ->
      let source := App.method_source_code node in
      let merged_code := Llm.insert_doc_comment source text in
      fst (App.process_node a w i node) = App.Recorded source merged_code
      /\ In ExtractWarning (snd (App.process_node a w i node))
      /\ In (NotStandardWarning (App.name node))
            (snd (App.process_node a w i node))
      /\ fst (App.method_loop a w i (node :: rest) d)
         = fst (App.method_loop a w (S i) rest
                                (App.dict_set d source merged_code)).
Proof.
  intros H. pose proof (extract_doc_comment_passthrough text H) as P.
  split; [exact P|].
  intros a w i node rest d ev S G source merged_code.
  assert (N : Py.startswith (Py.strip text) (lit "/**") = false).
  { apply startswith_false. intros [t E]. apply H.
    apply contains_trans with (b := Py.strip text); [apply strip_contains|].
    exists [], t. exact E. }
  assert (R : App.process_node a w i node
              = (App.Recorded source merged_code,
                 (if App.guided a then [AskGenerate (App.name node)] else [])
                 ++ ev ++ [RawOutput text] ++ [ExtractWarning]
                 ++ [NotStandardWarning (App.name node)]
                 ++ [Generated (App.name node)])).
  { rewrite (sent_to_model_process _ _ _ _ S). cbv zeta. rewrite G, P.
    cbn [fst snd]. rewrite N. reflexivity. }
  repeat split.
  - rewrite R. reflexivity.
  - rewrite R. cbn [snd]. rewrite !in_app_iff. cbn [In]. tauto.
  - rewrite R. cbn [snd]. rewrite !in_app_iff. cbn [In]. tauto.
  - rewrite (method_loop_recorded a w i node rest d source merged_code);
      [reflexivity | rewrite R; reflexivity].
Qed.

Lemma passthrough_without_markers_witness :
  Llm.extract_doc_comment (lit "no comment") = (lit "no comment", [ExtractWarning])
  /\ fst (App.process_node
            Examples.plain_args
            (Examples.world (fun _ => Reply (lit "no comment")))
            0 Examples.method_f)
     = App.Recorded (lit "void f() {}")
                    (lit "no comment" ++ [LF] ++ lit "void f() {}").
Proof.
  assert (H : ~ Spec.contains (lit "no comment") Spec.START).
  { apply find_nat_none. reflexivity. }
  destruct (passthrough_without_markers (lit "no comment") H) as [P Q].
  split; [exact P|].
  apply (Q Examples.plain_args
           (Examples.world (fun _ => Reply (lit "no comment")))
           0 Examples.method_f [] [] []); reflexivity.
Defined.

(** *** The dict *)

Lemma dict_get_set_same (d : App.dict) (k v : str) :
  App.dict_get (App.dict_set d k v) k = Some v.
Proof.
  induction d as [|[k' v'] d IH]; cbn [App.dict_set App.dict_get].
  - now rewrite str_eqb_refl.
  - destruct (Py.str_eqb k' k) eqn:E; cbn [App.dict_get]; rewrite E; auto.
Qed.

Lemma dict_get_set_other (d : App.dict) (k k' v : str) :
  k <> k' -> App.dict_get (App.dict_set d k v) k' = App.dict_get d k'.
Proof.
  intros N. induction d as [|[k0 v0] d IH]; cbn [App.dict_set App.dict_get].
  - apply str_eqb_neq in N. now rewrite N.
  - destruct (Py.str_eqb k0 k) eqn:E; cbn [App.dict_get].
    + apply str_eqb_eq in E. subst k0.
      apply str_eqb_neq in N. now rewrite N.
    + rewrite IH. reflexivity.
Qed.

Lemma keys_dict_set (d : App.dict) (k v x : str) :
  In x (map fst (App.dict_set d k v)) <-> x = k \/ In x (map fst d).
Proof.
  induction d as [|[k0 v0] d IH]; cbn [App.dict_set map fst In].
  - intuition.
  - destruct (Py.str_eqb k0 k) eqn:E; cbn [map fst In].
    + apply str_eqb_eq in E. subst k0. intuition.
    + rewrite IH. intuition.
Qed.

Lemma NoDup_dict_set (d : App.dict) (k v : str) :
  NoDup (map fst d) -> NoDup (map fst (App.dict_set d k v)).
Proof.
  induction d as [|[k0 v0] d IH]; cbn [App.dict_set map fst]; intros H.
  - constructor; [intros [] | constructor].
  - inversion H as [|? ? N1 N2]; subst.
    destruct (Py.str_eqb k0 k) eqn:E; cbn [map fst].
    + now constructor.
    + constructor; [|auto]. rewrite keys_dict_set. intros [-> | I]; [|auto].
      rewrite str_eqb_refl in E. discriminate.
Qed.

Lemma dict_get_one_entry (d : App.dict) (k v : str) :
  NoDup (map fst d) -> App.dict_get d k = Some v -> Spec.one_entry d k v.
Proof.
  induction d as [|[k0 v0] d IH]; cbn [App.dict_get map fst]; intros N G.
  - discriminate.
  - inversion N as [|? ? N1 N2]; subst.
    destruct (Py.str_eqb k0 k) eqn:E.
    + apply str_eqb_eq in E. subst k0. inversion G; subst.
      exists [], d. repeat split; auto.
    + destruct (IH N2 G) as [d1 [d2 [-> [I1 I2]]]].
      exists ((k0, v0) :: d1), d2. repeat split; auto.
      cbn [map fst In]. intros [-> | I]; [|auto].
      rewrite str_eqb_refl in E. discriminate.
Qed.

Lemma fold_apply_turn (ts : list (App.turn * list event)) :
  forall d, NoDup (map fst d) ->
    NoDup (map fst (fold_left Spec.apply_turn ts d))
    /\ forall k, App.dict_get (fold_left Spec.apply_turn ts d) k
                 = match Spec.last_recorded k ts with
                   | Some v => Some v
                   | None => App.dict_get d k
                   end.
Proof.
  induction ts as [|t ts IH]; intros d N; cbn [fold_left Spec.last_recorded].
  - auto.
  - assert (N' : NoDup (map fst (Spec.apply_turn d t))).
    { unfold Spec.apply_turn. destruct (fst t); auto using NoDup_dict_set. }
    destruct (IH _ N') as [N2 G]. split; [exact N2|].
    intros k. rewrite G. destruct (Spec.last_recorded k ts); [reflexivity|].
    unfold Spec.apply_turn. destruct (fst t) as [|k' v|]; try reflexivity.
    destruct (Py.str_eqb k' k) eqn:E.
    + apply str_eqb_eq in E. subst. apply dict_get_set_same.
    + apply str_eqb_neq in E. now apply dict_get_set_other.
Qed.

Lemma method_loop_turns (a : App.Args) (w : App.World)
      (nodes : list App.TreesitterMethodNode) :
  forall i d,
    (forall t, In t (Spec.turns a w i nodes) -> fst t <> App.Aborted) ->
    App.method_loop a w i nodes d
    = (Some (fold_left Spec.apply_turn (Spec.turns a w i nodes) d),
       flat_map snd (Spec.turns a w i nodes)).
Proof.
  induction nodes as [|node rest IH]; intros i d H;
    cbn [App.method_loop Spec.turns fold_left flat_map].
  - reflexivity.
  - assert (H' : forall t, In t (Spec.turns a w (S i) rest) ->
                           fst t <> App.Aborted).
    { intros t I. apply H. cbn [Spec.turns]. now right. }
    specialize (H (App.process_node a w i node) (or_introl eq_refl)).
    unfold Spec.apply_turn at 2.
    destruct (App.process_node a w i node) as [[|k v|] ev]; cbn [fst snd] in *.
    + rewrite (IH (S i) d H'). reflexivity.
    + rewrite (IH (S i) _ H'). reflexivity.
    + exfalso. now apply H.
Qed.

Lemma turns_nth (a : App.Args) (w : App.World)
      (nodes : list App.TreesitterMethodNode) :
  forall i n,
    nth_error (Spec.turns a w i nodes) n
    = option_map (App.process_node a w (i + n)) (nth_error nodes n).
Proof.
  induction nodes as [|node rest IH]; intros i [|n]; cbn; try reflexivity.
  - now rewrite Nat.add_0_r.
  - rewrite IH. now rewrite Nat.add_succ_r.
Qed.

Lemma last_recorded_none (k : str) (ts : list (App.turn * list event)) :
  (forall idx t v, nth_error ts idx = Some t -> fst t <> App.Recorded k v) ->
  Spec.last_recorded k ts = None.
Proof.
  induction ts as [|t ts IH]; intros L; cbn [Spec.last_recorded].
  - reflexivity.
  - rewrite IH by (intros idx t0 v0 N; apply (L (S idx) t0 v0 N)).
    destruct (fst t) as [|k' v'|] eqn:F; try reflexivity.
    destruct (Py.str_eqb k' k) eqn:Q; [|reflexivity].
    apply str_eqb_eq in Q. subst k'. exfalso.
    apply (L 0 t v'); [reflexivity | exact F].
Qed.

Lemma last_recorded_nth (k : str) (ts : list (App.turn * list event)) :
  forall j tj vj,
    nth_error ts j = Some tj ->
    fst tj = App.Recorded k vj ->
    (forall idx t v, j < idx -> nth_error ts idx = Some t ->
                     fst t <> App.Recorded k v) ->
    Spec.last_recorded k ts = Some vj.
Proof.
  induction ts as [|t ts IH]; intros j tj vj N R L.
  - destruct j; discriminate.
  - cbn [Spec.last_recorded]. destruct j as [|j]; cbn in N.
    + inversion N; subst t.
      rewrite last_recorded_none, R, str_eqb_refl; [reflexivity|].
      intros idx t0 v0 N0. apply (L (S idx) t0 v0); [lia | exact N0].
    + rewrite (IH j tj vj N R); [reflexivity|].
      intros idx t0 v0 Hlt N0. apply (L (S idx) t0 v0); [lia | exact N0].
Qed.

Lemma process_node_key (a : App.Args) (w : App.World) (i : nat)
      (node : App.TreesitterMethodNode) (k v : str) :
  fst (App.process_node a w i node) = App.Recorded k v ->
  k = App.method_source_code node.
Proof.
  unfold App.process_node.
  destruct (App.opt_truthy _); [discriminate|].
  destruct (_ && _)%bool; [discriminate|].
  destruct (_ && _)%bool; [discriminate|].
  destruct (Llm.generate_doc_comment _ _) as [[doc|] ev]; [|discriminate].
  destruct (Llm.extract_doc_comment doc) as [c ev2]. cbn [fst].
  intros E. inversion E. reflexivity.
Qed.

(** ** The patch set *)

(** C9: when two processed methods have the same source text (and no
    later method has it), [generated_doc_comments] ends with exactly one
    entry under that key, holding the merged text computed for the later
    of the two; the loop runs to its end and prints what the turns print
    one after the other, nothing more. *)
Theorem last_writer_wins
        (a : App.Args) (w : App.World) (nodes : list App.TreesitterMethodNode)
        (i j : nat) (ni nj : App.TreesitterMethodNode) (k vi vj : str) :
  (forall idx n, nth_error nodes idx = Some n ->
                 fst (App.process_node a w idx n) <> App.Aborted) ->
  i < j ->
  nth_error nodes i = Some ni ->
  nth_error nodes j = Some nj ->
  fst (App.process_node a w i ni) = App.Recorded k vi ->
  fst (App.process_node a w j nj) = App.Recorded k vj ->
  (forall idx n v, j < idx -> nth_error nodes idx = Some n ->
                   fst (App.process_node a w idx n) <> App.Recorded k v) ->
  k = App.method_source_code ni /\ k = App.method_source_code nj
  /\ exists d,
      App.method_loop a w 0 nodes []
      = (Some d, flat_map snd (Spec.turns a w 0 nodes))
      /\ Spec.one_entry d k vj.
Proof.
  intros NA Hij Ni Nj Ri Rj L.
  split; [eapply process_node_key; eauto|].
  split; [eapply process_node_key; eauto|].
  eexists. split.
  - apply method_loop_turns. intros t I.
    apply In_nth_error in I. destruct I as [idx I].
    rewrite turns_nth in I. destruct (nth_error nodes idx) as [n|] eqn:E;
      [|discriminate].
    cbn in I. inversion I. apply (NA idx n E).
  - assert (ND : NoDup (map fst (@nil (str * str)))) by constructor.
    destruct (fold_apply_turn (Spec.turns a w 0 nodes) [] ND) as [N G].
    apply dict_get_one_entry; [exact N|]. rewrite G.
    rewrite (last_recorded_nth k _ j (App.process_node a w j nj) vj);
      [reflexivity | | exact Rj |].
    + rewrite turns_nth, Nj. reflexivity.
    + intros idx t v Hlt I. rewrite turns_nth in I.
      destruct (nth_error nodes idx) as [n|] eqn:E; [|discriminate].
      cbn in I. inversion I. apply (L idx n v Hlt E).
Qed.

Lemma last_writer_wins_witness :
  exists d,
    App.method_loop
      Examples.plain_args
      (Examples.world (fun i => match i with
                                | 0 => Reply (lit "/** one */")
                                | _ => Reply (lit "/** two */")
                                end))
      0 [Examples.method_f; Examples.method_f] []
    = (Some d,
       [RawOutput (lit "/** one */"); Generated (lit "f");
        RawOutput (lit "/** two */"); Generated (lit "f")])
    /\ Spec.one_entry d (lit "void f() {}")
                      (lit "/** two */" ++ [LF] ++ lit "void f() {}").
Proof.
  refine (proj2 (proj2
    (last_writer_wins
       Examples.plain_args
       (Examples.world (fun i => match i with
                                 | 0 => Reply (lit "/** one */")
                                 | _ => Reply (lit "/** two */")
                                 end))
       [Examples.method_f; Examples.method_f] 0 1
       Examples.method_f Examples.method_f
       (lit "void f() {}")
       (lit "/** one */" ++ [LF] ++ lit "void f() {}")
       (lit "/** two */" ++ [LF] ++ lit "void f() {}")
       _ _ eq_refl eq_refl eq_refl eq_refl _))).
  - intros [|[|[|idx]]] n E; cbn in E; inversion E; subst; discriminate.
  - lia.
  - intros [|[|[|idx]]] n v Hlt E; cbn in E; try lia; discriminate.
Defined.

(** ** Failure of the backend call *)

Lemma failure_deepseek (r : backend_reply) :
  Spec.failure r ->
  exists ev, Llm.generate_doc_comment true r = (Some [], ev)
             /\ In DeepseekFailed ev.
Proof.
  intros [-> | [body ->]]; cbn; eexists; split; try reflexivity;
    cbn; tauto.
Qed.

Lemma failure_chain (r : backend_reply) :
  Spec.failure r -> Llm.generate_doc_comment false r = (None, []).
Proof. intros [-> | [body ->]]; reflexivity. Qed.

(** C4, as the code has it: when the call of the model backend fails
    for a method that was sent to it, the Deepseek wrapper prints the
    failure and returns the empty string, from which the driver still
    records a patch entry under the source text of the method, made of a
    newline and that source text, and goes on with the next method; with
    any other backend the exception leaves the loop. *)
Theorem failed_call_outcome
        (a : App.Args) (w : App.World) (i : nat)
        (node : App.TreesitterMethodNode)
        (rest : list App.TreesitterMethodNode) (d : App.dict) :
  Spec.sent_to_model a w i node = true ->
  Spec.failure (App.backend w i) ->
  let source := App.method_source_code node in
  (App.is_deepseek a = true ->
   fst (App.process_node a w i node) = App.Recorded source ([LF] ++ source)
   /\ In DeepseekFailed (snd (App.process_node a w i node))
   /\ fst (App.method_loop a w i (node :: rest) d)
      = fst (App.method_loop a w (S i) rest
                             (App.dict_set d source ([LF] ++ source))))
  /\ (App.is_deepseek a = false ->
      fst (App.method_loop a w i (node :: rest) d) = None).
Proof.
  intros S F source. pose proof (sent_to_model_process _ _ _ _ S) as P.
  cbv zeta in P. split; intros D; rewrite D in P.
  - destruct (failure_deepseek _ F) as [ev [G I]]. rewrite G in P.
    assert (R : fst (App.process_node a w i node)
                = App.Recorded source ([LF] ++ source))
      by (rewrite P; reflexivity).
    repeat split.
    + exact R.
    + rewrite P. cbn [snd]. rewrite !in_app_iff. tauto.
    + rewrite (method_loop_recorded _ _ _ _ _ _ _ _ R). reflexivity.
  - rewrite (failure_chain _ F) in P. cbn [App.method_loop]. rewrite P.
    reflexivity.
Qed.

Lemma failed_call_outcome_witness :
  fst (App.process_node Examples.deepseek_args
                        (Examples.world (fun _ => CallRaised))
                        0 Examples.method_f)
  = App.Recorded (lit "void f() {}") ([LF] ++ lit "void f() {}")
  /\ fst (App.method_loop Examples.plain_args
                          (Examples.world (fun _ => CallRaised))
                          0 [Examples.method_f; Examples.method_g] [])
     = None.
Proof.
  split.
  - refine (proj1 (proj1
      (failed_call_outcome
         Examples.deepseek_args (Examples.world (fun _ => CallRaised))
         0 Examples.method_f [] [] eq_refl (or_introl eq_refl)) eq_refl)).
  - refine (proj2
      (failed_call_outcome
         Examples.plain_args (Examples.world (fun _ => CallRaised))
         0 Examples.method_f [Examples.method_g] [] eq_refl
         (or_introl eq_refl)) eq_refl).
Defined.

(** The wording of C4 fails: with the Deepseek wrapper a method whose
    call failed still gets an entry under its source text. *)
Lemma failed_call_still_recorded :
  ~ (forall (a : App.Args) (w : App.World) (node : App.TreesitterMethodNode),
        Spec.sent_to_model a w 0 node = true ->
        Spec.failure (App.backend w 0) ->
        exists d,
          fst (App.method_loop a w 0 [node] []) = Some d
          /\ App.dict_get d (App.method_source_code node) = None).
Proof.
  intros H.
  destruct (H Examples.deepseek_args (Examples.world (fun _ => CallRaised))
              Examples.method_f eq_refl (or_introl eq_refl)) as [d [E G]].
  vm_compute in E. inversion E; subst d. vm_compute in G. discriminate.
Qed.

(** ** Literal replacement *)

Lemma Replaced_cons (old new : str) (c : ascii) (s r : str) :
  Py.startswith (c :: s) old = false ->
  Spec.Replaced old new s r ->
  Spec.Replaced old new (c :: s) (c :: r).
Proof.
  intros N R. apply startswith_false in N.
  destruct R as [s H | gap rest rest' [[tail E] F] R].
  - apply Spec.Replaced_done. rewrite contains_cons. tauto.
  - change (c :: gap ++ old ++ rest) with ((c :: gap) ++ old ++ rest).
    change (c :: gap ++ new ++ rest') with ((c :: gap) ++ new ++ rest').
    apply Spec.Replaced_next; [|exact R]. split; [eauto|].
    intros pre' post' E'. destruct pre' as [|d pre'].
    + exfalso. apply N. exists post'. exact E'.
    + simpl in E'. inversion E'; subst d. simpl. apply le_n_S.
      eapply F; eauto.
Qed.

Lemma replace_fuel_Replaced (old new : str) :
  old <> [] ->
  forall fuel s, length s <= fuel ->
                 Spec.Replaced old new s (Py.replace_fuel fuel old new s).
Proof.
  intros N. induction fuel as [|fuel IH]; intros s L.
  - destruct s; [|simpl in L; lia]. cbn. apply Spec.Replaced_done.
    intros [pre [post E]]. destruct pre; [|discriminate].
    destruct old; [congruence | discriminate].
  - cbn [Py.replace_fuel]. destruct (Py.startswith s old) eqn:P.
    + apply startswith_iff in P. destruct P as [rest ->].
      rewrite skipn_app, skipn_all, Nat.sub_diag. cbn [skipn app].
      apply (Spec.Replaced_next old new [] rest).
      * split; [exists rest; reflexivity | intros; simpl; lia].
      * apply IH. rewrite length_app in L.
        destruct old; [congruence | simpl in L; lia].
    + destruct s as [|c s].
      * apply Spec.Replaced_done. intros [pre [post E]].
        destruct pre; [|discriminate].
        destruct old; [congruence | discriminate].
      * apply Replaced_cons; [exact P|]. apply IH. simpl in L. lia.
Qed.

Lemma replace_Replaced (s old new : str) :
  old <> [] -> Spec.Replaced old new s (Py.replace s old new).
Proof.
  intros N. unfold Py.replace. destruct old as [|x old]; [congruence|].
  now apply replace_fuel_Replaced.
Qed.

Lemma replace_fuel_none (old new : str) :
  forall fuel s, ~ Spec.contains s old -> Py.replace_fuel fuel old new s = s.
Proof.
  induction fuel as [|fuel IH]; intros s H; cbn [Py.replace_fuel];
    [reflexivity|].
  destruct (Py.startswith s old) eqn:P.
  - exfalso. apply H. apply startswith_iff in P. destruct P as [t ->].
    exists [], t. reflexivity.
  - destruct s as [|c s]; [reflexivity|]. f_equal. apply IH.
    intros C. apply H. apply contains_cons. now right.
Qed.

Lemma replace_fuel_gap (old new : str) (gap rest : str) :
  old <> [] ->
  Spec.first_at (gap ++ old ++ rest) old gap ->
  forall fuel, length (gap ++ old ++ rest) <= fuel ->
    Py.replace_fuel fuel old new (gap ++ old ++ rest)
    = gap ++ new ++ Py.replace_fuel (fuel - length gap - 1) old new rest.
Proof.
  intros N. induction gap as [|c gap IH]; intros [_ F] fuel L.
  - destruct fuel as [|fuel].
    + rewrite length_app in L. destruct old; [congruence | simpl in L; lia].
    + cbn [app Py.replace_fuel]. rewrite startswith_app.
      rewrite skipn_app, skipn_all, Nat.sub_diag. cbn [skipn app length].
      replace (S fuel - 0 - 1) with fuel by lia. reflexivity.
  - destruct fuel as [|fuel]; [simpl in L; lia|].
    cbn [app Py.replace_fuel].
    assert (P : Py.startswith (c :: gap ++ old ++ rest) old = false).
    { apply startswith_false. intros [t E].
      specialize (F [] t E). simpl in F. lia. }
    rewrite P. f_equal. rewrite IH.
    + reflexivity.
    + split; [eauto|]. intros pre' post' E.
      specialize (F (c :: pre') post'). simpl in F.
      rewrite E in F. specialize (F eq_refl). lia.
    + simpl in L. lia.
Qed.

(** The relation determines the result. *)
Lemma Replaced_replace_fuel (old new s r : str) :
  old <> [] ->
  Spec.Replaced old new s r ->
  forall fuel, length s <= fuel -> Py.replace_fuel fuel old new s = r.
Proof.
  intros N. induction 1 as [s H | gap rest rest' FA R IH]; intros fuel L.
  - now apply replace_fuel_none.
  - rewrite replace_fuel_gap by assumption. f_equal. f_equal. apply IH.
    rewrite !length_app in L. destruct old; [congruence | simpl in L; lia].
Qed.

Lemma Replaced_unique (old new s r : str) :
  old <> [] -> Spec.Replaced old new s r -> r = Py.replace s old new.
Proof.
  intros N R. unfold Py.replace. destruct old as [|x old]; [congruence|].
  symmetry. eapply Replaced_replace_fuel; eauto.
Qed.

(** No occurrence of the old text lies inside a gap. *)
Lemma first_at_gap (text sub gap : str) :
  sub <> [] -> Spec.first_at text sub gap -> ~ Spec.contains gap sub.
Proof.
  intros N [[tail E] F] [pre [post G]].
  rewrite G, <- !app_assoc in E. specialize (F _ _ E).
  rewrite G, !length_app in F. destruct sub; [congruence | simpl in F; lia].
Qed.

(** ** Soundness of the matcher *)

Lemma star_greedy_sound {A : Type} (cls : ascii -> bool)
      (k : option ascii -> str -> option A) (s : str) :
  forall p x,
    Re.star_greedy cls p s k = Some x ->
    exists w s' p', s = w ++ s' /\ Spec.all_in cls w /\ k p' s' = Some x.
Proof.
  induction s as [|c s IH]; intros p x; cbn [Re.star_greedy].
  - intros H. exists [], [], p. repeat split; [constructor | exact H].
  - destruct (cls c) eqn:C.
    + destruct (Re.star_greedy cls (Some c) s k) as [y|] eqn:G.
      * intros [= <-]. destruct (IH _ _ G) as [w [s' [p' [E [F K]]]]].
        exists (c :: w), s', p'. repeat split;
          [simpl; now f_equal | now constructor | exact K].
      * intros H. exists [], (c :: s), p.
        repeat split; [constructor | exact H].
    + intros H. exists [], (c :: s), p.
      repeat split; [constructor | exact H].
Qed.

Lemma star_lazy_sound {A : Type} (cls : ascii -> bool)
      (k : option ascii -> str -> option A) (s : str) :
  forall p x,
    Re.star_lazy cls p s k = Some x ->
    exists w s' p', s = w ++ s' /\ Spec.all_in cls w /\ k p' s' = Some x.
Proof.
  induction s as [|c s IH]; intros p x; cbn [Re.star_lazy].
  - destruct (k p []) eqn:K; [|discriminate]. intros [= <-].
    exists [], [], p. repeat split; [constructor | exact K].
  - destruct (k p (c :: s)) eqn:K.
    + intros [= <-]. exists [], (c :: s), p.
      repeat split; [constructor | exact K].
    + destruct (cls c) eqn:C; [|discriminate]. intros G.
      destruct (IH _ _ G) as [w [s' [p' [E [F K']]]]].
      exists (c :: w), s', p'. repeat split;
        [simpl; now f_equal | now constructor | exact K'].
Qed.

Lemma one_sound {A : Type} (cls : ascii -> bool)
      (k : option ascii -> str -> option A) (s : str) (x : A) :
  Re.one cls s k = Some x ->
  exists c s', s = c :: s' /\ cls c = true /\ k (Some c) s' = Some x.
Proof.
  unfold Re.one. destruct s as [|c s]; [discriminate|].
  destruct (cls c) eqn:C; [|discriminate]. eauto.
Qed.

(** Whatever the matcher accepts, it hands to its continuation the text
    left after a word of the pattern's language. *)
Lemma run_sound {A : Type} (r : Re.regex) :
  forall prev s g (k : option ascii -> str -> Re.groups -> option A) x,
    Re.run r prev s g k = Some x ->
    exists w s' p' g',
      s = w ++ s' /\ Spec.Lang r w /\ k p' s' g' = Some x.
Proof.
  induction r as [l | | r1 IH1 r2 IH2 | r1 IH1 | cls | cls | cls | cls
                  | n r1 IH1];
    intros prev s g k x; cbn [Re.run Spec.Lang].
  - destruct (Re.eat l prev s) as [[p' s']|] eqn:E; [|discriminate].
    apply eat_some in E. destruct E as [-> _]. intros K.
    exists l, s', p', g. auto.
  - destruct (Re.at_bol prev); [|discriminate]. intros K.
    exists [], s, prev, g. auto.
  - intros H. destruct (IH1 _ _ _ _ _ H) as [w1 [s1 [p1 [g1 [E1 [L1 K1]]]]]].
    destruct (IH2 _ _ _ _ _ K1) as [w2 [s2 [p2 [g2 [E2 [L2 K2]]]]]].
    exists (w1 ++ w2), s2, p2, g2. repeat split.
    + rewrite E1, E2, app_assoc. reflexivity.
    + exists w1, w2. auto.
    + exact K2.
  - destruct (Re.run r1 prev s g k) as [y|] eqn:R.
    + intros [= <-]. destruct (IH1 _ _ _ _ _ R) as [w [s' [p' [g' [E [L K]]]]]].
      exists w, s', p', g'. auto.
    + intros K. exists [], s, prev, g. auto.
  - intros H. destruct (star_greedy_sound _ _ _ _ _ H) as [w [s' [p' [E [F K]]]]].
    exists w, s', p', g. auto.
  - intros H. destruct (one_sound _ _ _ _ H) as [c [s1 [E1 [C K1]]]].
    destruct (star_greedy_sound _ _ _ _ _ K1) as [w [s' [p' [E [F K]]]]].
    exists (c :: w), s', p', g. repeat split.
    + rewrite E1, E. reflexivity.
    + discriminate.
    + now constructor.
    + exact K.
  - intros H. destruct (star_lazy_sound _ _ _ _ _ H) as [w [s' [p' [E [F K]]]]].
    exists w, s', p', g. auto.
  - intros H. destruct (one_sound _ _ _ _ H) as [c [s1 [E1 [C K1]]]].
    destruct (star_lazy_sound _ _ _ _ _ K1) as [w [s' [p' [E [F K]]]]].
    exists (c :: w), s', p', g. repeat split.
    + rewrite E1, E. reflexivity.
    + discriminate.
    + now constructor.
    + exact K.
  - intros H. destruct (IH1 _ _ _ _ _ H) as [w [s' [p' [g' [E [L K]]]]]].
    exists w, s', p', ((n, firstn (length s - length s') s) :: g'). auto.
Qed.

Lemma firstn_consumed (w s' : str) :
  firstn (length (w ++ s') - length s') (w ++ s') = w.
Proof.
  rewrite length_app. replace (length w + length s' - length s')
    with (length w) by lia.
  rewrite firstn_app, firstn_all, Nat.sub_diag, firstn_0. apply app_nil_r.
Qed.

Lemma match_at_sound (r : Re.regex) (prev : option ascii) (s : str) m :
  Re.match_at r prev s = Some m ->
  s = Re.m_text m ++ Re.m_rest m /\ Spec.Lang r (Re.m_text m).
Proof.
  unfold Re.match_at. intros H.
  destruct (run_sound _ _ _ _ _ _ H) as [w [s' [p' [g' [E [L K]]]]]].
  inversion K; subst m; cbn [Re.m_text Re.m_rest]. subst s.
  rewrite firstn_consumed. auto.
Qed.

Lemma search_at_sound (r : Re.regex) (s : str) :
  forall prev gap m,
    Re.search_at r prev s = Some (gap, m) ->
    s = gap ++ Re.m_text m ++ Re.m_rest m /\ Spec.Lang r (Re.m_text m).
Proof.
  induction s as [|c s IH]; intros prev gap m; cbn [Re.search_at].
  - destruct (Re.match_at r prev []) as [m'|] eqn:M; [|discriminate].
    intros [= <- <-]. now apply match_at_sound in M.
  - destruct (Re.match_at r prev (c :: s)) as [m'|] eqn:M.
    + intros [= <- <-]. now apply match_at_sound in M.
    + destruct (Re.search_at r (Some c) s) as [[gap' m']|] eqn:S;
        [|discriminate].
      intros [= <- <-]. destruct (IH _ _ _ S) as [E L].
      split; [simpl; now f_equal | exact L].
Qed.

(** ** The matcher on well-formed input *)

(** A greedy run that can take exactly [w] and whose continuation
    accepts what follows gives that result. *)
Lemma star_greedy_max {A : Type} (cls : ascii -> bool)
      (k : option ascii -> str -> option A) (w s : str) (r : A) :
  forall p,
    Spec.all_in cls w -> Spec.head_not cls s ->
    k (after w p) s = Some r ->
    Re.star_greedy cls p (w ++ s) k = Some r.
Proof.
  induction w as [|c w IH]; intros p F H K.
  - cbn [app]. destruct s as [|d s]; cbn [Re.star_greedy]; [exact K|].
    cbn in H. rewrite H. exact K.
  - inversion F as [|? ? C F']; subst. cbn [app Re.star_greedy].
    rewrite C, (IH (Some c) F' H K). reflexivity.
Qed.

(** A lazy run over any characters, followed by a literal, stops at the
    first occurrence of the literal if the continuation accepts there. *)
Lemma star_lazy_any_eat {A : Type} (l : str)
      (k : str -> option ascii -> str -> option A) (s : str) (r : A) :
  l <> [] ->
  forall p j,
    Py.find_nat s l = Some j ->
    k (skipn j s) (after l None) (skipn (j + length l) s) = Some r ->
    Re.star_lazy Re.any p s
      (fun p2 s2 => match Re.eat l p2 s2 with
                    | Some (p3, s3) => k s2 p3 s3
                    | None => None
                    end) = Some r.
Proof.
  intros N. destruct l as [|x l]; [congruence|]. clear N.
  induction s as [|c s IH]; intros p j F K.
  - cbn in F. discriminate.
  - cbn [Py.find_nat] in F. cbn [Re.star_lazy].
    destruct (Py.startswith (c :: s) (x :: l)) eqn:P.
    + inversion F; subst j. apply startswith_iff in P. destruct P as [t E].
      rewrite E in *. rewrite eat_app.
      cbn [skipn Nat.add] in K.
      rewrite skipn_app, skipn_all, Nat.sub_diag in K. cbn [skipn app] in K.
      change (k ((x :: l) ++ t) (after (x :: l) p) t)
        with (k (x :: l ++ t) (after (x :: l) None) t).
      rewrite K. reflexivity.
    + rewrite (proj2 (eat_none _ p _) P).
      destruct (Py.find_nat s (x :: l)) as [j'|] eqn:F'; [|discriminate].
      cbn in F. inversion F; subst j. unfold Re.any at 1.
      apply (IH (Some c) j' eq_refl). exact K.
Qed.

Lemma run_fence_body {A : Type} (p : option ascii) (g : Re.groups)
      (k : option ascii -> str -> Re.groups -> option A) (r : A)
      (c : ascii) (inner' post : str) :
  Spec.first_at (inner' ++ Llm.FENCE ++ post) Llm.FENCE inner' ->
  k (Some BACKTICK) post ((2, c :: inner') :: g) = Some r ->
  Re.run (Re.Cat (Re.Group 2 (Re.PlusLazy Re.any)) (Re.Lit Llm.FENCE))
         p ((c :: inner') ++ Llm.FENCE ++ post) g k = Some r.
Proof.
  intros [_ F] K. cbn [Re.run app Re.one]. unfold Re.any at 1.
  refine (star_lazy_any_eat Llm.FENCE
            (fun s2 p3 s3 =>
               k p3 s3
                 ((2, firstn (length (c :: inner' ++ Llm.FENCE ++ post)
                              - length s2)
                             (c :: inner' ++ Llm.FENCE ++ post)) :: g))
            _ r _ (Some c) (length inner') _ _).
  - discriminate.
  - apply find_nat_here. exact F.
  - assert (S1 : skipn (length inner') (inner' ++ Llm.FENCE ++ post)
                 = Llm.FENCE ++ post).
    { rewrite skipn_app, skipn_all, Nat.sub_diag. reflexivity. }
    assert (S2 : skipn (length inner' + length Llm.FENCE)
                       (inner' ++ Llm.FENCE ++ post) = post).
    { rewrite skipn_app, skipn_all2 by lia.
      replace (length inner' + length Llm.FENCE - length inner')
        with (length Llm.FENCE) by lia.
      rewrite skipn_app, skipn_all, Nat.sub_diag. reflexivity. }
    rewrite S1, S2.
    change (c :: inner' ++ Llm.FENCE ++ post)
      with ((c :: inner') ++ Llm.FENCE ++ post).
    rewrite firstn_consumed. exact K.
Qed.

Lemma run_fence_nl {A : Type} (p : option ascii) (g : Re.groups)
      (k : option ascii -> str -> Re.groups -> option A) (r : A)
      (nl : str) (c : ascii) (inner' post : str) :
  nl = [LF] \/ (nl = [] /\ c <> LF) ->
  Spec.first_at (inner' ++ Llm.FENCE ++ post) Llm.FENCE inner' ->
  k (Some BACKTICK) post ((2, c :: inner') :: g) = Some r ->
  Re.run (Re.Cat (Re.Opt (Re.Lit [LF]))
                 (Re.Cat (Re.Group 2 (Re.PlusLazy Re.any))
                         (Re.Lit Llm.FENCE)))
         p (nl ++ (c :: inner') ++ Llm.FENCE ++ post) g k = Some r.
Proof.
  intros NL F K.
  pose proof (fun p' => run_fence_body p' g k r c inner' post F K) as B.
  remember (Re.Cat (Re.Group 2 (Re.PlusLazy Re.any)) (Re.Lit Llm.FENCE))
    as R3 eqn:HR3.
  remember ((c :: inner') ++ Llm.FENCE ++ post) as s3 eqn:Hs3.
  cbn [Re.run]. destruct NL as [-> | [-> N]].
  - cbn [app Re.eat]. rewrite Ascii.eqb_refl. rewrite B. reflexivity.
  - cbn [app].
    assert (E : Re.eat [LF] p s3 = None).
    { subst s3. cbn [app Re.eat]. apply not_eq_sym in N.
      apply ascii_eqb_false_iff in N. now rewrite N. }
    rewrite E. apply B.
Qed.

Lemma run_fence_tag {A : Type} (p : option ascii) (g : Re.groups)
      (k : option ascii -> str -> Re.groups -> option A) (r : A)
      (tag nl : str) (c : ascii) (inner' post : str) :
  Spec.all_in Re.is_word tag ->
  Spec.head_not Re.is_word (nl ++ c :: inner') ->
  nl = [LF] \/ (nl = [] /\ c <> LF) ->
  Spec.first_at (inner' ++ Llm.FENCE ++ post) Llm.FENCE inner' ->
  k (Some BACKTICK) post
    ((2, c :: inner') :: match tag with [] => g | _ :: _ => (1, tag) :: g end)
  = Some r ->
  Re.run (Re.Cat (Re.Opt (Re.Group 1 (Re.Plus Re.is_word)))
                 (Re.Cat (Re.Opt (Re.Lit [LF]))
                         (Re.Cat (Re.Group 2 (Re.PlusLazy Re.any))
                                 (Re.Lit Llm.FENCE))))
         p (tag ++ nl ++ (c :: inner') ++ Llm.FENCE ++ post) g k = Some r.
Proof.
  intros W H NL F K.
  assert (H2 : Spec.head_not Re.is_word
                 (nl ++ (c :: inner') ++ Llm.FENCE ++ post)).
  { destruct nl; exact H. }
  pose proof (fun p' g' K' =>
                run_fence_nl p' g' k r nl c inner' post NL F K') as B.
  remember (Re.Cat (Re.Opt (Re.Lit [LF]))
                   (Re.Cat (Re.Group 2 (Re.PlusLazy Re.any))
                           (Re.Lit Llm.FENCE))) as R2 eqn:HR2.
  remember (nl ++ (c :: inner') ++ Llm.FENCE ++ post) as s2 eqn:Hs2.
  cbn [Re.run]. destruct tag as [|t tag'].
  - cbn [app]. unfold Re.one.
    destruct s2 as [|d s2].
    + destruct nl; discriminate.
    + cbn in H2. rewrite H2. apply B. exact K.
  - apply Forall_cons_iff in W. destruct W as [T W'].
    cbn [app Re.one]. rewrite T.
    rewrite (star_greedy_max Re.is_word _ tag' s2 r (Some t) W' H2).
    + reflexivity.
    + change (t :: tag' ++ s2) with ((t :: tag') ++ s2).
      rewrite firstn_consumed. apply B. exact K.
Qed.

Lemma match_at_fenced (prev : option ascii)
      (tag nl : str) (c : ascii) (inner' post : str) :
  Spec.all_in Re.is_word tag ->
  Spec.head_not Re.is_word (nl ++ c :: inner') ->
  nl = [LF] \/ (nl = [] /\ c <> LF) ->
  Spec.first_at (inner' ++ Llm.FENCE ++ post) Llm.FENCE inner' ->
  Re.match_at Llm.FENCE_RE prev
              (Llm.FENCE ++ tag ++ nl ++ (c :: inner') ++ Llm.FENCE ++ post)
  = Some (Re.Mtch
            (Llm.FENCE ++ tag ++ nl ++ (c :: inner') ++ Llm.FENCE)
            ((2, c :: inner')
               :: match tag with [] => [] | _ :: _ => [(1, tag)] end)
            (Some BACKTICK) post).
Proof.
  intros W H NL F. unfold Re.match_at, Llm.FENCE_RE.
  change (lit "```") with Llm.FENCE.
  remember (Re.Cat (Re.Opt (Re.Group 1 (Re.Plus Re.is_word)))
                   (Re.Cat (Re.Opt (Re.Lit [LF]))
                           (Re.Cat (Re.Group 2 (Re.PlusLazy Re.any))
                                   (Re.Lit Llm.FENCE)))) as R1 eqn:HR1.
  cbn [Re.run]. rewrite eat_app. subst R1.
  apply run_fence_tag; try assumption.
  f_equal.
  replace (Llm.FENCE ++ tag ++ nl ++ (c :: inner') ++ Llm.FENCE ++ post)
    with ((Llm.FENCE ++ tag ++ nl ++ (c :: inner') ++ Llm.FENCE) ++ post)
    by (rewrite <- !app_assoc; reflexivity).
  rewrite firstn_consumed. destruct tag; reflexivity.
Qed.

(** The fuel that [scan] gives is enough: more fuel changes nothing. *)
Lemma scan_fuel_enough (r : Re.regex) (fuel1 : nat) :
  forall fuel2 prev s,
    length s < fuel1 -> length s < fuel2 ->
    Re.scan_fuel fuel1 r prev s = Re.scan_fuel fuel2 r prev s.
Proof.
  induction fuel1 as [|fuel1 IH]; intros fuel2 prev s L1 L2; [lia|].
  destruct fuel2 as [|fuel2]; [lia|]. cbn [Re.scan_fuel].
  destruct (Re.search_at r prev s) as [[gap m]|] eqn:S; [|reflexivity].
  destruct (search_at_sound _ _ _ _ _ S) as [E _].
  pose proof (f_equal (@length ascii) E) as EL. rewrite !length_app in EL.
  destruct (Re.m_text m) as [|x t].
  - destruct (Re.m_rest m) as [|c s']; [reflexivity|].
    simpl in EL. rewrite (IH fuel2 (Some c) s') by lia. reflexivity.
  - simpl in EL. rewrite (IH fuel2 (Re.m_prev m) (Re.m_rest m)) by lia.
    reflexivity.
Qed.

Lemma search_at_here (r : Re.regex) (prev : option ascii) (s : str) m :
  Re.match_at r prev s = Some m -> Re.search_at r prev s = Some ([], m).
Proof. intros H. destruct s; cbn [Re.search_at]; now rewrite H. Qed.

Lemma search_at_fenced (tag nl : str) (c : ascii) (inner' post : str) :
  Spec.all_in Re.is_word tag ->
  Spec.head_not Re.is_word (nl ++ c :: inner') ->
  nl = [LF] \/ (nl = [] /\ c <> LF) ->
  Spec.first_at (inner' ++ Llm.FENCE ++ post) Llm.FENCE inner' ->
  forall pre prev,
    Spec.first_at
      (pre ++ Llm.FENCE ++ tag ++ nl ++ (c :: inner') ++ Llm.FENCE ++ post)
      Llm.FENCE pre ->
    Re.search_at
      Llm.FENCE_RE prev
      (pre ++ Llm.FENCE ++ tag ++ nl ++ (c :: inner') ++ Llm.FENCE ++ post)
    = Some (pre,
            Re.Mtch
              (Llm.FENCE ++ tag ++ nl ++ (c :: inner') ++ Llm.FENCE)
              ((2, c :: inner')
                 :: match tag with [] => [] | _ :: _ => [(1, tag)] end)
              (Some BACKTICK) post).
Proof.
  intros W H NL F. induction pre as [|d pre IH]; intros prev [_ FA].
  - cbn [app]. apply search_at_here. now apply match_at_fenced.
  - rewrite <- app_comm_cons. cbn [Re.search_at].
    assert (M : Re.match_at Llm.FENCE_RE prev
                  (d :: pre ++ Llm.FENCE ++ tag ++ nl ++ (c :: inner')
                     ++ Llm.FENCE ++ post) = None).
    { unfold Re.match_at, Llm.FENCE_RE. cbn [Re.run].
      change (lit "```") with Llm.FENCE.
      destruct (Re.eat Llm.FENCE prev _) as [[p1 s1]|] eqn:E; [|reflexivity].
      apply eat_some in E. destruct E as [E _].
      specialize (FA [] s1 E). simpl in FA. lia. }
    rewrite M, IH; [reflexivity|].
    split; [eauto|]. intros pre' post' E.
    specialize (FA (d :: pre') post' (f_equal (cons d) E)).
    simpl in FA. lia.
Qed.

Lemma search_fence_none (text : str) :
  ~ Spec.HasFence text -> Re.search Llm.FENCE_RE text = None.
Proof.
  intros H. unfold Re.search.
  destruct (Re.search_at Llm.FENCE_RE None text) as [[gap m]|] eqn:S;
    [|reflexivity].
  exfalso. apply H. destruct (search_at_sound _ _ _ _ _ S) as [E L].
  cbn [Spec.Lang Llm.FENCE_RE] in L.
  destruct L as [w1 [w2 [E1 [L1 [wa [w3 [E2 [_ [wc [w4 [E3 [_ L4]]]]]]]]]]]].
  destruct L4 as [we [wf [E4 [[Ne _] Lf]]]].
  exists gap, (wa ++ wc ++ we), (Re.m_rest m). split.
  - destruct we; [congruence|]. intros C.
    apply app_eq_nil in C. destruct C as [_ C].
    apply app_eq_nil in C. destruct C as [_ C]. discriminate.
  - rewrite E, E1, L1, E2, E3, E4, Lf. change (lit "```") with Llm.FENCE.
    rewrite <- !app_assoc. reflexivity.
Qed.

Lemma isspace_not_word (c : ascii) :
  Py.isspace c = true -> Re.is_word c = false.
Proof.
  destruct c as [[] [] [] [] [] [] [] []]; vm_compute; congruence.
Qed.

Lemma match_lang_comment (text name rest : str) :
  Spec.LangComment text name rest ->
  Re.match_ Llm.LANG_COMMENT_RE text
  = Some (Re.Mtch text [(2, Spec.START ++ rest); (1, name)]
                  (after rest None) []).
Proof.
  intros [ws [E [N [W [B R]]]]].
  destruct name as [|t name']; [congruence|].
  destruct rest as [|r0 rest']; [congruence|].
  apply Forall_cons_iff in W. destruct W as [T W'].
  unfold Re.match_, Re.match_at, Llm.LANG_COMMENT_RE.
  cbn [Re.run]. rewrite E. cbn [app Re.one]. rewrite T.
  assert (H1 : Spec.head_not Re.is_word (ws ++ Spec.START ++ r0 :: rest')).
  { destruct ws as [|x ws]; [reflexivity|].
    apply Forall_cons_iff in B. destruct B as [X _].
    now apply isspace_not_word. }
  apply (star_greedy_max Re.is_word _ name'
                         (ws ++ Spec.START ++ r0 :: rest') _ (Some t) W' H1).
  change (t :: name' ++ ws ++ Spec.START ++ r0 :: rest')
    with ((t :: name') ++ ws ++ Spec.START ++ r0 :: rest').
  rewrite firstn_consumed.
  assert (H2 : Spec.head_not Py.isspace (Spec.START ++ r0 :: rest'))
    by reflexivity.
  apply (star_greedy_max Py.isspace _ ws (Spec.START ++ r0 :: rest') _ _ B H2).
  cbn [Spec.START lit list_ascii_of_string app Re.eat Re.one].
  rewrite !Ascii.eqb_refl. unfold Re.any at 1.
  assert (H3 : Spec.all_in Re.any rest').
  { apply Forall_forall. reflexivity. }
  rewrite <- (app_nil_r rest') at 1.
  apply (star_greedy_max Re.any _ rest' [] _ (Some r0) H3 I).
  cbn [length]. rewrite !Nat.sub_0_r. cbn [firstn].
  rewrite !firstn_all. reflexivity.
Qed.

Lemma match_lang_comment_none (text : str) :
  (forall name rest, ~ Spec.LangComment text name rest) ->
  Re.match_ Llm.LANG_COMMENT_RE text = None.
Proof.
  intros H. destruct (Re.match_ Llm.LANG_COMMENT_RE text) as [m|] eqn:M;
    [|reflexivity].
  exfalso. destruct (match_at_sound _ _ _ _ M) as [E L].
  cbn [Spec.Lang Llm.LANG_COMMENT_RE] in L.
  destruct L as [w1 [w2 [E1 [[N1 W1] [ws [w3 [E2 [B L3]]]]]]]].
  destruct L3 as [wa [w4 [E3 [La [wb [wc [E4 [Lb [Nc _]]]]]]]]].
  apply (H w1 (wc ++ Re.m_rest m)). exists ws. repeat split; auto.
  - rewrite E, E1, E2, E3, La, E4, Lb, <- !app_assoc. reflexivity.
  - destruct wc; [congruence | discriminate].
Qed.

(** ** Removal of the framing prefixes *)

Lemma star_greedy_space_all {A : Type} (k : option ascii -> str -> option A)
      (s : str) :
  (forall p' s', k p' s' <> None) ->
  forall p, exists ws,
      s = ws ++ Py.lstrip s /\ Spec.blank ws
      /\ Re.star_greedy Py.isspace p s k = k (after ws p) (Py.lstrip s).
Proof.
  intros K. induction s as [|c s IH]; intros p; cbn [Re.star_greedy Py.lstrip].
  - exists []. repeat split. constructor.
  - destruct (Py.isspace c) eqn:C.
    + destruct (IH (Some c)) as [ws [E [B R]]]. exists (c :: ws).
      repeat split; [simpl; now f_equal | now constructor |].
      rewrite R. change (after (c :: ws) p) with (after ws (Some c)).
      destruct (k (after ws (Some c)) (Py.lstrip s)) eqn:Q; [reflexivity|].
      exfalso. eapply K; eauto.
    + exists []. repeat split. constructor.
Qed.

Lemma match_at_data (prev : option ascii) (s : str) :
  (exists ws rest,
      s = Spec.DATA_COLON ++ ws ++ rest
      /\ Re.at_bol prev = true /\ Spec.blank ws
      /\ Spec.head_not Py.isspace rest
      /\ Re.match_at Llm.DATA_PREFIX_RE prev s
         = Some (Re.Mtch (Spec.DATA_COLON ++ ws) []
                         (after (Spec.DATA_COLON ++ ws) prev) rest))
  \/ (Re.match_at Llm.DATA_PREFIX_RE prev s = None
      /\ (Re.at_bol prev = false
          \/ Py.startswith s Spec.DATA_COLON = false)).
Proof.
  unfold Re.match_at, Llm.DATA_PREFIX_RE. cbn [Re.run].
  change (lit "data:") with Spec.DATA_COLON.
  destruct (Re.at_bol prev) eqn:B; [|right; auto].
  destruct (Re.eat Spec.DATA_COLON prev s) as [[p1 s1]|] eqn:E.
  - left. apply eat_some in E. destruct E as [-> ->].
    destruct (star_greedy_space_all
                (fun p' s' =>
                   Some (Re.Mtch
                           (firstn (length (Spec.DATA_COLON ++ s1) - length s')
                                   (Spec.DATA_COLON ++ s1)) [] p' s'))
                s1 ltac:(discriminate) (after Spec.DATA_COLON prev))
      as [ws [E1 [Bw R]]].
    exists ws, (Py.lstrip s1).
    split; [now rewrite <- E1|].
    split; [reflexivity|].
    split; [exact Bw|].
    split; [apply lstrip_head|].
    rewrite R. f_equal. f_equal.
    remember (Py.lstrip s1) as t eqn:Ht. rewrite E1.
    rewrite app_assoc. apply firstn_consumed.
  - right. split; [reflexivity|]. right. now apply eat_none in E.
Qed.

Lemma unframed_no_match (s : str) :
  forall prev,
    Re.search_at Llm.DATA_PREFIX_RE prev s = None -> Spec.Unframed prev s s.
Proof.
  induction s as [|c s IH]; intros prev; cbn [Re.search_at].
  - intros _. constructor.
  - destruct (match_at_data prev (c :: s))
      as [[ws [rest [_ [_ [_ [_ M]]]]]] | [M N]]; rewrite M; [discriminate|].
    destruct (Re.search_at Llm.DATA_PREFIX_RE (Some c) s) as [[gap m]|] eqn:S;
      [discriminate|].
    intros _. apply Spec.Unframed_char; [exact N | now apply IH].
Qed.

Lemma unframed_match (s : str) :
  forall prev gap m,
    Re.search_at Llm.DATA_PREFIX_RE prev s = Some (gap, m) ->
    Re.m_text m <> []
    /\ forall r, Spec.Unframed (Re.m_prev m) (Re.m_rest m) r ->
                 Spec.Unframed prev s (gap ++ r).
Proof.
  induction s as [|c s IH]; intros prev gap m; cbn [Re.search_at].
  - destruct (match_at_data prev [])
      as [[ws [rest [E _]]] | [M N]]; [discriminate|].
    rewrite M. discriminate.
  - destruct (match_at_data prev (c :: s))
      as [[ws [rest [E [B [Bw [H M]]]]]] | [M N]]; rewrite M.
    + intros [= <- <-]. cbn [Re.m_prev Re.m_rest Re.m_text app].
      split; [discriminate|]. intros r U. rewrite E.
      now apply Spec.Unframed_prefix.
    + destruct (Re.search_at Llm.DATA_PREFIX_RE (Some c) s)
        as [[gap' m']|] eqn:S; [|discriminate].
      intros [= <- <-]. destruct (IH _ _ _ S) as [Nm U'].
      split; [exact Nm|]. intros r U. cbn [app].
      apply Spec.Unframed_char; [exact N | now apply U'].
Qed.

Lemma scan_data_unframed (fuel : nat) :
  forall prev s,
    length s < fuel ->
    Spec.Unframed
      prev s
      (flat_map (fun seg => fst seg ++ [])
                (fst (Re.scan_fuel fuel Llm.DATA_PREFIX_RE prev s))
       ++ snd (Re.scan_fuel fuel Llm.DATA_PREFIX_RE prev s)).
Proof.
  induction fuel as [|fuel IH]; intros prev s L; [lia|].
  cbn [Re.scan_fuel].
  destruct (Re.search_at Llm.DATA_PREFIX_RE prev s) as [[gap m]|] eqn:S.
  - destruct (search_at_sound _ _ _ _ _ S) as [E _].
    destruct (unframed_match _ _ _ _ S) as [Nm U].
    destruct (Re.m_text m) as [|x t] eqn:T; [congruence|].
    assert (Lr : length (Re.m_rest m) < fuel).
    { rewrite E, !length_app in L. simpl in L. lia. }
    specialize (IH (Re.m_prev m) (Re.m_rest m) Lr).
    destruct (Re.scan_fuel fuel Llm.DATA_PREFIX_RE (Re.m_prev m)
                           (Re.m_rest m)) as [segs t'] eqn:Sc.
    cbn [fst snd flat_map] in *. rewrite app_nil_r, <- app_assoc.
    now apply U.
  - cbn [fst snd flat_map app]. now apply unframed_no_match.
Qed.

Lemma sub_data_unframed (code : str) :
  Spec.Unframed None code (Re.sub Llm.DATA_PREFIX_RE [] code).
Proof.
  unfold Re.sub, Re.scan. apply scan_data_unframed. lia.
Qed.

Lemma clean_code_cleaned (code : str) :
  Spec.Cleaned code (Llm.clean_code code).
Proof.
  unfold Llm.clean_code. cbv zeta.
  destruct (lstrip_split
              (Re.sub Llm.DATA_PREFIX_RE []
                      (Py.replace code Llm.H_NEWLINE [LF]))) as [ws [E B]].
  exists (Py.replace code Llm.H_NEWLINE [LF]),
         (Re.sub Llm.DATA_PREFIX_RE [] (Py.replace code Llm.H_NEWLINE [LF])),
         ws.
  repeat split.
  - apply replace_Replaced. discriminate.
  - apply sub_data_unframed.
  - exact E.
  - exact B.
  - apply lstrip_head.
Qed.

(** ** The code block extractor *)

Lemma first_at_find_nat (text sub : str) (j : nat) :
  Py.find_nat text sub = Some j -> Spec.first_at text sub (firstn j text).
Proof.
  intros F. destruct (find_nat_some _ _ _ F) as [post [E [L _]]].
  split; [eauto|]. intros pre' post' E'.
  rewrite length_firstn. pose proof (find_nat_first _ _ _ F _ _ E'). lia.
Qed.

Lemma select_code_fenced (text tag inner : str) :
  Spec.Fenced text tag inner ->
  Llm.select_code text
  = (match tag with [] => Llm.JAVA | _ :: _ => tag end, inner).
Proof.
  intros [pre [nl [c [inner' [post [E [-> [FA [W [H [NL F]]]]]]]]]]].
  unfold Llm.select_code, Re.search. subst text.
  rewrite (search_at_fenced tag nl c inner' post W H NL F pre None FA).
  cbn [option_map snd Re.m_groups]. destruct tag; reflexivity.
Qed.

Lemma select_code_lang (text name rest : str) :
  ~ Spec.HasFence text ->
  Spec.LangComment text name rest ->
  Llm.select_code text = (name, Spec.START ++ rest).
Proof.
  intros NF LC. unfold Llm.select_code.
  rewrite (search_fence_none _ NF), (match_lang_comment _ _ _ LC).
  reflexivity.
Qed.

Lemma select_code_raw (text : str) :
  ~ Spec.HasFence text ->
  (forall name rest, ~ Spec.LangComment text name rest) ->
  Llm.select_code text = (Llm.JAVA, text).
Proof.
  intros NF NL. unfold Llm.select_code.
  rewrite (search_fence_none _ NF), (match_lang_comment_none _ NL).
  reflexivity.
Qed.

Lemma extract_code_block_select (text : str) :
  Llm._extract_code_block text
  = Spec.fenced (fst (Llm.select_code text))
                (Llm.clean_code (snd (Llm.select_code text))).
Proof.
  unfold Llm._extract_code_block. destruct (Llm.select_code text).
  reflexivity.
Qed.

(** What [DeepseekLLM.run] returns for a response is always the result
    of [_extract_code_block], which is never empty. *)
Lemma normalize_code_block (response_text : str) :
  Llm.normalize response_text
  = Llm._extract_code_block (Llm.merged response_text).
Proof.
  unfold Llm.normalize. rewrite extract_code_block_select. reflexivity.
Qed.

(** C5, as the code has it: [_extract_code_block] returns a fenced
    block again, made of a language tag and of the cleaned code (newline
    markers turned into newlines, then the [data:] prefixes at line starts
    removed with the whitespace after them, then the leading whitespace
    removed).  For a payload with a fenced block these are the tag of the
    block, [java] if it has none, and its inner text; without a fence, for
    a payload that starts with a language name followed by a delimited
    comment, the name and the remainder from the comment on; otherwise
    [java] and the whole payload. *)
Theorem extract_code_block_spec (text : str) :
  (forall tag inner,
      Spec.Fenced text tag inner ->
      Llm._extract_code_block text
      = Spec.fenced (match tag with [] => Llm.JAVA | _ :: _ => tag end)
                    (Llm.clean_code inner))
  /\ (~ Spec.HasFence text ->
      forall name rest,
        Spec.LangComment text name rest ->
        Llm._extract_code_block text
        = Spec.fenced name (Llm.clean_code (Spec.START ++ rest)))
  /\ (~ Spec.HasFence text ->
      (forall name rest, ~ Spec.LangComment text name rest) ->
      Llm._extract_code_block text
      = Spec.fenced Llm.JAVA (Llm.clean_code text))
  /\ (forall code, Spec.Cleaned code (Llm.clean_code code)).
Proof.
  repeat split.
  - intros tag inner F.
    rewrite extract_code_block_select, (select_code_fenced _ _ _ F).
    reflexivity.
  - intros NF name rest LC.
    rewrite extract_code_block_select, (select_code_lang _ _ _ NF LC).
    reflexivity.
  - intros NF NL.
    rewrite extract_code_block_select, (select_code_raw _ NF NL).
    reflexivity.
  - apply clean_code_cleaned.
Qed.

Lemma no_fence_marker_no_fence (text : str) :
  ~ Spec.contains text Llm.FENCE -> ~ Spec.HasFence text.
Proof.
  intros H [pre [mid [post [_ E]]]]. apply H.
  exists pre, (mid ++ Llm.FENCE ++ post). exact E.
Qed.

Lemma fenced_example :
  Spec.Fenced (lit "```java" ++ [LF] ++ lit "foo```") (lit "java") (lit "foo").
Proof.
  exists [], [LF], "f"%char, (lit "oo"), [].
  split; [reflexivity|]. split; [reflexivity|].
  split; [exact (first_at_find_nat (lit "```java" ++ [LF] ++ lit "foo```")
                                   Llm.FENCE 0 eq_refl)|].
  split; [repeat constructor|].
  split; [reflexivity|].
  split; [now left|].
  exact (first_at_find_nat (lit "oo```") Llm.FENCE 2 eq_refl).
Qed.

Lemma extract_code_block_spec_witness :
  Llm._extract_code_block (lit "```java" ++ [LF] ++ lit "foo```")
  = lit "```java" ++ [LF] ++ lit "foo" ++ [LF] ++ lit "```"
  /\ Llm._extract_code_block (lit "java /** x */")
     = lit "```java" ++ [LF] ++ lit "/** x */" ++ [LF] ++ lit "```"
  /\ Llm._extract_code_block (lit "plain")
     = lit "```java" ++ [LF] ++ lit "plain" ++ [LF] ++ lit "```".
Proof.
  split; [|split].
  - exact (proj1 (extract_code_block_spec
                    (lit "```java" ++ [LF] ++ lit "foo```"))
                 (lit "java") (lit "foo") fenced_example).
  - refine (proj1 (proj2 (extract_code_block_spec (lit "java /** x */")))
                  _ (lit "java") (lit " x */") _).
    + apply no_fence_marker_no_fence. apply find_nat_none. reflexivity.
    + exists (lit " "). split; [reflexivity|].
      split; [discriminate|]. split; [repeat constructor|].
      split; [repeat constructor | discriminate].
  - refine (proj1 (proj2 (proj2 (extract_code_block_spec (lit "plain"))))
                  _ _).
    + apply no_fence_marker_no_fence. apply find_nat_none. reflexivity.
    + intros name rest LC. apply match_lang_comment in LC.
      vm_compute in LC. discriminate.
Defined.

(** The wording of C5 fails: the result is not the inner text of the
    block but a fenced block around it. *)
Lemma extract_code_block_keeps_fence :
  ~ (forall text tag inner,
        Spec.Fenced text tag inner ->
        Llm._extract_code_block text = Llm.clean_code inner).
Proof.
  intros H. specialize (H _ _ _ fenced_example).
  vm_compute in H. discriminate.
Qed.

(* ================================================================== *)
(** * Part III: further properties of the code                         *)
(* ================================================================== *)

(** ** More on occurrences *)

Lemma contains_app_l (a b sub : str) :
  Spec.contains a sub -> Spec.contains (a ++ b) sub.
Proof.
  intros [pre [post E]]. exists pre, (post ++ b).
  rewrite E, <- !app_assoc. reflexivity.
Qed.

Lemma contains_app_r (a b sub : str) :
  Spec.contains b sub -> Spec.contains (a ++ b) sub.
Proof.
  intros [pre [post E]]. exists (a ++ pre), post.
  rewrite E, <- !app_assoc. reflexivity.
Qed.

Lemma contains_refl (s : str) : Spec.contains s s.
Proof. exists [], []. now rewrite app_nil_r. Qed.

Lemma prefix_before (u y t : str) (c : ascii) :
  forall post, u ++ c :: y = t ++ post -> ~ In c t -> exists v, u = t ++ v.
Proof.
  revert u. induction t as [|x t IH]; intros u post E N.
  - exists u. reflexivity.
  - destruct u as [|a u].
    + simpl in E. inversion E; subst. exfalso. apply N. now left.
    + simpl in E. inversion E; subst.
      destruct (IH u post H1) as [v ->]; [intros I; apply N; now right|].
      exists v. reflexivity.
Qed.

(** An occurrence of [t] cannot run over a character that [t] lacks. *)
Lemma contains_split_at (x y t : str) (c : ascii) :
  Spec.contains (x ++ c :: y) t -> ~ In c t ->
  Spec.contains x t \/ Spec.contains y t.
Proof.
  intros [pre [post E]] N. revert pre E.
  induction x as [|a x IH]; intros pre E.
  - destruct pre as [|b pre].
    + simpl in E. destruct t as [|d t]; [left; exists [], []; reflexivity|].
      inversion E; subst. exfalso. apply N. now left.
    + simpl in E. inversion E; subst. right. exists pre, post. reflexivity.
  - destruct pre as [|b pre].
    + simpl in E. left.
      destruct (prefix_before (a :: x) y t c post E N) as [v ->].
      exists [], v. reflexivity.
    + simpl in E. inversion E; subst.
      destruct (IH pre H1) as [C | C]; [left | now right].
      apply contains_cons. now right.
Qed.

Lemma contains_skipn (s sub : str) (n : nat) :
  Spec.contains (skipn n s) sub -> Spec.contains s sub.
Proof.
  intros C. rewrite <- (firstn_skipn n s). now apply contains_app_r.
Qed.

Lemma contains_firstn (s sub : str) (n : nat) :
  Spec.contains (firstn n s) sub -> Spec.contains s sub.
Proof.
  intros C. rewrite <- (firstn_skipn n s). now apply contains_app_l.
Qed.

Lemma strip_keeps_out (s sub : str) :
  ~ Spec.contains s sub -> ~ Spec.contains (Py.strip s) sub.
Proof.
  intros N C. apply N. eapply contains_trans; [apply strip_contains | exact C].
Qed.

(** ** fix_comment.py: the scan of the doc comment pattern *)

Lemma scan_doc_prev (fuel : nat) :
  forall p p' s,
    Re.scan_fuel fuel Llm.DOC_COMMENT_RE p s
    = Re.scan_fuel fuel Llm.DOC_COMMENT_RE p' s.
Proof.
  induction fuel as [|fuel IH]; intros p p' s; [reflexivity|].
  cbn [Re.scan_fuel].
  destruct (first_block_dec s) as [H | [gap [body [rest [-> [Hg Hb]]]]]].
  - now rewrite !search_at_doc_none.
  - now rewrite !search_at_doc_block.
Qed.

Lemma sub_with_doc_none (f : Re.mtch -> str) (s : str) :
  ~ Spec.HasBlock s -> FixComment.sub_with Llm.DOC_COMMENT_RE f s = s.
Proof.
  intros H. unfold FixComment.sub_with, Re.scan. cbn [Re.scan_fuel].
  rewrite search_at_doc_none by assumption. reflexivity.
Qed.

Lemma sub_with_doc_next (f : Re.mtch -> str) (gap body rest : str) :
  ~ Spec.contains gap Spec.START ->
  ~ Spec.contains body Spec.END_ ->
  FixComment.sub_with Llm.DOC_COMMENT_RE f
                      (gap ++ Spec.START ++ body ++ Spec.END_ ++ rest)
  = gap
      ++ f (Re.Mtch (Spec.START ++ body ++ Spec.END_) [] (Some SLASH) rest)
      ++ FixComment.sub_with Llm.DOC_COMMENT_RE f rest.
Proof.
  intros Hg Hb.
  assert (E : Re.scan Llm.DOC_COMMENT_RE
                      (gap ++ Spec.START ++ body ++ Spec.END_ ++ rest)
              = ((gap, Re.Mtch (Spec.START ++ body ++ Spec.END_) []
                               (Some SLASH) rest)
                   :: fst (Re.scan Llm.DOC_COMMENT_RE rest),
                 snd (Re.scan Llm.DOC_COMMENT_RE rest))).
  { unfold Re.scan.
    remember (Re.scan_fuel (S (length rest)) Llm.DOC_COMMENT_RE None rest)
      as R eqn:HR.
    cbn [Re.scan_fuel]. rewrite search_at_doc_block by assumption.
    cbn [Re.m_text Re.m_prev Re.m_rest Spec.START lit list_ascii_of_string
         app].
    rewrite (scan_doc_prev _ (Some SLASH) None rest).
    rewrite (scan_fuel_enough Llm.DOC_COMMENT_RE _ (S (length rest)) None rest).
    - rewrite <- HR. destruct R. reflexivity.
    - rewrite ?length_app; simpl; rewrite ?length_app; simpl; lia.
    - lia. }
  unfold FixComment.sub_with. rewrite E. cbn [fst snd flat_map].
  rewrite <- !app_assoc. reflexivity.
Qed.

(** ** fix_comment.py: one comment *)

Lemma block_length (body : str) :
  length (Spec.START ++ body ++ Spec.END_) = length body + 5.
Proof. rewrite !length_app. simpl. lia. Qed.

(** [comment[idx + 3:-2]] for a start marker found at [idx]. *)
Lemma slice_after_start (body : str) (j : nat) :
  j + 3 <= length (Spec.START ++ body ++ Spec.END_) ->
  Py.slice (Spec.START ++ body ++ Spec.END_) (Z.of_nat j + 3) (-2)
  = skipn j body.
Proof.
  intros L. unfold Py.slice, Py.adjust_bound, Py.len.
  rewrite block_length in *.
  destruct (Z.ltb_spec (Z.of_nat j + 3) 0); [lia|].
  change (-2 <? 0)%Z with true. cbv iota.
  rewrite Z.min_r by lia. rewrite Z.max_r by lia.
  replace (Z.to_nat (Z.of_nat j + 3)) with (3 + j) by lia.
  replace (Z.to_nat (Z.of_nat (length body + 5) + -2 - (Z.of_nat j + 3)))
    with (length body - j) by lia.
  change (skipn (3 + j) (Spec.START ++ body ++ Spec.END_))
    with (skipn j (body ++ Spec.END_)).
  rewrite skipn_app.
  destruct (Nat.le_gt_cases j (length body)) as [Le | Gt].
  - replace (j - length body) with 0 by lia. cbn [skipn].
    replace (length body - j) with (length (skipn j body))
      by (rewrite length_skipn; lia).
    rewrite firstn_app, firstn_all, Nat.sub_diag, firstn_0. apply app_nil_r.
  - replace (length body - j) with 0 by lia.
    rewrite (skipn_all2 body) by lia. reflexivity.
Qed.

Lemma strip_length (s : str) : length (Py.strip s) <= length s.
Proof.
  destruct (strip_split s) as [l [r [E _]]].
  rewrite E at 2. rewrite !length_app. lia.
Qed.

Lemma start_position (body pre post : str) :
  Spec.START ++ body ++ Spec.END_ = pre ++ Spec.START ++ post ->
  pre <> [] ->
  3 <= length pre /\ length pre <= length body + 1.
Proof.
  intros E N. split.
  - destruct pre as [|a [|b [|c pre]]]; [congruence | | | simpl; lia];
      inversion E; discriminate.
  - pose proof (f_equal (@length ascii) E) as L.
    rewrite block_length, !length_app in L. simpl in L.
    destruct post as [|x post]; [|simpl in L; lia].
    exfalso. rewrite app_nil_r in E.
    assert (E1 : (Spec.START ++ body ++ [("*"%char : ascii)]) ++ [SLASH]
                 = (pre ++ [SLASH; ("*"%char : ascii)]) ++ ["*"%char]).
    { rewrite <- !app_assoc. exact E. }
    apply app_inj_tail in E1. destruct E1 as [_ E1]. discriminate.
Qed.

(** What [replacer] makes of a comment: again a comment, with a single
    start marker and no longer than before; a comment that has a single
    start marker already stays as it is. *)
Lemma fix_block_result (body : str) :
  ~ Spec.contains body Spec.END_ ->
  exists body',
    FixComment.fix_block (Spec.START ++ body ++ Spec.END_)
    = Spec.START ++ body' ++ Spec.END_
    /\ ~ Spec.contains body' Spec.END_
    /\ FixComment.single_start (Spec.START ++ body' ++ Spec.END_)
    /\ length body' <= length body
    /\ (FixComment.single_start (Spec.START ++ body ++ Spec.END_) ->
        body' = body).
Proof.
  intros Hb. set (B := Spec.START ++ body ++ Spec.END_).
  destruct (Py.rfind_nat B Spec.START) as [j|] eqn:R.
  2:{ apply rfind_nat_none in R. exfalso. apply R.
      exists [], (body ++ Spec.END_). reflexivity. }
  unfold FixComment.fix_block, FixComment.replacer. cbn [Re.m_text].
  unfold Py.rfind. fold Spec.START. fold B. rewrite R.
  destruct j as [|j].
  - exists body. change (0 <? Z.of_nat 0)%Z with false. cbv iota.
    repeat split; auto.
    + exists (body ++ Spec.END_). reflexivity.
    + apply (last_at_rfind_nat B Spec.START 0 R).
  - destruct (rfind_nat_some _ _ _ R) as [pre [post [E Lp]]].
    assert (Np : pre <> []) by (destruct pre; [discriminate | discriminate]).
    destruct (start_position body pre post E Np) as [L3 Lb].
    rewrite Lp in L3, Lb.
    destruct (Z.ltb_spec 0 (Z.of_nat (S j))) as [_|]; [|lia].
    unfold B. rewrite slice_after_start by (rewrite block_length; lia).
    set (nc := Py.strip (skipn (S j) body)).
    assert (Ne : ~ Spec.contains nc Spec.END_).
    { apply strip_keeps_out. intros C. apply Hb.
      now apply contains_skipn in C. }
    assert (Ns : ~ Spec.contains nc Spec.START).
    { apply strip_keeps_out. intros [p [q C]].
      destruct (Nat.le_gt_cases (S j) (length body)) as [Le | Gt].
      - assert (E2 : B = (Spec.START ++ firstn (S j) body ++ p)
                           ++ Spec.START ++ (q ++ Spec.END_)).
        { unfold B. rewrite <- (firstn_skipn (S j) body) at 1.
          rewrite C, <- !app_assoc. reflexivity. }
        pose proof (rfind_nat_last _ _ _ R _ _ E2) as L.
        rewrite !length_app, length_firstn, Nat.min_l in L by lia.
        simpl in L. lia.
      - rewrite skipn_all2 in C by lia. destruct p; discriminate. }
    exists (SPACE :: nc ++ [SPACE]).
    split; [|split; [|split; [|split]]].
    + cbn [lit list_ascii_of_string Spec.START Spec.END_ app].
      rewrite <- app_assoc. reflexivity.
    + intros C. apply contains_cons in C. destruct C as [[t C] | C];
        [discriminate|].
      apply contains_split_at in C;
        [destruct C as [C | [[|] [? C]]]; [tauto | discriminate ..]|].
      cbn. intros [X | [X | []]]; discriminate.
    + split; [exists ((SPACE :: nc ++ [SPACE]) ++ Spec.END_); reflexivity|].
      intros pre' post' E'. destruct pre' as [|a pre']; [simpl; lia|].
      exfalso. cbn [Spec.START lit list_ascii_of_string app] in E'.
      inversion E' as [[Ea E1]]. clear E'.
      assert (C : Spec.contains
                    ("*"%char :: "*"%char :: SPACE
                       :: (nc ++ [SPACE]) ++ Spec.END_) Spec.START).
      { exists pre', post'. exact E1. }
      apply contains_cons in C. destruct C as [[t C] | C]; [discriminate|].
      apply contains_cons in C. destruct C as [[t C] | C]; [discriminate|].
      apply contains_cons in C. destruct C as [[t C] | C]; [discriminate|].
      rewrite <- app_assoc in C. apply contains_split_at in C.
      * destruct C as [C | C]; [tauto|].
        apply (proj1 (find_nat_none Spec.END_ Spec.START) eq_refl). exact C.
      * cbn. intros [X | [X | [X | []]]]; discriminate.
    + rewrite length_cons, length_app. simpl.
      pose proof (strip_length (skipn (S j) body)) as Ls. fold nc in Ls.
      rewrite length_skipn in Ls. lia.
    + intros SS. apply rfind_nat_last_at in SS. fold B in SS.
      rewrite R in SS. discriminate.
Qed.

(** ** fix_comment.py: the whole text *)

Lemma fix_no_block (t : str) :
  ~ Spec.HasBlock t -> FixComment.fix_broken_doc_comments t = t.
Proof. apply sub_with_doc_none. Qed.

Lemma fix_next (gap body rest : str) :
  ~ Spec.contains gap Spec.START ->
  ~ Spec.contains body Spec.END_ ->
  FixComment.fix_broken_doc_comments
    (gap ++ Spec.START ++ body ++ Spec.END_ ++ rest)
  = gap ++ FixComment.fix_block (Spec.START ++ body ++ Spec.END_)
        ++ FixComment.fix_broken_doc_comments rest.
Proof.
  intros Hg Hb. unfold FixComment.fix_broken_doc_comments.
  now rewrite sub_with_doc_next.
Qed.

Lemma fix_blocks_all (t : str) (bs : list str) :
  Spec.Blocks t bs ->
  Spec.Blocks (FixComment.fix_broken_doc_comments t)
              (map FixComment.fix_block bs)
  /\ Forall FixComment.single_start (map FixComment.fix_block bs)
  /\ length (FixComment.fix_broken_doc_comments t) <= length t
  /\ FixComment.fix_broken_doc_comments
       (FixComment.fix_broken_doc_comments t)
     = FixComment.fix_broken_doc_comments t
  /\ (Forall FixComment.single_start bs ->
      FixComment.fix_broken_doc_comments t = t).
Proof.
  induction 1 as [t H | gap body rest bs Hg Hb B [IB [IS [IL [II IU]]]]].
  - rewrite !fix_no_block by assumption. cbn [map].
    split; [now constructor|]. split; [constructor|]. split; [lia|].
    split; reflexivity.
  - rewrite fix_next by assumption. cbn [map].
    destruct (fix_block_result body Hb) as [body' [E [Hb' [SS [Lb U]]]]].
    rewrite E. split; [|split; [|split; [|split]]].
    + rewrite <- !app_assoc. now constructor.
    + constructor; assumption.
    + rewrite !length_app in *. simpl. lia.
    + rewrite <- !app_assoc. rewrite fix_next by assumption.
      destruct (fix_block_result body' Hb') as [b2 [E2 [_ [_ [_ U2]]]]].
      rewrite E2, (U2 SS), II, <- !app_assoc. reflexivity.
    + intros F. apply Forall_cons_iff in F. destruct F as [F1 F2].
      rewrite (U F1), (IU F2), <- !app_assoc. reflexivity.
Qed.

(** X1: the text before the first complete comment is kept as it is,
    the comment is replaced by what [replacer] returns for it, and what
    follows the comment is treated on its own; a text without a complete
    comment is returned unchanged. *)
Theorem fix_broken_doc_comments_unfold :
  (forall t : str,
      ~ Spec.HasBlock t -> FixComment.fix_broken_doc_comments t = t)
  /\ (forall gap body rest : str,
         ~ Spec.contains gap Spec.START ->
         ~ Spec.contains body Spec.END_ ->
         FixComment.fix_broken_doc_comments
           (gap ++ Spec.START ++ body ++ Spec.END_ ++ rest)
         = gap
             ++ FixComment.replacer
                  (Re.Mtch (Spec.START ++ body ++ Spec.END_) []
                           (Some SLASH) rest)
             ++ FixComment.fix_broken_doc_comments rest).
Proof.
  split; [exact fix_no_block|]. intros gap body rest Hg Hb.
  now rewrite fix_next.
Qed.

Lemma fix_broken_doc_comments_unfold_witness :
  FixComment.fix_broken_doc_comments (lit "int x; /* y */") = lit "int x; /* y */"
  /\ FixComment.fix_broken_doc_comments (lit "a /** b /** c */ d")
     = lit "a /** c */ d".
Proof.
  split.
  - apply (proj1 fix_broken_doc_comments_unfold).
    apply no_block_by_find. reflexivity.
  - exact (proj2 fix_broken_doc_comments_unfold
                 (lit "a ") (lit " b /** c ") (lit " d")
                 (proj1 (find_nat_none (lit "a ") Spec.START) eq_refl)
                 (proj1 (find_nat_none (lit " b /** c ") Spec.END_)
                        eq_refl)).
Defined.

(** X2: fixing twice changes nothing more. *)
Theorem fix_broken_doc_comments_idempotent (t : str) :
  FixComment.fix_broken_doc_comments (FixComment.fix_broken_doc_comments t)
  = FixComment.fix_broken_doc_comments t.
Proof.
  destruct (Blocks_total t) as [bs B].
  apply (fix_blocks_all t bs B).
Qed.

(** X3: after the fix every comment block of the text has a single start
    marker, the one it begins with. *)
Theorem fix_broken_doc_comments_single_start (t : str) (bs : list str) :
  Spec.Blocks (FixComment.fix_broken_doc_comments t) bs ->
  Forall FixComment.single_start bs.
Proof.
  intros B. destruct (Blocks_total t) as [bs0 B0].
  destruct (fix_blocks_all t bs0 B0) as [B1 [S1 _]].
  rewrite (Blocks_unique _ _ _ B B1). exact S1.
Qed.

Lemma fix_broken_doc_comments_single_start_witness :
  Forall FixComment.single_start [lit "/** c */"; lit "/** e */"].
Proof.
  apply (fix_broken_doc_comments_single_start
           (lit "a /** b /** c */ d /** e */")).
  apply (Spec.Blocks_next (lit "a ") (lit " c ") (lit " d /** e */"));
    [apply find_nat_none; reflexivity .. |].
  apply (Spec.Blocks_next (lit " d ") (lit " e ") []);
    [apply find_nat_none; reflexivity .. |].
  apply Spec.Blocks_none. apply no_block_by_find. reflexivity.
Defined.

(** X4: a text whose comment blocks all have a single start marker is
    returned unchanged. *)
Theorem fix_broken_doc_comments_well_formed (t : str) (bs : list str) :
  Spec.Blocks t bs ->
  Forall FixComment.single_start bs ->
  FixComment.fix_broken_doc_comments t = t.
Proof.
  intros B F. now apply (fix_blocks_all t bs B).
Qed.

Lemma fix_broken_doc_comments_well_formed_witness :
  FixComment.fix_broken_doc_comments (lit "a /** x */ b") = lit "a /** x */ b".
Proof.
  apply (fix_broken_doc_comments_well_formed
           (lit "a /** x */ b") [lit "/** x */"]).
  - apply (Spec.Blocks_next (lit "a ") (lit " x ") (lit " b"));
      [apply find_nat_none; reflexivity .. |].
    apply Spec.Blocks_none. apply no_block_by_find. reflexivity.
  - constructor; [|constructor].
    exact (last_at_rfind_nat (lit "/** x */") Spec.START 0 eq_refl).
Defined.

(** X5: the fix never makes the text longer. *)
Theorem fix_broken_doc_comments_length (t : str) :
  length (FixComment.fix_broken_doc_comments t) <= length t.
Proof.
  destruct (Blocks_total t) as [bs B].
  apply (fix_blocks_all t bs B).
Qed.

(** ** More on the doc comment extractor *)

Lemma Blocks_block_form (t : str) (bs : list str) :
  Spec.Blocks t bs ->
  forall b, In b bs ->
            exists body, b = Spec.START ++ body ++ Spec.END_
                         /\ ~ Spec.contains body Spec.END_.
Proof.
  induction 1 as [t H | gap body rest bs Hg Hb B IH]; intros b I.
  - destruct I.
  - destruct I as [<- | I]; [eauto | now apply IH].
Qed.

(** The three outcomes of [extract_doc_comment], with what is printed. *)
Lemma extract_doc_comment_cases (t : str) :
  (Spec.HasBlock t
   /\ exists body,
       ~ Spec.contains body Spec.END_
       /\ Llm.extract_doc_comment t = (Spec.START ++ body ++ Spec.END_, []))
  \/ (~ Spec.HasBlock t
      /\ Llm.extract_doc_comment t = (lit "/**/", [ExtractWarning]))
  \/ (~ Spec.HasBlock t
      /\ Llm.extract_doc_comment t = (t, [ExtractWarning])).
Proof.
  destruct (Blocks_total t) as [bs B]. destruct bs as [|b0 bs].
  - assert (H : ~ Spec.HasBlock t) by (inversion B; assumption).
    destruct (extract_doc_comment_fallback t H)
      as [[pre [mid [post [E [LA [Hm R]]]]]] | R].
    + right; left. split; [exact H|].
      rewrite R, (partial_span_shape t pre mid post H E LA). reflexivity.
    + right; right. auto.
  - left. destruct (exists_last (l := b0 :: bs)) as [bs' [b E]];
      [discriminate|].
    rewrite E in B. split.
    + destruct (Blocks_contains _ _ B b) as [pre [post T]];
        [apply in_or_app; right; now left|].
      destruct (Blocks_block_form _ _ B b) as [body [-> _]];
        [apply in_or_app; right; now left|].
      exists pre, body, post. rewrite T, <- !app_assoc. reflexivity.
    + destruct (Blocks_block_form _ _ B b) as [body [-> Hb]];
        [apply in_or_app; right; now left|].
      exists body. split; [exact Hb|].
      apply (extract_doc_comment_blocks _ _ _ B).
Qed.

(** X6: extracting from an extracted comment gives it back. *)
Theorem extract_doc_comment_idempotent (t : str) :
  fst (Llm.extract_doc_comment (fst (Llm.extract_doc_comment t)))
  = fst (Llm.extract_doc_comment t).
Proof.
  destruct (extract_doc_comment_cases t)
    as [[_ [body [Hb R]]] | [[_ R] | [_ R]]]; rewrite R; cbn [fst].
  - now rewrite extract_doc_comment_canonical.
  - reflexivity.
  - now rewrite R.
Qed.

(** X7: the warning of [extract_doc_comment] is printed exactly when the
    text holds no complete delimited block; nothing else is ever
    printed. *)
Theorem extract_doc_comment_warning (t : str) :
  (Spec.HasBlock t -> snd (Llm.extract_doc_comment t) = [])
  /\ (~ Spec.HasBlock t ->
      snd (Llm.extract_doc_comment t) = [ExtractWarning]).
Proof.
  destruct (extract_doc_comment_cases t)
    as [[H [body [Hb R]]] | [[H R] | [H R]]]; rewrite R; cbn [snd];
    split; intros; tauto || reflexivity.
Qed.

Lemma extract_doc_comment_warning_witness :
  snd (Llm.extract_doc_comment (lit "a /** b */")) = []
  /\ snd (Llm.extract_doc_comment (lit "a /** b")) = [ExtractWarning].
Proof.
  split.
  - apply (proj1 (extract_doc_comment_warning (lit "a /** b */"))).
    exists (lit "a "), (lit " b "), []. reflexivity.
  - apply (proj2 (extract_doc_comment_warning (lit "a /** b"))).
    apply no_block_by_find. reflexivity.
Defined.

(** X8: what [extract_doc_comment] returns is its argument unchanged, or
    else a text that begins with the start marker and ends with the end
    marker. *)
Theorem extract_doc_comment_shape (t : str) :
  fst (Llm.extract_doc_comment t) = t
  \/ ((exists x, fst (Llm.extract_doc_comment t) = Spec.START ++ x)
      /\ (exists y, fst (Llm.extract_doc_comment t) = y ++ Spec.END_)).
Proof.
  destruct (extract_doc_comment_cases t)
    as [[_ [body [Hb R]]] | [[_ R] | [_ R]]]; rewrite R; cbn [fst].
  - right. split.
    + exists (body ++ Spec.END_). reflexivity.
    + exists (Spec.START ++ body). rewrite <- app_assoc. reflexivity.
  - right. split; [exists [SLASH] | exists (lit "/*")]; reflexivity.
  - now left.
Qed.

(** ** The driver's warning *)

Lemma lstrip_fixed (c : ascii) (s : str) :
  Py.isspace c = false -> Py.lstrip (c :: s) = c :: s.
Proof. intros H. simpl. now rewrite H. Qed.

Lemma strip_block (body : str) :
  Py.strip (Spec.START ++ body ++ Spec.END_) = Spec.START ++ body ++ Spec.END_.
Proof.
  unfold Py.strip, Py.rstrip.
  change (Spec.START ++ body ++ Spec.END_)
    with (SLASH :: (lit "**" ++ body ++ Spec.END_)).
  rewrite (lstrip_fixed SLASH) by reflexivity.
  change (SLASH :: (lit "**" ++ body ++ Spec.END_))
    with (Spec.START ++ body ++ Spec.END_).
  rewrite !rev_app_distr.
  change (rev Spec.END_) with (SLASH :: [("*"%char : ascii)]).
  cbn [app]. rewrite (lstrip_fixed SLASH) by reflexivity.
  change (SLASH :: "*"%char :: rev body ++ rev Spec.START)
    with (rev Spec.END_ ++ rev body ++ rev Spec.START).
  rewrite <- !rev_app_distr, rev_involutive, <- app_assoc. reflexivity.
Qed.

Lemma generate_doc_comment_events (dk : bool) (r : backend_reply) (n : str) :
  ~ In (NotStandardWarning n) (snd (Llm.generate_doc_comment dk r)).
Proof.
  destruct dk, r; cbn; intros H;
    repeat (destruct H as [H | H]; [discriminate|]); exact H.
Qed.

(** X9: the driver's own warning about a method is printed only after
    the warning of [extract_doc_comment]: a reply that holds a complete
    delimited block never triggers it. *)
Theorem not_standard_only_after_extract_warning
        (a : App.Args) (w : App.World) (i : nat)
        (node : App.TreesitterMethodNode) (n : str) :
  In (NotStandardWarning n) (snd (App.process_node a w i node)) ->
  In ExtractWarning (snd (App.process_node a w i node)).
Proof.
  unfold App.process_node.
  destruct (App.opt_truthy (App.doc_comment node)).
  { cbn. intros [H | []]. discriminate. }
  destruct (App.guided a && _)%bool.
  { cbn. intros [H | []]. discriminate. }
  set (ask := if App.guided a then [AskGenerate (App.name node)] else []).
  assert (NA : ~ In (NotStandardWarning n) ask).
  { subst ask. destruct (App.guided a); cbn; [intros [H | []] | intros []].
    discriminate. }
  destruct (_ && _)%bool.
  { cbn [snd]. rewrite in_app_iff. cbn. intros [H | [H | []]];
      [contradiction | discriminate]. }
  pose proof (generate_doc_comment_events
                (App.is_deepseek a) (App.backend w i) n) as NG.
  destruct (Llm.generate_doc_comment _ _) as [[documented|] ev];
    cbn [snd] in NG.
  - destruct (extract_doc_comment_cases documented)
      as [[_ [body [Hb R]]] | [[_ R] | [_ R]]]; rewrite R; cbn [snd].
    + rewrite strip_block. cbn [app]. rewrite startswith_app.
      rewrite !in_app_iff. cbn. intuition discriminate.
    + intros _. rewrite !in_app_iff. cbn. tauto.
    + intros _. rewrite !in_app_iff. cbn. tauto.
  - cbn [snd]. rewrite in_app_iff. tauto.
Qed.

Lemma not_standard_only_after_extract_warning_witness :
  In ExtractWarning
     (snd (App.process_node Examples.plain_args
                            (Examples.world (fun _ => Reply (lit "done")))
                            0 Examples.method_f)).
Proof.
  apply (not_standard_only_after_extract_warning
           Examples.plain_args
           (Examples.world (fun _ => Reply (lit "done")))
           0 Examples.method_f (lit "f")).
  vm_compute. tauto.
Defined.

(** ** Guided mode *)

Lemma lower_char_y (c : ascii) :
  Py.lower_char c = "y"%char <-> c = "y"%char \/ c = "Y"%char.
Proof.
  split.
  - destruct c as [[] [] [] [] [] [] [] []]; vm_compute; intros H;
      try discriminate; auto.
  - intros [-> | ->]; reflexivity.
Qed.

Lemma lower_is_y (s : str) :
  Py.str_eqb (Py.lower s) (lit "y") = true <-> s = lit "y" \/ s = lit "Y".
Proof.
  rewrite str_eqb_eq. split.
  - destruct s as [|c [|d s]]; cbn; try discriminate.
    intros H. injection H as H. apply lower_char_y in H.
    destruct H as [-> | ->]; auto.
  - intros [-> | ->]; reflexivity.
Qed.

(** X10: in guided mode a method without a doc comment is passed over,
    with nothing printed but the question, exactly when the line typed
    at the prompt is neither [y] nor [Y]. *)
Theorem guided_declined
        (a : App.Args) (w : App.World) (i : nat)
        (node : App.TreesitterMethodNode) :
  App.guided a = true ->
  App.opt_truthy (App.doc_comment node) = false ->
  (App.process_node a w i node = (App.Skipped, [AskGenerate (App.name node)])
   <-> (App.user_input w i <> lit "y" /\ App.user_input w i <> lit "Y")).
Proof.
  intros G D. unfold App.process_node. rewrite G, D. cbn [andb].
  destruct (Py.str_eqb (Py.lower (App.user_input w i)) (lit "y")) eqn:Y;
    cbn [negb].
  - apply lower_is_y in Y. split; [|tauto]. intros H. exfalso.
    destruct (_ && _)%bool; [discriminate|].
    destruct (Llm.generate_doc_comment _ _) as [[documented|] ev];
      [|discriminate].
    destruct (Llm.extract_doc_comment documented). discriminate.
  - split; [intros _ | reflexivity].
    split; intros E; assert (T : Py.str_eqb (Py.lower (App.user_input w i))
                                            (lit "y") = true)
      by (apply lower_is_y; auto); congruence.
Qed.

Lemma guided_declined_witness :
  App.process_node
    (App.MkArgs false false false true false false false)
    (App.MkWorld (fun s => length s) (fun _ => lit "yes")
                 (fun _ => CallRaised))
    0 Examples.method_f
  = (App.Skipped, [AskGenerate (lit "f")]).
Proof.
  apply (proj2 (guided_declined
                  (App.MkArgs false false false true false false false)
                  (App.MkWorld (fun s => length s) (fun _ => lit "yes")
                               (fun _ => CallRaised))
                  0 Examples.method_f eq_refl eq_refl)).
  split; discriminate.
Defined.

(** ** The Deepseek wrapper *)

(** X11: [DeepseekLLM.run] returns the empty string exactly when the
    request failed: a response body, even an empty one, never gives the
    empty string. *)
Theorem deepseek_run_empty_iff_failure (r : backend_reply) :
  fst (Llm.DeepseekLLM_run r) = [] <-> Spec.failure r.
Proof.
  destruct r as [body | body |]; cbn [Llm.DeepseekLLM_run fst].
  - rewrite normalize_code_block, extract_code_block_select. split.
    + discriminate.
    + intros [H | [b H]]; discriminate.
  - split; [intros _; right; eauto | reflexivity].
  - split; [intros _; now left | reflexivity].
Qed.

(** ** What the groups of a match hold *)

Lemma run_captures {A : Type} (r : Re.regex) :
  forall prev s g (k : option ascii -> str -> Re.groups -> option A) x,
    Re.run r prev s g k = Some x ->
    exists w s' p' new,
      s = w ++ s' /\ Spec.Lang r w
      /\ Forall (fun e => Props.captures r (fst e) (snd e)) new
      /\ k p' s' (new ++ g) = Some x.
Proof.
  induction r as [l | | r1 IH1 r2 IH2 | r1 IH1 | cls | cls | cls | cls
                  | n r1 IH1];
    intros prev s g k x; cbn [Re.run Spec.Lang Props.captures].
  - destruct (Re.eat l prev s) as [[p' s']|] eqn:E; [|discriminate].
    apply eat_some in E. destruct E as [-> _]. intros K.
    exists l, s', p', []. auto.
  - destruct (Re.at_bol prev); [|discriminate]. intros K.
    exists [], s, prev, []. auto.
  - intros H.
    destruct (IH1 _ _ _ _ _ H) as [w1 [s1 [p1 [n1 [E1 [L1 [F1 K1]]]]]]].
    destruct (IH2 _ _ _ _ _ K1) as [w2 [s2 [p2 [n2 [E2 [L2 [F2 K2]]]]]]].
    exists (w1 ++ w2), s2, p2, (n2 ++ n1). repeat split.
    + rewrite E1, E2, app_assoc. reflexivity.
    + exists w1, w2. auto.
    + apply Forall_app. split;
        [eapply Forall_impl; [|exact F2] | eapply Forall_impl; [|exact F1]];
        cbn beta; tauto.
    + rewrite <- app_assoc. exact K2.
  - destruct (Re.run r1 prev s g k) as [y|] eqn:R.
    + intros [= <-].
      destruct (IH1 _ _ _ _ _ R) as [w [s' [p' [n1 [E [L [F K]]]]]]].
      exists w, s', p', n1. auto.
    + intros K. exists [], s, prev, []. auto.
  - intros H.
    destruct (star_greedy_sound _ _ _ _ _ H) as [w [s' [p' [E [F K]]]]].
    exists w, s', p', []. auto.
  - intros H. destruct (one_sound _ _ _ _ H) as [c [s1 [E1 [C K1]]]].
    destruct (star_greedy_sound _ _ _ _ _ K1) as [w [s' [p' [E [F K]]]]].
    exists (c :: w), s', p', []. repeat split.
    + rewrite E1, E. reflexivity.
    + discriminate.
    + now constructor.
    + constructor.
    + exact K.
  - intros H.
    destruct (star_lazy_sound _ _ _ _ _ H) as [w [s' [p' [E [F K]]]]].
    exists w, s', p', []. auto.
  - intros H. destruct (one_sound _ _ _ _ H) as [c [s1 [E1 [C K1]]]].
    destruct (star_lazy_sound _ _ _ _ _ K1) as [w [s' [p' [E [F K]]]]].
    exists (c :: w), s', p', []. repeat split.
    + rewrite E1, E. reflexivity.
    + discriminate.
    + now constructor.
    + constructor.
    + exact K.
  - intros H.
    destruct (IH1 _ _ _ _ _ H) as [w [s' [p' [n1 [E [L [F K]]]]]]].
    exists w, s', p', ((n, w) :: n1). repeat split; auto.
    + constructor; [left; auto|].
      eapply Forall_impl; [|exact F]. cbn beta. tauto.
    + subst s. rewrite firstn_consumed in K. exact K.
Qed.

Lemma group_in (g : Re.groups) (n : nat) (w : str) :
  Re.group g n = Some w -> In (n, w) g.
Proof.
  induction g as [|[m s] g IH]; cbn [Re.group]; [discriminate|].
  destruct (Nat.eqb m n) eqn:E.
  - apply Nat.eqb_eq in E. intros [= ->]. subst. now left.
  - intros H. right. auto.
Qed.

Lemma match_at_captures (r : Re.regex) (prev : option ascii) (s : str) m
      (n : nat) (w : str) :
  Re.match_at r prev s = Some m ->
  Re.group (Re.m_groups m) n = Some w -> Props.captures r n w.
Proof.
  unfold Re.match_at. intros H G.
  destruct (run_captures _ _ _ _ _ _ H) as [w0 [s' [p' [new [E [L [F K]]]]]]].
  inversion K; subst m; cbn [Re.m_groups] in G.
  apply group_in in G. rewrite app_nil_r in G.
  rewrite Forall_forall in F. apply (F _ G).
Qed.

Lemma search_at_captures (r : Re.regex) (n : nat) (w : str) (s : str) :
  forall prev gap m,
    Re.search_at r prev s = Some (gap, m) ->
    Re.group (Re.m_groups m) n = Some w -> Props.captures r n w.
Proof.
  induction s as [|c s IH]; intros prev gap m; cbn [Re.search_at].
  - destruct (Re.match_at r prev []) as [m'|] eqn:M; [|discriminate].
    intros [= <- <-]. now apply (match_at_captures _ _ _ _ _ _ M).
  - destruct (Re.match_at r prev (c :: s)) as [m'|] eqn:M.
    + intros [= <- <-]. now apply (match_at_captures _ _ _ _ _ _ M).
    + destruct (Re.search_at r (Some c) s) as [[gap' m']|] eqn:S;
        [|discriminate].
      intros [= <- <-]. now apply (IH _ _ _ S).
Qed.

Lemma java_is_tag : Props.is_tag Llm.JAVA.
Proof. split; [discriminate | repeat constructor]. Qed.

(** The language tag picked by [_extract_code_block] is never empty and
    made of word characters. *)
Lemma select_code_tag (text : str) :
  Props.is_tag (fst (Llm.select_code text)).
Proof.
  unfold Llm.select_code, Re.search.
  destruct (Re.search_at Llm.FENCE_RE None text) as [[gap m]|] eqn:S;
    cbn [option_map snd fst].
  - unfold Llm.group_or_java.
    destruct (Re.group (Re.m_groups m) 1) as [s|] eqn:G;
      [|apply java_is_tag].
    destruct (Py.truthy s) eqn:T; [|apply java_is_tag].
    pose proof (search_at_captures _ _ _ _ _ _ _ S G) as C.
    cbn in C. destruct C as [[]|[[[_ C]|[]]|[[]|[[[E _]|[]]|[]]]]];
      [exact C | discriminate].
  - destruct (Re.match_ Llm.LANG_COMMENT_RE text) as [m|] eqn:M;
      cbn [fst]; [|apply java_is_tag].
    destruct (match_at_sound _ _ _ _ M) as [E L].
    cbn [Spec.Lang Llm.LANG_COMMENT_RE] in L.
    destruct L as [w1 [w2 [E1 [[N1 W1] [ws [w3 [E2 [B L3]]]]]]]].
    destruct L3 as [wa [w4 [E3 [La [wb [wc [E4 [Lb [Nc _]]]]]]]]].
    assert (LC : Spec.LangComment text w1 (wc ++ Re.m_rest m)).
    { exists ws. repeat split; auto.
      - rewrite E, E1, E2, E3, La, E4, Lb, <- !app_assoc. reflexivity.
      - destruct wc; [congruence | discriminate]. }
    rewrite (match_lang_comment _ _ _ LC) in M. injection M as <-.
    cbn. split; assumption.
Qed.

(** ** What the cleaning leaves *)

Lemma first_at_gap_free (gap old rest : str) :
  old <> [] ->
  Spec.first_at (gap ++ old ++ rest) old gap -> ~ Spec.contains gap old.
Proof.
  intros N [_ F] [pre [post E]].
  specialize (F pre (post ++ old ++ rest)).
  rewrite E, <- !app_assoc in F. specialize (F eq_refl).
  rewrite !length_app in F. destruct old; [congruence|]. simpl in F. lia.
Qed.

(** After the replacement by a character that the replaced text lacks,
    no occurrence of the replaced text is left. *)
Lemma Replaced_none_left (old : str) (c : ascii) (s r : str) :
  old <> [] -> ~ In c old ->
  Spec.Replaced old [c] s r -> ~ Spec.contains r old.
Proof.
  intros N NI R. induction R as [s H | gap rest rest' F R IH]; [exact H|].
  intros C. apply contains_split_at in C; [|exact NI].
  destruct C as [C | C]; [|contradiction].
  now apply (first_at_gap_free gap old rest).
Qed.

(** Away from the start of a line, what the result begins with up to
    the next newline is what the source begins with. *)
Lemma unframed_prefix (prev : option ascii) (s r : str) :
  Spec.Unframed prev s r ->
  Re.at_bol prev = false ->
  forall u post, ~ In LF u -> r = u ++ post -> exists post', s = u ++ post'.
Proof.
  induction 1 as [prev | prev ws rest r B W H U IH | prev c s r H U IH];
    intros NB u post NL E.
  - destruct u; [|discriminate]. exists []. reflexivity.
  - congruence.
  - destruct u as [|x u]; [exists (c :: s); reflexivity|].
    cbn [app] in E. injection E as <- E.
    destruct (IH) with (u := u) (post := post) as [post' ->]; auto.
    + cbn [Re.at_bol]. apply ascii_eqb_false_iff. intros ->.
      apply NL. now left.
    + intros I. apply NL. now right.
    + exists post'. reflexivity.
Qed.

(** A piece of the result without a newline is a piece of the source. *)
Lemma unframed_contains (prev : option ascii) (s r : str) :
  Spec.Unframed prev s r ->
  forall u, ~ In LF u -> Spec.contains r u -> Spec.contains s u.
Proof.
  induction 1 as [prev | prev ws rest r B W H U IH | prev c s r H U IH];
    intros u NL [pre [post E]].
  - destruct pre; [|discriminate]. destruct u; [|discriminate].
    exists [], []. reflexivity.
  - apply contains_app_r, contains_app_r. apply IH; [exact NL|].
    exists pre, post. exact E.
  - destruct pre as [|x pre].
    + destruct u as [|y u]; [exists [], (c :: s); reflexivity|].
      cbn [app] in E. injection E as <- E.
      destruct (unframed_prefix _ _ _ U) with (u := u) (post := post)
        as [post' ->]; auto.
      * cbn [Re.at_bol]. apply ascii_eqb_false_iff. intros ->.
        apply NL. now left.
      * intros I. apply NL. now right.
      * exists [], post'. reflexivity.
    + cbn [app] in E. injection E as <- E.
      apply contains_cons. right. apply IH; [exact NL|].
      exists pre, post. exact E.
Qed.

Lemma clean_code_no_marker (code : str) :
  ~ Spec.contains (Llm.clean_code code) Llm.H_NEWLINE.
Proof.
  destruct (clean_code_cleaned code) as [c1 [c2 [ws [R [U [E [B H]]]]]]].
  intros C.
  apply (Replaced_none_left Llm.H_NEWLINE LF code c1);
    [discriminate | | exact R |].
  - cbn. intuition discriminate.
  - apply (unframed_contains _ _ _ U).
    + cbn. intuition discriminate.
    + rewrite E. now apply contains_app_r.
Qed.

(** X12: whatever the payload, [_extract_code_block] returns a fenced
    block whose header carries a language tag of at least one word
    character, and whose code neither starts with whitespace nor holds a
    newline marker any more. *)
Theorem extract_code_block_invariant (text : str) :
  exists lang code,
    Llm._extract_code_block text = Spec.fenced lang code
    /\ Props.is_tag lang
    /\ Spec.head_not Py.isspace code
    /\ ~ Spec.contains code Llm.H_NEWLINE.
Proof.
  exists (fst (Llm.select_code text)),
         (Llm.clean_code (snd (Llm.select_code text))).
  split; [apply extract_code_block_select|].
  split; [apply select_code_tag|].
  split; [apply lstrip_head | apply clean_code_no_marker].
Qed.

(** ** The method loop as a whole *)

Lemma turns_in (a : App.Args) (w : App.World)
      (nodes : list App.TreesitterMethodNode) (i : nat) t :
  In t (Spec.turns a w i nodes) ->
  exists idx node,
    nth_error nodes idx = Some node
    /\ t = App.process_node a w (i + idx) node.
Proof.
  intros I. apply In_nth_error in I. destruct I as [idx E].
  rewrite turns_nth in E.
  destruct (nth_error nodes idx) as [node|] eqn:N; [|discriminate].
  injection E as <-. eauto.
Qed.

Lemma method_loop_some (a : App.Args) (w : App.World)
      (nodes : list App.TreesitterMethodNode) :
  forall i d0 d,
    fst (App.method_loop a w i nodes d0) = Some d ->
    d = fold_left Spec.apply_turn (Spec.turns a w i nodes) d0.
Proof.
  induction nodes as [|node rest IH]; intros i d0 d;
    cbn [App.method_loop Spec.turns fold_left].
  - intros [= <-]. reflexivity.
  - unfold Spec.apply_turn at 2.
    destruct (App.process_node a w i node) as [[|k v|] ev]; cbn [fst].
    + pose proof (IH (S i) d0 d) as H.
      destruct (App.method_loop a w (S i) rest d0). exact H.
    + pose proof (IH (S i) (App.dict_set d0 k v) d) as H.
      destruct (App.method_loop a w (S i) rest (App.dict_set d0 k v)).
      exact H.
    + discriminate.
Qed.

Lemma dict_set_entries (d : App.dict) (k v : str) (e : str * str) :
  In e (App.dict_set d k v) -> e = (k, v) \/ In e d.
Proof.
  induction d as [|[k0 v0] d IH]; cbn [App.dict_set In].
  - intuition.
  - destruct (Py.str_eqb k0 k) eqn:E; cbn [In].
    + apply str_eqb_eq in E. subst k0. intuition.
    + intuition.
Qed.

Lemma fold_apply_turn_entries (ts : list (App.turn * list event)) :
  forall d e,
    In e (fold_left Spec.apply_turn ts d) ->
    In e d \/ exists t, In t ts /\ fst t = App.Recorded (fst e) (snd e).
Proof.
  induction ts as [|t ts IH]; intros d e; cbn [fold_left]; [auto|].
  intros I. destruct (IH _ _ I) as [I' | [t' [I' R]]].
  - unfold Spec.apply_turn in I'.
    destruct (fst t) as [|k v|] eqn:F; auto.
    apply dict_set_entries in I'. destruct I' as [-> | I']; [|auto].
    right. exists t. split; [now left | exact F].
  - right. exists t'. split; [now right | exact R].
Qed.

Lemma fold_apply_turn_keys (ts : list (App.turn * list event)) :
  forall d k,
    (In k (map fst d)
     \/ exists t v, In t ts /\ fst t = App.Recorded k v) ->
    In k (map fst (fold_left Spec.apply_turn ts d)).
Proof.
  induction ts as [|t ts IH]; intros d k; cbn [fold_left].
  - intros [I | [t [v [[] _]]]]. exact I.
  - intros H. apply IH.
    destruct H as [I | [t' [v [[<- | I] R]]]].
    + left. unfold Spec.apply_turn. destruct (fst t); auto.
      apply keys_dict_set. now right.
    + left. unfold Spec.apply_turn. rewrite R.
      apply keys_dict_set. now left.
    + right. eauto.
Qed.

Lemma dict_get_in (d : App.dict) (k : str) :
  In k (map fst d) -> exists v, App.dict_get d k = Some v.
Proof.
  induction d as [|[k0 v0] d IH]; cbn [map fst In App.dict_get]; [tauto|].
  intros [-> | I].
  - rewrite str_eqb_refl. eauto.
  - destruct (Py.str_eqb k0 k); eauto.
Qed.

Lemma process_node_no_abort (a : App.Args) (w : App.World) (i : nat)
      (node : App.TreesitterMethodNode) :
  App.is_deepseek a = true ->
  fst (App.process_node a w i node) <> App.Aborted.
Proof.
  intros D. unfold App.process_node. rewrite D.
  destruct (App.opt_truthy _); [discriminate|].
  destruct (_ && _)%bool; [discriminate|].
  destruct (_ && _)%bool; [discriminate|].
  unfold Llm.generate_doc_comment.
  destruct (Llm.DeepseekLLM_run (App.backend w i)) as [out ev].
  destruct (Llm.extract_doc_comment out). discriminate.
Qed.

Lemma process_node_value (a : App.Args) (w : App.World) (i : nat)
      (node : App.TreesitterMethodNode) (k v : str) :
  fst (App.process_node a w i node) = App.Recorded k v ->
  exists doc, v = Llm.insert_doc_comment k doc.
Proof.
  unfold App.process_node.
  destruct (App.opt_truthy _); [discriminate|].
  destruct (_ && _)%bool; [discriminate|].
  destruct (_ && _)%bool; [discriminate|].
  destruct (Llm.generate_doc_comment _ _) as [[doc|] ev]; [|discriminate].
  destruct (Llm.extract_doc_comment doc) as [c ev2]. cbn [fst].
  intros E. inversion E. eauto.
Qed.

Lemma process_node_skipped (a : App.Args) (w : App.World) (i : nat)
      (node : App.TreesitterMethodNode) :
  Spec.sent_to_model a w i node = false ->
  fst (App.process_node a w i node) = App.Skipped.
Proof.
  unfold Spec.sent_to_model, App.process_node.
  destruct (App.opt_truthy _); [reflexivity|].
  destruct (App.guided a && _)%bool; [reflexivity|].
  destruct ((2048 <? _) && _)%bool; [reflexivity | discriminate].
Qed.

(** A turn that does not reach the model call does not depend on what
    the backend would answer. *)
Lemma process_node_same_world (a : App.Args) (w w' : App.World) (i : nat)
      (node : App.TreesitterMethodNode) :
  (forall s, App.count_tokens w' s = App.count_tokens w s) ->
  (forall j, App.user_input w' j = App.user_input w j) ->
  Spec.sent_to_model a w i node = false ->
  App.process_node a w' i node = App.process_node a w i node.
Proof.
  intros C U. unfold Spec.sent_to_model, App.process_node.
  rewrite C, U.
  destruct (App.opt_truthy _); [reflexivity|].
  destruct (App.guided a && _)%bool; [reflexivity|].
  destruct ((2048 <? _) && _)%bool; [reflexivity | discriminate].
Qed.

(** X13: with the Deepseek wrapper the loop always runs to its end,
    whatever the backend answers, and every method that got as far as the
    model call has an entry in [generated_doc_comments]. *)
Theorem deepseek_loop_completes
        (a : App.Args) (w : App.World) (i : nat)
        (nodes : list App.TreesitterMethodNode) (d0 : App.dict) :
  App.is_deepseek a = true ->
  exists d,
    fst (App.method_loop a w i nodes d0) = Some d
    /\ forall idx node,
        nth_error nodes idx = Some node ->
        Spec.sent_to_model a w (i + idx) node = true ->
        App.dict_get d (App.method_source_code node) <> None.
Proof.
  intros D.
  assert (NA : forall t, In t (Spec.turns a w i nodes) ->
                         fst t <> App.Aborted).
  { intros t I. destruct (turns_in _ _ _ _ _ I) as [idx [node [_ ->]]].
    now apply process_node_no_abort. }
  exists (fold_left Spec.apply_turn (Spec.turns a w i nodes) d0).
  split; [rewrite (method_loop_turns _ _ _ _ _ NA); reflexivity|].
  intros idx node N S.
  destruct (dict_get_in
              (fold_left Spec.apply_turn (Spec.turns a w i nodes) d0)
              (App.method_source_code node)) as [v G]; [|congruence].
  apply fold_apply_turn_keys. right.
  pose proof (sent_to_model_process _ _ _ _ S) as P. cbv zeta in P.
  rewrite D in P. unfold Llm.generate_doc_comment in P.
  destruct (Llm.DeepseekLLM_run (App.backend w (i + idx))) as [out ev].
  exists (App.process_node a w (i + idx) node). eexists. split.
  - apply (nth_error_In _ idx). rewrite turns_nth, N. reflexivity.
  - rewrite P. reflexivity.
Qed.

Lemma deepseek_loop_completes_witness :
  exists d,
    fst (App.method_loop Examples.deepseek_args
                         (Examples.world (fun _ => CallRaised))
                         0 [Examples.method_f; Examples.method_g] [])
    = Some d.
Proof.
  destruct (deepseek_loop_completes
              Examples.deepseek_args (Examples.world (fun _ => CallRaised))
              0 [Examples.method_f; Examples.method_g] [] eq_refl)
    as [d [E _]].
  exists d. exact E.
Defined.

(** X14: with a chain backend, a failing call for any one method that
    reaches the model call makes the exception leave the loop: no patch
    set comes out of it, so the loop of lines 161-164 is never reached and
    no method of the file gets a comment. *)
Theorem chain_failure_aborts_run
        (a : App.Args) (w : App.World)
        (nodes : list App.TreesitterMethodNode)
        (j : nat) (node : App.TreesitterMethodNode) :
  App.is_deepseek a = false ->
  nth_error nodes j = Some node ->
  Spec.sent_to_model a w j node = true ->
  Spec.failure (App.backend w j) ->
  fst (App.method_loop a w 0 nodes []) = None.
Proof.
  intros D N Hs F.
  assert (G : forall rest i d idx,
             nth_error rest idx = Some node -> i + idx = j ->
             fst (App.method_loop a w i rest d) = None).
  { induction rest as [|n0 rest IH]; intros i d idx Nx E.
    - destruct idx; discriminate.
    - cbn [App.method_loop]. destruct idx as [|idx]; cbn in Nx.
      + injection Nx as ->. rewrite Nat.add_0_r in E. subst i.
        pose proof (sent_to_model_process _ _ _ _ Hs) as P. cbv zeta in P.
        rewrite D, (failure_chain _ F) in P. rewrite P. reflexivity.
      + assert (R : forall d', fst (App.method_loop a w (S i) rest d') = None)
          by (intros d'; apply (IH (S i) d' idx Nx); lia).
        destruct (App.process_node a w i n0) as [[|k v|] ev].
        * specialize (R d). destruct (App.method_loop a w (S i) rest d).
          exact R.
        * specialize (R (App.dict_set d k v)).
          destruct (App.method_loop a w (S i) rest (App.dict_set d k v)).
          exact R.
        * reflexivity. }
  apply (G nodes 0 [] j N). reflexivity.
Qed.

Lemma chain_failure_aborts_run_witness :
  fst (App.method_loop
         Examples.plain_args
         (Examples.world
            (fun i => match i with
                      | 1 => CallRaised
                      | _ => Reply (lit "/** ok */")
                      end))
         0 [Examples.method_f; Examples.method_g] [])
  = None.
Proof.
  apply (chain_failure_aborts_run
           Examples.plain_args
           (Examples.world
              (fun i => match i with
                        | 1 => CallRaised
                        | _ => Reply (lit "/** ok */")
                        end))
           [Examples.method_f; Examples.method_g]
           1 Examples.method_g eq_refl eq_refl eq_refl).
  left. reflexivity.
Defined.

(** X15: in the patch set that the loop builds from the empty dict no
    key comes twice, every key is the source text of one of the methods,
    and every value ends with a newline followed by its key: a patch only
    ever puts text in front of the method, whose own text it keeps. *)
Theorem patch_set_invariant
        (a : App.Args) (w : App.World) (i : nat)
        (nodes : list App.TreesitterMethodNode) (d : App.dict) :
  fst (App.method_loop a w i nodes []) = Some d ->
  NoDup (map fst d)
  /\ Forall (fun e =>
               In (fst e) (map App.method_source_code nodes)
               /\ exists pre, snd e = pre ++ [LF] ++ fst e) d.
Proof.
  intros H. apply method_loop_some in H. subst d. split.
  - apply fold_apply_turn. constructor.
  - apply Forall_forall. intros [k v] I.
    apply fold_apply_turn_entries in I. destruct I as [[] | [t [I R]]].
    destruct (turns_in _ _ _ _ _ I) as [idx [node [N ->]]].
    cbn [fst snd] in *.
    pose proof (process_node_key _ _ _ _ _ _ R) as K.
    destruct (process_node_value _ _ _ _ _ _ R) as [doc V]. split.
    + rewrite K. apply in_map. apply (nth_error_In _ _ N).
    + rewrite V. unfold Llm.insert_doc_comment. eauto.
Qed.

Lemma patch_set_invariant_witness :
  let d := [(lit "void f() {}",
             lit "/** ok */" ++ [LF] ++ lit "void f() {}")] in
  NoDup (map fst d)
  /\ Forall (fun e =>
               In (fst e) (map App.method_source_code [Examples.method_f])
               /\ exists pre, snd e = pre ++ [LF] ++ fst e) d.
Proof.
  exact (patch_set_invariant
           Examples.plain_args
           (Examples.world (fun _ => Reply (lit "/** ok */")))
           0 [Examples.method_f]
           [(lit "void f() {}",
             lit "/** ok */" ++ [LF] ++ lit "void f() {}")]
           eq_refl).
Defined.

(** X16: when no method gets as far as the model call (each has a doc
    comment already, is declined at the prompt or is too long), the patch
    set comes out as it went in, and the whole loop behaves the same
    whatever the backend would have answered. *)
Theorem skipped_methods_never_reach_model
        (a : App.Args) (w w' : App.World) (i : nat)
        (nodes : list App.TreesitterMethodNode) (d : App.dict) :
  (forall s, App.count_tokens w' s = App.count_tokens w s) ->
  (forall j, App.user_input w' j = App.user_input w j) ->
  (forall idx node,
      nth_error nodes idx = Some node ->
      Spec.sent_to_model a w (i + idx) node = false) ->
  fst (App.method_loop a w i nodes d) = Some d
  /\ App.method_loop a w' i nodes d = App.method_loop a w i nodes d.
Proof.
  intros C U. revert i.
  induction nodes as [|node rest IH]; intros i Hs; cbn [App.method_loop].
  - auto.
  - assert (S0 : Spec.sent_to_model a w i node = false).
    { specialize (Hs 0 node eq_refl). now rewrite Nat.add_0_r in Hs. }
    rewrite (process_node_same_world _ _ _ _ _ C U S0).
    pose proof (process_node_skipped _ _ _ _ S0) as K.
    destruct (App.process_node a w i node) as [t ev]. cbn [fst] in K.
    subst t.
    destruct (IH (S i)) as [E1 E2].
    { intros idx n N. specialize (Hs (S idx) n N).
      now rewrite Nat.add_succ_r in Hs. }
    rewrite E2. destruct (App.method_loop a w (S i) rest d). auto.
Qed.

Lemma skipped_methods_never_reach_model_witness :
  fst (App.method_loop
         Examples.plain_args (Examples.world (fun _ => CallRaised)) 0
         [App.MkNode (lit "f") (Some (lit "/** f */")) (lit "void f() {}")]
         [])
  = Some [].
Proof.
  refine (proj1 (skipped_methods_never_reach_model
                   Examples.plain_args
                   (Examples.world (fun _ => CallRaised))
                   (Examples.world (fun _ => Reply (lit "/** x */")))
                   0 _ [] (fun _ => eq_refl) (fun _ => eq_refl) _)).
  intros [|[|idx]] node N; cbn in N; try discriminate.
  injection N as <-. reflexivity.
Defined.

(** ** The merger on an unindented method *)

Lemma leading_whitespace_unique (line i1 i2 : str) :
  Spec.leading_whitespace line i1 -> Spec.leading_whitespace line i2 ->
  i1 = i2.
Proof.
  intros [r1 [E1 [B1 H1]]] [r2 [E2 [B2 H2]]]. subst line.
  revert i2 B2 E2. induction B1 as [|c i1 C B1 IH]; intros i2 B2 E2.
  - destruct B2 as [|d i2 D B2]; [reflexivity|].
    cbn [app] in E2. subst r1. cbn in H1. congruence.
  - destruct B2 as [|d i2 D B2].
    + cbn [app] in E2. subst r2. cbn in H2. congruence.
    + cbn [app] in E2. injection E2 as <- E2. f_equal. now apply IH.
Qed.

Lemma IndentOf_method_indent (lines : list str) (indent : str) :
  Spec.IndentOf lines indent -> Llm.method_indent lines = indent.
Proof.
  induction 1 as [| line rest indent B _ IH | line rest indent NB L];
    cbn [Llm.method_indent].
  - reflexivity.
  - apply strip_truthy in B. now rewrite B.
  - apply strip_truthy_true in NB. rewrite NB.
    destruct (match_spaces line) as [m [E L']]. rewrite E.
    apply (leading_whitespace_unique line); assumption.
Qed.

Lemma indent_line_nil (lines : list str) :
  map (Llm.indent_line []) lines = lines.
Proof.
  induction lines as [|l lines IH]; cbn [map]; [reflexivity|].
  rewrite IH. unfold Llm.indent_line.
  destruct (Py.truthy (Py.strip l)); reflexivity.
Qed.

Lemma splitlines_nil_iff (s : str) : Py.splitlines s = [] -> s = [].
Proof.
  destruct s as [|c s]; [reflexivity|]. cbn [Py.splitlines].
  destruct (Py.is_linebreak c); [discriminate|].
  destruct (Py.splitlines s); discriminate.
Qed.

Lemma join_cons_char (sep : str) (c : ascii) (l : str) (ls : list str) :
  Py.join sep ((c :: l) :: ls) = c :: Py.join sep (l :: ls).
Proof. destruct ls; reflexivity. Qed.

(** Joining the lines of a text with newlines gives the text back when
    its line boundaries are newlines and it does not end with one. *)
Lemma join_splitlines (d : str) :
  Props.lf_text d -> Py.join [LF] (Py.splitlines d) = d.
Proof.
  induction d as [|c s IH]; intros [O E]; [reflexivity|].
  assert (T : Props.lf_text s).
  { split.
    - intros x I. apply O. now right.
    - intros pre ->. apply (E (c :: pre)). reflexivity. }
  specialize (IH T). cbn [Py.splitlines].
  destruct (Py.is_linebreak c) eqn:C.
  - assert (c = LF) by (apply O; [now left | exact C]). subst c.
    destruct s as [|d s]; [exfalso; now apply (E [])|].
    change (Ascii.eqb LF CR) with false. cbn [andb].
    destruct (Py.splitlines (d :: s)) as [|l ls] eqn:S.
    + apply splitlines_nil_iff in S. discriminate.
    + change (Py.join [LF] ([] :: l :: ls))
        with (LF :: Py.join [LF] (l :: ls)).
      now rewrite IH.
  - destruct (Py.splitlines s) as [|l ls] eqn:S.
    + apply splitlines_nil_iff in S. subst s. reflexivity.
    + rewrite join_cons_char, IH. reflexivity.
Qed.

(** X17: before a method whose first non-blank line is not indented the
    lines of the comment are left as they are; a comment whose line
    boundaries are newlines and that does not end with one is then put
    before the method character for character. *)
Theorem insert_doc_comment_unindented (method_code doc_comment : str) :
  Spec.IndentOf (Py.splitlines method_code) [] ->
  Llm.insert_doc_comment method_code doc_comment
  = Py.join [LF] (Py.splitlines doc_comment) ++ [LF] ++ method_code
  /\ (Props.lf_text doc_comment ->
      Llm.insert_doc_comment method_code doc_comment
      = doc_comment ++ [LF] ++ method_code).
Proof.
  intros I. apply IndentOf_method_indent in I.
  unfold Llm.insert_doc_comment. rewrite I, indent_line_nil.
  split; [reflexivity|]. intros T. now rewrite join_splitlines.
Qed.

Lemma insert_doc_comment_unindented_witness :
  Llm.insert_doc_comment
    (lit "void f() {}")
    (lit "/**" ++ [LF] ++ lit " * doc" ++ [LF] ++ lit " */")
  = (lit "/**" ++ [LF] ++ lit " * doc" ++ [LF] ++ lit " */")
      ++ [LF] ++ lit "void f() {}".
Proof.
  refine (proj2 (insert_doc_comment_unindented
                   (lit "void f() {}")
                   (lit "/**" ++ [LF] ++ lit " * doc" ++ [LF] ++ lit " */")
                   _) _).
  - apply Spec.IndentOf_first.
    + intros B. inversion B. discriminate.
    + exists (lit "void f() {}"). repeat split. constructor.
  - split.
    + intros c I L. vm_compute in I.
      repeat (destruct I as [<- | I]; [reflexivity || discriminate L|]).
      destruct I.
    + intros pre E.
      change (lit "/**" ++ [LF] ++ lit " * doc" ++ [LF] ++ lit " */")
        with ((lit "/**" ++ [LF] ++ lit " * doc" ++ [LF] ++ lit " *")
                ++ [SLASH]) in E.
      apply app_inj_tail in E. destruct E as [_ E]. discriminate E.
Defined.

(** ** Line boundaries of the reassembled payload *)

Lemma no_linebreak_skipn (n : nat) (l : str) :
  Spec.no_linebreak l -> Spec.no_linebreak (skipn n l).
Proof.
  intros N. unfold Spec.no_linebreak, Spec.all_in in *.
  rewrite Forall_forall in *. intros c I. apply N.
  rewrite <- (firstn_skipn n l). apply in_or_app. now right.
Qed.

Lemma sse_line_pieces (acc : list str) (line : str) :
  Spec.no_linebreak line ->
  Forall (fun p => p = [LF] \/ Spec.no_linebreak p) acc ->
  Forall (fun p => p = [LF] \/ Spec.no_linebreak p) (Llm.sse_line acc line).
Proof.
  intros N F. unfold Llm.sse_line.
  destruct (Py.startswith line (lit "data: ")); [|exact F].
  destruct (Py.str_eqb _ Llm.H_NEWLINE).
  - apply Forall_app. split; [exact F|]. constructor; [now left | constructor].
  - destruct (_ && _)%bool; [|exact F].
    apply Forall_app. split; [exact F|].
    constructor; [right | constructor].
    unfold Py.slice_from. now apply no_linebreak_skipn.
Qed.

Lemma content_lines_pieces (response_text : str) :
  Forall (fun p => p = [LF] \/ Spec.no_linebreak p)
         (Llm.content_lines response_text).
Proof.
  unfold Llm.content_lines.
  pose proof (splitlines_no_linebreak response_text) as N.
  assert (G : forall lines acc,
             Forall Spec.no_linebreak lines ->
             Forall (fun p => p = [LF] \/ Spec.no_linebreak p) acc ->
             Forall (fun p => p = [LF] \/ Spec.no_linebreak p)
                    (fold_left Llm.sse_line lines acc)).
  { induction lines as [|l lines IH]; intros acc NL F; cbn [fold_left].
    - exact F.
    - apply Forall_cons_iff in NL. destruct NL as [N1 N2].
      apply IH; [exact N2 | now apply sse_line_pieces]. }
  apply G; [exact N | constructor].
Qed.

(** X18: when at least one fragment of the response contributes, the
    reassembled payload has no line boundary other than the newline
    characters that come from the newline markers. *)
Theorem merged_line_boundaries (response_text : str) :
  Llm.content_lines response_text <> [] ->
  Props.only_lf (Llm.merged response_text).
Proof.
  intros NE. unfold Llm.merged.
  destruct (Llm.content_lines response_text) as [|p ps] eqn:C;
    [congruence|].
  rewrite join_nil_concat. pose proof (content_lines_pieces response_text) as F.
  rewrite C in F. intros c I L. apply in_concat in I.
  destruct I as [l [Il Ic]]. rewrite Forall_forall in F.
  destruct (F l Il) as [-> | N].
  - destruct Ic as [<- | []]. reflexivity.
  - unfold Spec.no_linebreak, Spec.all_in in N. rewrite Forall_forall in N.
    specialize (N c Ic). rewrite L in N. discriminate.
Qed.

Lemma merged_line_boundaries_witness :
  Props.only_lf
    (Llm.merged (lit "data: a" ++ [CR] ++ lit "data: [h_newline]"
                     ++ [LF] ++ lit "data: b")).
Proof.
  apply (merged_line_boundaries
           (lit "data: a" ++ [CR] ++ lit "data: [h_newline]"
                ++ [LF] ++ lit "data: b")).
  vm_compute. discriminate.
Defined.

(** ** The installer of the local model interface *)

Lemma dict_get_snoc (r : App.dict) (k0 v0 k : str) :
  App.dict_get (r ++ [(k0, v0)]) k
  = match App.dict_get r k with
    | Some v => Some v
    | None => if Py.str_eqb k0 k then Some v0 else None
    end.
Proof.
  induction r as [|[k1 v1] r IHr]; cbn [app App.dict_get].
  - reflexivity.
  - destruct (Py.str_eqb k1 k); [reflexivity | exact IHr].
Qed.

(** In a merged dict the entries of the second one win. *)
Lemma dict_merge_get (b : App.dict) :
  forall a k,
    App.dict_get (LlamaInstall.dict_merge a b) k
    = match App.dict_get (rev b) k with
      | Some v => Some v
      | None => App.dict_get a k
      end.
Proof.
  unfold LlamaInstall.dict_merge.
  induction b as [|[k0 v0] b IH]; intros a k; cbn [fold_left fst snd rev].
  - reflexivity.
  - rewrite IH, dict_get_snoc.
    destruct (App.dict_get (rev b) k); [reflexivity|].
    destruct (Py.str_eqb k0 k) eqn:E.
    + apply str_eqb_eq in E. subst. apply dict_get_set_same.
    + apply str_eqb_neq in E. now apply dict_get_set_other.
Qed.

Lemma env_vars_value (backend : str) :
  LlamaInstall.env_vars backend
  = [(LlamaInstall.FORCE_CMAKE, lit "1");
     (LlamaInstall.CMAKE_ARGS, LlamaInstall.cmake_args backend)].
Proof.
  unfold LlamaInstall.env_vars, LlamaInstall.cmake_args.
  destruct (Py.str_eqb backend (lit "cuBLAS")); [reflexivity|].
  destruct (Py.str_eqb backend (lit "hipBLAS")); [reflexivity|].
  destruct (Py.str_eqb backend (lit "Metal")); reflexivity.
Qed.

(** X19: in the environment that [install_llama] gives to [pip],
    [FORCE_CMAKE] is [1] and [CMAKE_ARGS] is the flag of the backend
    (the OpenBLAS flags for every name other than the three known ones),
    whatever values the process environment had for the two; every other
    variable of the process environment is passed on as it is. *)
Theorem pip_env_lookup (environ : App.dict) (backend k : str) :
  App.dict_get (LlamaInstall.pip_env environ backend) k
  = if Py.str_eqb k LlamaInstall.FORCE_CMAKE then Some (lit "1")
    else if Py.str_eqb k LlamaInstall.CMAKE_ARGS
         then Some (LlamaInstall.cmake_args backend)
         else App.dict_get environ k.
Proof.
  unfold LlamaInstall.pip_env. rewrite dict_merge_get, env_vars_value.
  cbn [rev app App.dict_get].
  destruct (Py.str_eqb k LlamaInstall.FORCE_CMAKE) eqn:F.
  - apply str_eqb_eq in F. subst k. reflexivity.
  - destruct (Py.str_eqb k LlamaInstall.CMAKE_ARGS) eqn:A.
    + apply str_eqb_eq in A. subst k. reflexivity.
    + apply str_eqb_neq in F. apply str_eqb_neq in A.
      assert (F' : Py.str_eqb LlamaInstall.FORCE_CMAKE k = false)
        by (apply str_eqb_neq; congruence).
      assert (A' : Py.str_eqb LlamaInstall.CMAKE_ARGS k = false)
        by (apply str_eqb_neq; congruence).
      rewrite F', A'. reflexivity.
Qed.

(** ** fix_comment.py: a comment with several start markers *)

(** X20: a comment block that holds further start markers is cut down
    to what follows the last of them: the block becomes the start marker,
    a space, that text without the whitespace around it, a space and the
    end marker; the text before the block stays and the text after it is
    treated in the same way. *)
Theorem fix_broken_doc_comments_nested (gap pre tail rest : str) :
  ~ Spec.contains gap Spec.START ->
  ~ Spec.contains (pre ++ Spec.START ++ tail) Spec.END_ ->
  Spec.last_at (Spec.START ++ (pre ++ Spec.START ++ tail) ++ Spec.END_)
               Spec.START (Spec.START ++ pre) ->
  FixComment.fix_broken_doc_comments
    (gap ++ Spec.START ++ (pre ++ Spec.START ++ tail) ++ Spec.END_ ++ rest)
  = gap ++ lit "/** " ++ Py.strip tail ++ lit " */"
        ++ FixComment.fix_broken_doc_comments rest.
Proof.
  intros Hg Hb L. rewrite fix_next by assumption. f_equal.
  assert (E : FixComment.fix_block
                (Spec.START ++ (pre ++ Spec.START ++ tail) ++ Spec.END_)
              = lit "/** " ++ Py.strip tail ++ lit " */").
  { unfold FixComment.fix_block, FixComment.replacer. cbn [Re.m_text].
    unfold Py.rfind. fold Spec.START.
    rewrite (rfind_nat_last_at _ _ _ L).
    rewrite length_app. cbn [length Spec.START lit list_ascii_of_string].
    destruct (Z.ltb_spec 0 (Z.of_nat (3 + length pre))) as [_|]; [|lia].
    change ("/"%char :: "*"%char :: ["*"%char]) with Spec.START.
    rewrite slice_after_start
      by (rewrite block_length, !length_app; simpl; lia).
    replace (skipn (3 + length pre) (pre ++ Spec.START ++ tail)) with tail;
      [reflexivity|].
    rewrite skipn_app, skipn_all2 by lia.
    replace (3 + length pre - length pre) with 3 by lia. reflexivity. }
  rewrite E, <- !app_assoc. reflexivity.
Qed.

Lemma fix_broken_doc_comments_nested_witness :
  FixComment.fix_broken_doc_comments (lit "a /** b /**  c */ d")
  = lit "a /** c */ d".
Proof.
  refine (fix_broken_doc_comments_nested
            (lit "a ") (lit " b ") (lit "  c ") (lit " d") _ _ _).
  - apply (proj1 (find_nat_none (lit "a ") Spec.START)). reflexivity.
  - apply (proj1 (find_nat_none (lit " b /**  c ") Spec.END_)). reflexivity.
  - exact (last_at_rfind_nat (lit "/** b /**  c */") Spec.START 6 eq_refl).
Defined.

(** ** The Deepseek wrapper and the token limit *)

(** X21: with the Deepseek wrapper a method of more than 2048 tokens is
    never sent to the model: the turn ends without an entry for it. *)
Theorem deepseek_long_method_skipped
        (a : App.Args) (w : App.World) (i : nat)
        (node : App.TreesitterMethodNode) :
  App.is_deepseek a = true ->
  2048 < App.count_tokens w (App.method_source_code node) ->
  Spec.sent_to_model a w i node = false
  /\ fst (App.process_node a w i node) = App.Skipped.
Proof.
  intros D T.
  assert (S0 : Spec.sent_to_model a w i node = false).
  { unfold Spec.sent_to_model. unfold App.is_deepseek in D.
    apply Nat.ltb_lt in T. rewrite T.
    destruct (App.gpt4 a), (App.gpt3_5_16k a), (App.azure_deployment a);
      cbn in D; try discriminate.
    cbn. now rewrite !andb_false_r. }
  split; [exact S0 | now apply process_node_skipped].
Qed.

Lemma deepseek_long_method_skipped_witness :
  fst (App.process_node
         Examples.deepseek_args
         (App.MkWorld (fun _ => 2049) (fun _ => []) (fun _ => CallRaised))
         0 Examples.method_f)
  = App.Skipped.
Proof.
  refine (proj2 (deepseek_long_method_skipped
                   Examples.deepseek_args
                   (App.MkWorld (fun _ => 2049) (fun _ => [])
                                (fun _ => CallRaised))
                   0 Examples.method_f eq_refl _)).
  cbn. lia.
Defined.

(** ** Extraction through the fence of the Deepseek wrapper *)

(** An occurrence that starts with a character absent from [p] lies
    after [p]. *)
Lemma contains_after (p g t : str) (c : ascii) :
  ~ In c p -> Spec.contains (p ++ g) (c :: t) -> Spec.contains g (c :: t).
Proof.
  induction p as [|a p IH]; intros N C; [exact C|].
  cbn [app] in C. apply contains_cons in C. destruct C as [[x E] | C].
  - cbn [app] in E. injection E as -> _. exfalso. apply N. now left.
  - apply IH; [|exact C]. intros I. apply N. now right.
Qed.

Lemma split_after (p t pre y : str) (c : ascii) :
  ~ In c p -> p ++ t = pre ++ c :: y -> exists r, pre = p ++ r.
Proof.
  revert pre. induction p as [|a p IH]; intros pre N E.
  - exists pre. reflexivity.
  - destruct pre as [|b pre].
    + cbn [app] in E. injection E as -> _. exfalso. apply N. now left.
    + cbn [app] in E. injection E as <- E.
      destruct (IH pre) as [r ->]; [intros I; apply N; now right | exact E|].
      exists r. reflexivity.
Qed.

Lemma split_before (u v x y : str) (c : ascii) :
  ~ In c v -> u ++ v = x ++ c :: y -> exists r, u = x ++ c :: r.
Proof.
  revert x. induction u as [|a u IH]; intros x N E.
  - exfalso. apply N. cbn [app] in E. rewrite E.
    apply in_or_app. right. now left.
  - destruct x as [|b x].
    + cbn [app] in E. injection E as -> _. exists u. reflexivity.
    + cbn [app] in E. injection E as <- E.
      destruct (IH x N E) as [r ->]. exists r. reflexivity.
Qed.

Lemma has_block_inside (p t sfx : str) :
  ~ In SLASH p -> ~ In SLASH sfx ->
  Spec.HasBlock (p ++ t ++ sfx) -> Spec.HasBlock t.
Proof.
  intros Np Ns [pre [body [post E]]].
  destruct (split_after p (t ++ sfx) pre (lit "**" ++ body ++ Spec.END_ ++ post)
                        SLASH Np E) as [r ->].
  rewrite <- app_assoc in E. apply app_inv_head in E.
  assert (E' : t ++ sfx
               = (r ++ Spec.START ++ body ++ [("*"%char : ascii)])
                   ++ SLASH :: post).
  { rewrite E, <- !app_assoc. reflexivity. }
  destruct (split_before _ _ _ _ _ Ns E') as [r' ->].
  exists r, body, r'. rewrite <- !app_assoc. reflexivity.
Qed.

(** The blocks of a text stay the same when it is put between two texts
    without a slash. *)
Lemma Blocks_inside (p sfx t : str) (bs : list str) :
  ~ In SLASH p -> ~ In SLASH sfx ->
  Spec.Blocks t bs -> Spec.Blocks (p ++ t ++ sfx) bs.
Proof.
  intros Np Ns B.
  assert (Bs : Spec.Blocks (t ++ sfx) bs).
  { induction B as [t H | gap body rest bs Hg Hb B IH].
    - constructor. intros HB. apply H.
      apply (has_block_inside [] t sfx); auto.
    - rewrite <- !app_assoc. now constructor. }
  clear B. destruct Bs as [t' H | gap body rest bs Hg Hb B].
  - constructor. intros HB. apply H.
    apply (has_block_inside p t' []); auto.
    now rewrite app_nil_r.
  - rewrite app_assoc. constructor; auto.
    intros C. apply Hg. now apply (contains_after p gap _ SLASH).
Qed.

Lemma tag_no_slash (lang : str) :
  Spec.all_in Re.is_word lang -> ~ In SLASH (Llm.FENCE ++ lang ++ [LF]).
Proof.
  intros W I. apply in_app_or in I. destruct I as [I | I].
  - cbn in I. intuition discriminate.
  - apply in_app_or in I. destruct I as [I | [I | []]]; [|discriminate].
    unfold Spec.all_in in W. rewrite Forall_forall in W.
    specialize (W _ I). discriminate.
Qed.

Lemma extract_fenced (lang code : str) :
  Spec.all_in Re.is_word lang -> Spec.HasBlock code ->
  Llm.extract_doc_comment (Spec.fenced lang code)
  = Llm.extract_doc_comment code.
Proof.
  intros W H. destruct (Blocks_total code) as [bs B].
  destruct (has_block_blocks _ _ H B) as [bs' [b ->]].
  rewrite (extract_doc_comment_blocks _ _ _ B).
  apply (extract_doc_comment_blocks _ bs').
  unfold Spec.fenced.
  change (Llm.FENCE ++ lang ++ [LF] ++ code ++ [LF] ++ Llm.FENCE)
    with (Llm.FENCE ++ lang ++ [LF] ++ code ++ ([LF] ++ Llm.FENCE)).
  replace (Llm.FENCE ++ lang ++ [LF] ++ code ++ ([LF] ++ Llm.FENCE))
    with ((Llm.FENCE ++ lang ++ [LF]) ++ code ++ ([LF] ++ Llm.FENCE))
    by (rewrite <- !app_assoc; reflexivity).
  apply Blocks_inside; [now apply tag_no_slash | | exact B].
  cbn. intuition discriminate.
Qed.

(** X22: the fence that the Deepseek wrapper puts around the code does
    not disturb the extraction: when the code holds a complete delimited
    block, [extract_doc_comment] gives for the fenced text what it gives
    for the code alone. *)
Theorem extract_doc_comment_through_fence (lang code : str) :
  Props.is_tag lang -> Spec.HasBlock code ->
  Llm.extract_doc_comment (Spec.fenced lang code)
  = Llm.extract_doc_comment code.
Proof.
  intros [_ W] H. now apply extract_fenced.
Qed.

Lemma extract_doc_comment_through_fence_witness :
  Llm.extract_doc_comment (Spec.fenced Llm.JAVA (lit "/** a */ int x;"))
  = Llm.extract_doc_comment (lit "/** a */ int x;").
Proof.
  apply extract_doc_comment_through_fence.
  - split; [discriminate | repeat constructor].
  - exists [], (lit " a "), (lit " int x;"). reflexivity.
Defined.

(** X23: one turn with the Deepseek wrapper, from the response body to
    the patch entry: when the cleaned code of the reassembled payload
    holds a complete delimited block, the method's entry is the comment
    extracted from that cleaned code, merged before the method text, and
    none of the warnings is printed. *)
Theorem deepseek_turn_with_block
        (a : App.Args) (w : App.World) (i : nat)
        (node : App.TreesitterMethodNode) (body : str) :
  App.is_deepseek a = true ->
  Spec.sent_to_model a w i node = true ->
  App.backend w i = Reply body ->
  Spec.HasBlock
    (Llm.clean_code (snd (Llm.select_code (Llm.merged body)))) ->
  App.process_node a w i node
  = (App.Recorded
       (App.method_source_code node)
       (Llm.insert_doc_comment
          (App.method_source_code node)
          (fst (Llm.extract_doc_comment
                  (Llm.clean_code
                     (snd (Llm.select_code (Llm.merged body))))))),
     (if App.guided a then [AskGenerate (App.name node)] else [])
       ++ [DeepseekSending; DeepseekRawResponse body;
           RawOutput (Llm.normalize body); Generated (App.name node)]).
Proof.
  intros D Hs R H.
  rewrite (sent_to_model_process _ _ _ _ Hs). cbv zeta.
  rewrite D, R. cbn [Llm.generate_doc_comment Llm.DeepseekLLM_run].
  rewrite normalize_code_block, extract_code_block_select.
  rewrite (extract_fenced _ _ (proj2 (select_code_tag (Llm.merged body))) H).
  destruct (extract_doc_comment_cases
              (Llm.clean_code (snd (Llm.select_code (Llm.merged body)))))
    as [[_ [b [Hb E]]] | [[N _] | [N _]]]; [|contradiction ..].
  rewrite E. cbn [fst snd]. rewrite strip_block.
  cbn [app]. rewrite startswith_app. reflexivity.
Qed.

Lemma deepseek_turn_with_block_witness :
  App.process_node
    Examples.deepseek_args
    (Examples.world
       (fun _ => Reply (lit "data: /** doc" ++ [LF]
                            ++ lit "data:  */")))
    0 Examples.method_f
  = (App.Recorded (lit "void f() {}")
                  (lit "/** doc */" ++ [LF] ++ lit "void f() {}"),
     [DeepseekSending;
      DeepseekRawResponse (lit "data: /** doc" ++ [LF] ++ lit "data:  */");
      RawOutput (lit "```java" ++ [LF] ++ lit "/** doc */" ++ [LF]
                     ++ lit "```");
      Generated (lit "f")]).
Proof.
  refine (deepseek_turn_with_block
            Examples.deepseek_args
            (Examples.world
               (fun _ => Reply (lit "data: /** doc" ++ [LF]
                                    ++ lit "data:  */")))
            0 Examples.method_f
            (lit "data: /** doc" ++ [LF] ++ lit "data:  */")
            eq_refl eq_refl eq_refl _).
  exists [], (lit " doc "), []. reflexivity.
Defined.
